(** * Proxx (black-hole minesweeper) board engine: model and verification

    A shallow embedding of [src/proxx_game.py]: the hole generator, the
    construction of the board, the adjacency counts, the reveal loop and the
    win/loss status, followed by the theorems about them.

    Python integers are [Z].  A Python list is a [list], indexed the way
    Python does it: an index in [-len, 0) counts from the end and anything
    outside [-len, len) raises [IndexError].  Exceptions are values of
    [result].  The cells of the grid are distinct objects, one per position,
    so mutating the cell obtained by [at] is a functional update of the grid
    at the position [at] read. *)

From Equations Require Import Equations.
From Stdlib Require Import List Finite ZArith Arith Bool Lia.
Import ListNotations.

Local Open Scope Z_scope.

(** ** Exceptions *)

Inductive value_error : Type :=
| SizeTooSmall        (* "Size ... is too small" *)
| TooManyHoles        (* "... holes is too many for the board" *)
| SampleOutOfRange.   (* random.sample: "Sample larger than population or is negative" *)

Inductive exn : Type :=
| ValueError (why : value_error)
| IndexError.

Inductive result (A : Type) : Type :=
| Ok (a : A)
| Raise (e : exn).
Arguments Ok {A} a.
Arguments Raise {A} e.

Definition bind {A B} (r : result A) (k : A -> result B) : result B :=
  match r with
  | Ok a => k a
  | Raise e => Raise e
  end.

Notation "v <- r ;; k" := (bind r (fun v => k))
  (at level 61, r at next level, right associativity).

(** [for v in l: s = body s v], stopping at the first exception. *)
Fixpoint for_each {A S} (l : list A) (s : S) (body : S -> A -> result S) : result S :=
  match l with
  | [] => Ok s
  | v :: l' => s' <- body s v ;; for_each l' s' body
  end.

(** [[f(v) for v in l]] where [f] may raise. *)
Fixpoint map_result {A B} (f : A -> result B) (l : list A) : result (list B) :=
  match l with
  | [] => Ok []
  | v :: l' => b <- f v ;; bs <- map_result f l' ;; Ok (b :: bs)
  end.

(** ** Python lists *)

(** [range(n)] *)
Definition range (n : Z) : list Z := map Z.of_nat (seq 0 (Z.to_nat n)).

(** The position a Python index denotes in a list of length [len]. *)
Definition py_index (len : nat) (i : Z) : option nat :=
  let n := Z.of_nat len in
  if (0 <=? i) && (i <? n) then Some (Z.to_nat i)
  else if (- n <=? i) && (i <? 0) then Some (Z.to_nat (n + i))
  else None.

(** [l[i]] *)
Definition getitem {A} (l : list A) (i : Z) : result A :=
  match py_index (length l) i with
  | Some k => match nth_error l k with
              | Some v => Ok v
              | None => Raise IndexError
              end
  | None => Raise IndexError
  end.

Fixpoint list_set {A} (l : list A) (k : nat) (v : A) : list A :=
  match l, k with
  | [], _ => []
  | _ :: l', O => v :: l'
  | a :: l', S k' => a :: list_set l' k' v
  end.

(** The list after the object at [l[i]] has been replaced by [v]. *)
Definition setitem {A} (l : list A) (i : Z) (v : A) : list A :=
  match py_index (length l) i with
  | Some k => list_set l k v
  | None => l
  end.

(** The list without the element at position [k]. *)
Fixpoint remove_nth {A} (l : list A) (k : nat) : list A :=
  match l, k with
  | [], _ => []
  | _ :: l', O => l'
  | a :: l', S k' => a :: remove_nth l' k'
  end.

(** ** Data model *)

Inductive GameStatus : Type := IN_GAME | LOST | WIN.

Definition SMALLEST_BOARD_SIZE : Z := 3.

Record Coord : Type := mkCoord { x : Z; y : Z }.

Definition Coord_eqb (a b : Coord) : bool := (x a =? x b) && (y a =? y b).

Record Cell : Type := mkCell {
  is_hole : bool;
  holes_around : Z;
  is_opened : bool
}.

(** [Cell.__init__] *)
Definition Cell_init (hole : bool) : Cell :=
  {| is_hole := hole; holes_around := 0; is_opened := false |}.

Definition set_is_hole (c : Cell) (v : bool) : Cell :=
  {| is_hole := v; holes_around := holes_around c; is_opened := is_opened c |}.
Definition set_holes_around (c : Cell) (v : Z) : Cell :=
  {| is_hole := is_hole c; holes_around := v; is_opened := is_opened c |}.
Definition set_is_opened (c : Cell) (v : bool) : Cell :=
  {| is_hole := is_hole c; holes_around := holes_around c; is_opened := v |}.

(** ** HolesGenerator *)

Module HolesGenerator.

Record t : Type := mk { width : Z; height : Z; holes_num : Z }.

(** [HolesGenerator.__init__] *)
Definition init (size holes : Z) : t :=
  {| width := size; height := size; holes_num := holes |}.

(** The source of randomness of the [random] module: the [i]-th number
    drawn.  It is a parameter of everything that draws, and the theorems
    hold for every such source. *)
Definition rng : Type := nat -> nat.

(** [k] draws without replacement from [pool]; the [i]-th draw takes the
    element at position [r i mod len(pool)] out of the pool. *)
Fixpoint draw {A} (r : rng) (i : nat) (k : nat) (pool : list A) : list A :=
  match k with
  | O => []
  | S k' =>
      match pool with
      | [] => []
      | a :: _ =>
          let j := (r i mod length pool)%nat in
          nth j pool a :: draw r (S i) k' (remove_nth pool j)
      end
  end.

(** [random.sample(population, k)] of the Python library, by its contract:
    [k] elements at distinct positions of the population, [ValueError] when
    [k] is negative or larger than the population. *)
Definition sample {A} (r : rng) (population : list A) (k : Z) : result (list A) :=
  if (0 <=? k) && (k <=? Z.of_nat (length population))
  then Ok (draw r 0 (Z.to_nat k) population)
  else Raise (ValueError SampleOutOfRange).

(** The loops of [generate_holes] that collect every coordinate but
    [skip_cell]. *)
Definition available_places (g : t) (skip_cell : Coord) : list Coord :=
  flat_map (fun cx =>
    flat_map (fun cy =>
      let coord := mkCoord cx cy in
      if Coord_eqb coord skip_cell then [] else [coord])
      (range (height g)))
    (range (width g)).

Definition generate_holes (g : t) (r : rng) (skip_cell : Coord) : result (list Coord) :=
  sample r (available_places g skip_cell) (holes_num g).

Definition board_size (g : t) : Z := width g * height g.

End HolesGenerator.

(** ** Board *)

Record Board : Type := mkBoard {
  width : Z;
  height : Z;
  status : GameStatus;
  cells_to_open : Z;
  board : list (list Cell)
}.

Definition set_status (b : Board) (s : GameStatus) : Board :=
  {| width := width b; height := height b; status := s;
     cells_to_open := cells_to_open b; board := board b |}.
Definition set_cells_to_open (b : Board) (n : Z) : Board :=
  {| width := width b; height := height b; status := status b;
     cells_to_open := n; board := board b |}.
Definition set_board (b : Board) (g : list (list Cell)) : Board :=
  {| width := width b; height := height b; status := status b;
     cells_to_open := cells_to_open b; board := g |}.

(** [Board.neighbors] *)
Definition neighbors : list Coord :=
  flat_map (fun dx =>
    flat_map (fun dy =>
      if (dx =? 0) && (dy =? 0) then [] else [mkCoord dx dy])
      [-1; 0; 1])
    [-1; 0; 1].

(** [Board.at] *)
Definition at_ (b : Board) (coord : Coord) : result Cell :=
  row <- getitem (board b) (y coord) ;;
  getitem row (x coord).

(** The board after the cell object [at(coord)] has been given the fields
    of [cell]. *)
Definition store (b : Board) (coord : Coord) (cell : Cell) : Board :=
  match getitem (board b) (y coord) with
  | Ok row => set_board b (setitem (board b) (y coord) (setitem row (x coord) cell))
  | Raise _ => b
  end.

(** [Board._get_adjacent_coords] *)
Definition _get_adjacent_coords (b : Board) (coord : Coord) : list Coord :=
  flat_map (fun neighbor =>
    let adjacent_coord := mkCoord (x neighbor + x coord) (y neighbor + y coord) in
    if (x adjacent_coord <? 0) || (x adjacent_coord >=? width b)
       || (y adjacent_coord <? 0) || (y adjacent_coord >=? height b)
    then [] else [adjacent_coord])
    neighbors.

(** [Board._get_adjacent_cells] *)
Definition _get_adjacent_cells (b : Board) (coord : Coord) : result (list Cell) :=
  map_result (at_ b) (_get_adjacent_coords b coord).

(** [Board._generate_holes], given the list the generator returned. *)
Definition mark_holes (b : Board) (holes : list Coord) : result Board :=
  for_each holes b (fun b hole_coord =>
    hole_cell <- at_ b hole_coord ;;
    Ok (store b hole_coord (set_is_hole hole_cell true))).

Definition _generate_holes (b : Board) (g : HolesGenerator.t) (r : HolesGenerator.rng)
    (first_cell : Coord) : result Board :=
  holes <- HolesGenerator.generate_holes g r first_cell ;;
  mark_holes b holes.

Definition int_of_bool (v : bool) : Z := if v then 1 else 0.

Definition sum (l : list Z) : Z := fold_left Z.add l 0.

(** [Board._generate_holes_adjacent] *)
Definition _generate_holes_adjacent (b : Board) : result Board :=
  for_each (range (height b)) b (fun b cy =>
    for_each (range (width b)) b (fun b cx =>
      let coord := mkCoord cx cy in
      cell <- at_ b coord ;;
      if is_hole cell then Ok b
      else
        adjacent <- _get_adjacent_cells b coord ;;
        Ok (store b coord
              (set_holes_around cell
                 (sum (map (fun adjacent_cell => int_of_bool (is_hole adjacent_cell))
                           adjacent)))))).

(** [Board._generate_board] *)
Definition _generate_board (b : Board) (g : HolesGenerator.t) (r : HolesGenerator.rng)
    (first_coord : Coord) : result Board :=
  b1 <- _generate_holes b g r first_coord ;;
  _generate_holes_adjacent b1.

(** [Board._open_cell]; [coord] is where the cell object sits. *)
Definition _open_cell (b : Board) (coord : Coord) (cell : Cell) : Board :=
  if is_opened cell then b
  else
    let b1 := store b coord (set_is_opened cell true) in
    let b2 := set_cells_to_open b1 (cells_to_open b1 - 1) in
    if cells_to_open b2 =? 0 then set_status b2 WIN else b2.

(** The [for adjacent_coord in ...] loop of [_open_cells]: the coordinates
    it appends to the queue. *)
Definition enqueue_adjacent (b : Board) (coord : Coord) : result (list Coord) :=
  for_each (_get_adjacent_coords b coord) [] (fun pushed adjacent_coord =>
    adjacent_cell <- at_ b adjacent_coord ;;
    if is_hole adjacent_cell then Ok pushed
    else if is_opened adjacent_cell then Ok pushed
    else Ok (pushed ++ [adjacent_coord])).

(** One turn of the [while queue] loop of [_open_cells], after [coord] has
    been taken out of the queue and [queue] is what is left. *)
Definition open_cells_body (b : Board) (coord : Coord) (queue : list Coord)
    : result (Board * list Coord) :=
  cell <- at_ b coord ;;
  let b1 := _open_cell b coord cell in
  if negb (holes_around cell =? 0) then Ok (b1, queue)
  else
    pushed <- enqueue_adjacent b1 coord ;;
    Ok (b1, queue ++ pushed).

(** ** Termination of the reveal loop

    The queue may hold a coordinate several times, and a coordinate taken
    out a second time pushes its unopened neighbours again, so the length
    of the queue does not decrease.  What decreases, lexicographically, is
    the number of unopened cells and then the weight of the queue, where an
    entry whose cell is still unopened weighs 1 and any other entry weighs
    9: taking out an unopened entry opens a cell, taking out an opened one
    removes 9 and pushes at most 8 unopened entries. *)

Definition total {A} (f : A -> nat) (l : list A) : nat := list_sum (map f l).

Definition unopened_cell (c : Cell) : nat := if is_opened c then 0%nat else 1%nat.

Definition unopened (b : Board) : nat := total (total unopened_cell) (board b).

Definition entry_weight (b : Board) (coord : Coord) : nat :=
  match at_ b coord with
  | Ok cell => if is_opened cell then 9%nat else 1%nat
  | Raise _ => 9%nat
  end.

Definition open_cells_measure (b : Board) (queue : list Coord) : nat * nat :=
  (unopened b, total (entry_weight b) queue).

Definition measure_lt : nat * nat -> nat * nat -> Prop :=
  Subterm.lexprod nat nat lt lt.

Lemma total_app {A} (f : A -> nat) (l1 l2 : list A) :
  total f (l1 ++ l2) = (total f l1 + total f l2)%nat.
Proof. unfold total. rewrite map_app, list_sum_app. reflexivity. Qed.

Lemma total_list_set {A} (f : A -> nat) (l : list A) (k : nat) (v v' : A) :
  nth_error l k = Some v ->
  (total f (list_set l k v') + f v = total f l + f v')%nat.
Proof.
  revert k. induction l as [|a l IH]; intros [|k] H; simpl in H; try discriminate.
  - injection H as ->. unfold total. simpl. lia.
  - specialize (IH k H). unfold total in *. simpl. lia.
Qed.

Lemma getitem_Ok {A} (l : list A) (i : Z) (v : A) :
  getitem l i = Ok v ->
  exists k, py_index (length l) i = Some k /\ nth_error l k = Some v.
Proof.
  unfold getitem. destruct (py_index (length l) i) as [k|]; [|discriminate].
  destruct (nth_error l k) as [v'|] eqn:E; [|discriminate].
  intros H. injection H as ->. eauto.
Qed.

Lemma total_setitem {A} (f : A -> nat) (l : list A) (i : Z) (v v' : A) :
  getitem l i = Ok v ->
  (total f (setitem l i v') + f v = total f l + f v')%nat.
Proof.
  intros H. destruct (getitem_Ok _ _ _ H) as (k & Hk & Hn).
  unfold setitem. rewrite Hk. now apply total_list_set.
Qed.

Lemma at_Ok (b : Board) (coord : Coord) (cell : Cell) :
  at_ b coord = Ok cell ->
  exists row, getitem (board b) (y coord) = Ok row /\ getitem row (x coord) = Ok cell.
Proof.
  unfold at_, bind. destruct (getitem (board b) (y coord)) as [row|]; [|discriminate].
  eauto.
Qed.

Lemma total_store (f : Cell -> nat) (b : Board) (coord : Coord) (cell cell' : Cell) :
  at_ b coord = Ok cell ->
  (total (total f) (board (store b coord cell')) + f cell
   = total (total f) (board b) + f cell')%nat.
Proof.
  intros H. destruct (at_Ok _ _ _ H) as (row & Hr & Hc).
  unfold store. rewrite Hr. simpl.
  pose proof (total_setitem (total f) _ _ _ (setitem row (x coord) cell') Hr).
  pose proof (total_setitem f _ _ _ cell' Hc).
  lia.
Qed.

Lemma unopened_store (b : Board) (coord : Coord) (cell cell' : Cell) :
  at_ b coord = Ok cell ->
  (unopened (store b coord cell') + unopened_cell cell
   = unopened b + unopened_cell cell')%nat.
Proof. apply total_store. Qed.

Lemma unopened__open_cell (b : Board) (coord : Coord) (cell : Cell) :
  at_ b coord = Ok cell ->
  is_opened cell = false ->
  (unopened (_open_cell b coord cell) < unopened b)%nat.
Proof.
  intros H Hop. unfold _open_cell. rewrite Hop.
  pose proof (unopened_store b coord cell (set_is_opened cell true) H) as E.
  unfold unopened_cell in E. rewrite Hop in E. simpl in E.
  assert (forall b', unopened (set_cells_to_open b' (cells_to_open b' - 1)) = unopened b')
    as E1 by reflexivity.
  destruct (_ =? 0); unfold unopened in *; simpl in *; lia.
Qed.

Lemma _get_adjacent_coords_length (b : Board) (coord : Coord) :
  (length (_get_adjacent_coords b coord) <= 8)%nat.
Proof.
  unfold _get_adjacent_coords, neighbors. simpl.
  repeat match goal with
         | |- context [if ?c then _ else _] => destruct c
         end; simpl; lia.
Qed.

Lemma enqueue_adjacent_weight (b : Board) (coord : Coord) (pushed : list Coord) :
  enqueue_adjacent b coord = Ok pushed ->
  (total (entry_weight b) pushed <= 8)%nat.
Proof.
  unfold enqueue_adjacent. intros H.
  pose proof (_get_adjacent_coords_length b coord) as L.
  assert (G : forall l acc out,
    for_each l acc (fun pushed adjacent_coord =>
      adjacent_cell <- at_ b adjacent_coord ;;
      if is_hole adjacent_cell then Ok pushed
      else if is_opened adjacent_cell then Ok pushed
      else Ok (pushed ++ [adjacent_coord])) = Ok out ->
    (total (entry_weight b) out <= total (entry_weight b) acc + length l)%nat).
  { induction l as [|a l IH]; simpl; intros acc out E.
    - injection E as <-. lia.
    - unfold bind in E at 1.
      destruct (at_ b a) as [cell|] eqn:Ea; simpl in E; [|discriminate].
      destruct (is_hole cell); [apply IH in E; lia|].
      destruct (is_opened cell) eqn:Eo; [apply IH in E; lia|].
      apply IH in E. rewrite total_app in E.
      unfold total at 3 in E. simpl in E.
      unfold entry_weight at 3 in E. rewrite Ea, Eo in E. lia. }
  apply G in H. unfold total at 2 in H. simpl in H. lia.
Qed.

Lemma open_cells_body_decreases (b : Board) (coord : Coord) (queue : list Coord)
    (b' : Board) (queue' : list Coord) (weight : nat) :
  open_cells_body b coord queue = Ok (b', queue') ->
  (entry_weight b coord + total (entry_weight b) queue <= weight)%nat ->
  measure_lt (open_cells_measure b' queue') (unopened b, weight).
Proof.
  unfold open_cells_body, open_cells_measure, bind. intros H Hw.
  destruct (at_ b coord) as [cell|] eqn:Ea; [|discriminate].
  destruct (is_opened cell) eqn:Eo.
  - (* an opened entry: the board is the same, the queue is lighter *)
    assert (Eb : _open_cell b coord cell = b) by (unfold _open_cell; now rewrite Eo).
    rewrite Eb in H.
    assert (Ew : entry_weight b coord = 9%nat)
      by (unfold entry_weight; now rewrite Ea, Eo).
    destruct (negb (holes_around cell =? 0)).
    + injection H as <- <-. right. lia.
    + destruct (enqueue_adjacent b coord) as [pushed|] eqn:Ep; [|discriminate].
      injection H as <- <-. right.
      pose proof (total_app (entry_weight b) queue pushed).
      apply enqueue_adjacent_weight in Ep. lia.
  - (* an unopened entry: one cell fewer is unopened *)
    pose proof (unopened__open_cell b coord cell Ea Eo) as Hlt.
    destruct (negb (holes_around cell =? 0)).
    + injection H as <- <-. now left.
    + destruct (enqueue_adjacent _ coord) as [pushed|]; [|discriminate].
      injection H as <- <-. now left.
Defined.

(** A value together with the equation that says where it came from. *)
Definition inspect {A} (a : A) : {v : A | a = v} := exist _ a eq_refl.

(** [Board._open_cells]: the queue is a [deque], [popleft] takes its head. *)
Equations? open_cells_loop (b : Board) (queue : list Coord) : result Board
    by wf (open_cells_measure b queue) measure_lt :=
  open_cells_loop b [] := Ok b;
  open_cells_loop b (coord :: queue) with inspect (open_cells_body b coord queue) => {
    | exist _ (Ok (b', queue')) e := open_cells_loop b' queue';
    | exist _ (Raise err) _ := Raise err }.
Proof.
  exact (open_cells_body_decreases b coord queue b' queue' _ e (le_n _)).
Defined.

Definition _open_cells (b : Board) (coord : Coord) : result Board :=
  open_cells_loop b [coord].

(** [Board.click_on] *)
Definition click_on (b : Board) (coord : Coord) : result Board :=
  cell <- at_ b coord ;;
  if is_hole cell then Ok (set_status b LOST)
  else _open_cells b coord.

(** [Board.__init__]; the board object exists only when no exception was
    raised. *)
Definition Board_init (size holes_num : Z) (holes_generator : HolesGenerator.t)
    (r : HolesGenerator.rng) (first_coord : Coord) : result Board :=
  if size <=? SMALLEST_BOARD_SIZE then Raise (ValueError SizeTooSmall)
  else if size ^ 2 - SMALLEST_BOARD_SIZE ^ 2 <=? holes_num
  then Raise (ValueError TooManyHoles)
  else
    let b := {| width := size; height := size; status := IN_GAME;
                cells_to_open := size * size - holes_num;
                board := map (fun _ => map (fun _ => Cell_init false) (range size))
                             (range size) |} in
    b1 <- _generate_board b holes_generator r first_coord ;;
    click_on b1 first_coord.

(** ** The reveal with another traversal order

    The same loop body over a work-list from which any entry may be taken
    next: a discipline names the position of the entry to take (modulo the
    length of the work-list), and what the body pushes is appended.  The
    head gives back the queue of [_open_cells], the last position a stack. *)

Definition discipline : Type := Board -> list Coord -> nat.

Definition take (d : discipline) (b : Board) (worklist : list Coord)
    : option (Coord * list Coord) :=
  match worklist with
  | [] => None
  | c0 :: _ =>
      let k := (d b worklist mod length worklist)%nat in
      Some (nth k worklist c0, remove_nth worklist k)
  end.

Lemma total_remove_nth {A} (f : A -> nat) (l : list A) (k : nat) (a : A) :
  (k < length l)%nat ->
  total f l = (f (nth k l a) + total f (remove_nth l k))%nat.
Proof.
  revert k. induction l as [|v l IH]; intros [|k] H; simpl in H; try lia.
  - reflexivity.
  - simpl. unfold total in *. simpl. rewrite (IH k) by lia. lia.
Qed.

Lemma take_total (f : Coord -> nat) (d : discipline) (b : Board)
    (worklist rest : list Coord) (coord : Coord) :
  take d b worklist = Some (coord, rest) ->
  total f worklist = (f coord + total f rest)%nat.
Proof.
  unfold take. destruct worklist as [|c0 l]; [discriminate|].
  assert (Hk : (d b (c0 :: l) mod length (c0 :: l) < length (c0 :: l))%nat)
    by (apply Nat.mod_upper_bound; discriminate).
  revert Hk. generalize (d b (c0 :: l) mod length (c0 :: l))%nat. intros k Hk H.
  injection H as <- <-.
  exact (total_remove_nth f (c0 :: l) k c0 Hk).
Qed.

Lemma open_cells_with_decreases (d : discipline) (b : Board) (worklist rest : list Coord)
    (coord : Coord) (b' : Board) (worklist' : list Coord) :
  take d b worklist = Some (coord, rest) ->
  open_cells_body b coord rest = Ok (b', worklist') ->
  measure_lt (open_cells_measure b' worklist') (open_cells_measure b worklist).
Proof.
  intros Ht Hb.
  apply (open_cells_body_decreases b coord rest b' worklist' _ Hb).
  rewrite (take_total (entry_weight b) d b worklist rest coord Ht). apply le_n.
Defined.

Equations? open_cells_with (d : discipline) (b : Board) (worklist : list Coord)
    : result Board by wf (open_cells_measure b worklist) measure_lt :=
  open_cells_with d b worklist with inspect (take d b worklist) => {
    | exist _ None _ := Ok b;
    | exist _ (Some (coord, rest)) e1 with inspect (open_cells_body b coord rest) => {
        | exist _ (Ok (b', worklist')) e2 := open_cells_with d b' worklist';
        | exist _ (Raise err) _ := Raise err } }.
Proof.
  exact (open_cells_with_decreases d b worklist rest coord b' worklist' e1 e2).
Defined.

(** [deque.popleft]: first in, first out. *)
Definition popleft : discipline := fun _ _ => 0%nat.

(** A stack: last in, first out. *)
Definition pop : discipline := fun _ worklist => (length worklist - 1)%nat.

(** [click_on] with the reveal run under the discipline [d]. *)
Definition click_on_with (d : discipline) (b : Board) (coord : Coord) : result Board :=
  cell <- at_ b coord ;;
  if is_hole cell then Ok (set_status b LOST)
  else open_cells_with d b [coord].

(** ** Vocabulary of the specification *)

(** The grid has [height] rows of [width] cells. *)
Definition shaped (b : Board) : Prop :=
  0 <= width b /\ 0 <= height b /\
  length (board b) = Z.to_nat (height b) /\
  Forall (fun row => length row = Z.to_nat (width b)) (board b).

(** A coordinate within [0, width) x [0, height). *)
Definition in_board (b : Board) (coord : Coord) : Prop :=
  0 <= x coord < width b /\ 0 <= y coord < height b.

(** The cell at a coordinate, for reading its fields in statements. *)
Definition cell_at (b : Board) (coord : Coord) : Cell :=
  match at_ b coord with
  | Ok cell => cell
  | Raise _ => Cell_init false
  end.

Definition hole_cell (c : Cell) : nat := if is_hole c then 1%nat else 0%nat.
Definition opened_cell (c : Cell) : nat := if is_opened c then 1%nat else 0%nat.
Definition safe_unopened_cell (c : Cell) : nat :=
  if is_hole c then 0%nat else unopened_cell c.

(** How many cells of the grid are holes, are opened, are safe and not yet
    opened. *)
Definition holes_count (b : Board) : nat := total (total hole_cell) (board b).
Definition opened_count (b : Board) : nat := total (total opened_cell) (board b).
Definition remaining_safe_cells (b : Board) : nat :=
  total (total safe_unopened_cell) (board b).

(** The number of holes among the in-bounds neighbours of a coordinate. *)
Definition holes_among_neighbours (b : Board) (coord : Coord) : Z :=
  Z.of_nat (length (filter (fun n => is_hole (cell_at b n)) (_get_adjacent_coords b coord))).

(** The cells a reveal started at [start] opens on the board [b]: the start,
    and from every such cell without holes around, its neighbours that are
    neither holes nor opened on [b]. *)
Inductive fill (b : Board) (start : Coord) : Coord -> Prop :=
| fill_start : fill b start start
| fill_step (m n : Coord) :
    fill b start m ->
    holes_around (cell_at b m) = 0 ->
    In n (_get_adjacent_coords b m) ->
    is_hole (cell_at b n) = false ->
    is_opened (cell_at b n) = false ->
    fill b start n.

(** The least set that contains [start] and, with every member without
    holes around, its in-bounds neighbours that are not holes. *)
Inductive region (b : Board) (start : Coord) : Coord -> Prop :=
| region_start : region b start start
| region_step (m n : Coord) :
    region b start m ->
    holes_around (cell_at b m) = 0 ->
    In n (_get_adjacent_coords b m) ->
    is_hole (cell_at b n) = false ->
    region b start n.

(** A sequence of clicks. *)
Fixpoint clicks (b : Board) (coords : list Coord) : result Board :=
  match coords with
  | [] => Ok b
  | coord :: coords' => b' <- click_on b coord ;; clicks b' coords'
  end.

(** The boards of a game on a board of side [size] with [holes_num] holes:
    the board as constructed, with a generator made for the same size and
    number of holes and a first coordinate on the board, and what in-bounds
    clicks make of it. *)
Inductive game (size holes_num : Z) : Board -> Prop :=
| game_start (r : HolesGenerator.rng) (first_coord : Coord) (b : Board) :
    0 <= x first_coord < size -> 0 <= y first_coord < size ->
    Board_init size holes_num (HolesGenerator.init size holes_num) r first_coord = Ok b ->
    game size holes_num b
| game_click (b b' : Board) (coord : Coord) :
    game size holes_num b ->
    in_board b coord ->
    click_on b coord = Ok b' ->
    game size holes_num b'.

(** What holds of every board of a game. *)
Record board_ok (b : Board) : Prop := {
  ok_shaped : shaped b;
  ok_holes_closed : forall p, in_board b p ->
    is_hole (cell_at b p) = true -> is_opened (cell_at b p) = false;
  ok_filled : forall m n, in_board b m ->
    is_opened (cell_at b m) = true -> holes_around (cell_at b m) = 0 ->
    In n (_get_adjacent_coords b m) -> is_hole (cell_at b n) = false ->
    is_opened (cell_at b n) = true;
  ok_counter : cells_to_open b = Z.of_nat (remaining_safe_cells b);
  ok_in_game : status b = IN_GAME -> 0 < cells_to_open b;
  ok_win : status b = WIN -> cells_to_open b = 0
}.

(** The coordinates of [generate_holes], in the order of its loops. *)
Definition places (g : HolesGenerator.t) : list Coord :=
  flat_map (fun cx => map (fun cy => mkCoord cx cy) (range (HolesGenerator.height g)))
           (range (HolesGenerator.width g)).

(** The board of [__init__] before the holes are placed. *)
Definition empty_board (size holes_num : Z) : Board :=
  {| width := size; height := size; status := IN_GAME;
     cells_to_open := size * size - holes_num;
     board := map (fun _ => map (fun _ => Cell_init false) (range size)) (range size) |}.

(** The board of [__init__] before the first click: [holes] is what the
    generator returned. *)
Record generated (size holes_num : Z) (holes : list Coord) (b : Board) : Prop := {
  gen_shaped : shaped b;
  gen_width : width b = size;
  gen_height : height b = size;
  gen_status : status b = IN_GAME;
  gen_counter : cells_to_open b = size * size - holes_num;
  gen_unopened : forall p, in_board b p -> is_opened (cell_at b p) = false;
  gen_hole : forall p, in_board b p -> is_hole (cell_at b p) = true <-> In p holes;
  gen_count : holes_count b = length holes;
  gen_around_safe : forall p, in_board b p -> is_hole (cell_at b p) = false ->
    holes_around (cell_at b p) = holes_among_neighbours b p;
  gen_around_hole : forall p, in_board b p -> is_hole (cell_at b p) = true ->
    holes_around (cell_at b p) = 0
}.

(** The body of the inner loop of [_generate_holes_adjacent], at [coord]. *)
Definition count_at (b : Board) (coord : Coord) : result Board :=
  cell <- at_ b coord ;;
  if is_hole cell then Ok b
  else
    adjacent <- _get_adjacent_cells b coord ;;
    Ok (store b coord
          (set_holes_around cell
             (sum (map (fun adjacent_cell => int_of_bool (is_hole adjacent_cell))
                       adjacent)))).

(** What holds of every board of a game of side [size] with [holes_num]
    holes, besides [board_ok]. *)
Record game_ok (size holes_num : Z) (b : Board) : Prop := {
  game_board_ok : board_ok b;
  game_size : 3 < size;
  game_holes_num : 0 <= holes_num < size ^ 2 - 9;
  game_width : width b = size;
  game_height : height b = size;
  game_holes : Z.of_nat (holes_count b) = holes_num;
  game_around_safe : forall p, in_board b p -> is_hole (cell_at b p) = false ->
    holes_around (cell_at b p) = holes_among_neighbours b p;
  game_around_hole : forall p, in_board b p -> is_hole (cell_at b p) = true ->
    holes_around (cell_at b p) = 0
}.

(** The tests of [in_board] and [shaped], for boards given in full. *)
Definition in_boardb (b : Board) (coord : Coord) : bool :=
  (0 <=? x coord) && (x coord <? width b) && (0 <=? y coord) && (y coord <? height b).

Definition shapedb (b : Board) : bool :=
  (0 <=? width b) && (0 <=? height b)
  && (length (board b) =? Z.to_nat (height b))%nat
  && forallb (fun row => (length row =? Z.to_nat (width b))%nat) (board b).

(** A source of randomness: every number drawn is 0. *)
Definition zero_rng : HolesGenerator.rng := fun _ => 0%nat.

(** The board [__init__] returns with a generator made for the same size
    and number of holes and the random numbers all 0. *)
Definition started (size holes_num : Z) (first_coord : Coord) : Board :=
  match Board_init size holes_num (HolesGenerator.init size holes_num) zero_rng
          first_coord with
  | Ok b => b
  | Raise _ => empty_board size holes_num
  end.

(** 4 x 4, the hole at (0, 0), the first click at (0, 1): one cell opened. *)
Definition in_play_board : Board := started 4 1 (mkCoord 0 1).

(** 4 x 4, the hole at (0, 0), the first click at (3, 3): all 15 opened. *)
Definition won_board : Board := started 4 1 (mkCoord 3 3).

(** [in_play_board] after a click on the hole. *)
Definition lost_board : Board := set_status in_play_board LOST.

(** ** Facts about Python lists *)

Lemma py_index_in (len : nat) (i : Z) :
  0 <= i < Z.of_nat len -> py_index len i = Some (Z.to_nat i).
Proof.
  intros H. unfold py_index.
  destruct (Z.leb_spec 0 i); [|lia]. destruct (Z.ltb_spec i (Z.of_nat len)); [|lia].
  reflexivity.
Qed.

Lemma length_list_set {A} (l : list A) (k : nat) (v : A) :
  length (list_set l k v) = length l.
Proof.
  revert k. induction l as [|a l IH]; intros [|k]; simpl; auto.
Qed.

Lemma nth_error_list_set_eq {A} (l : list A) (k : nat) (v : A) :
  (k < length l)%nat -> nth_error (list_set l k v) k = Some v.
Proof.
  revert k. induction l as [|a l IH]; intros [|k] H; simpl in *; try lia; auto.
  apply IH. lia.
Qed.

Lemma nth_error_list_set_ne {A} (l : list A) (k k' : nat) (v : A) :
  k <> k' -> nth_error (list_set l k v) k' = nth_error l k'.
Proof.
  revert k k'. induction l as [|a l IH]; intros [|k] [|k'] H; simpl; auto; try congruence.
Qed.

Lemma length_setitem {A} (l : list A) (i : Z) (v : A) :
  length (setitem l i v) = length l.
Proof.
  unfold setitem. destruct (py_index _ _); auto using length_list_set.
Qed.

Lemma getitem_in {A} (l : list A) (i : Z) :
  0 <= i < Z.of_nat (length l) ->
  exists v, getitem l i = Ok v /\ nth_error l (Z.to_nat i) = Some v.
Proof.
  intros H. unfold getitem. rewrite py_index_in by assumption.
  destruct (nth_error l (Z.to_nat i)) as [v|] eqn:E; [eauto|].
  apply nth_error_None in E. lia.
Qed.

Lemma getitem_setitem_eq {A} (l : list A) (i : Z) (v : A) :
  0 <= i < Z.of_nat (length l) -> getitem (setitem l i v) i = Ok v.
Proof.
  intros H. unfold setitem. rewrite py_index_in by assumption.
  unfold getitem. rewrite length_list_set, py_index_in by assumption.
  rewrite nth_error_list_set_eq by lia. reflexivity.
Qed.

Lemma getitem_setitem_ne {A} (l : list A) (i j : Z) (v : A) :
  0 <= i < Z.of_nat (length l) -> 0 <= j < Z.of_nat (length l) -> i <> j ->
  getitem (setitem l i v) j = getitem l j.
Proof.
  intros Hi Hj Hne. unfold setitem. rewrite (py_index_in _ i) by assumption.
  unfold getitem. rewrite length_list_set. rewrite (py_index_in _ j) by assumption.
  rewrite nth_error_list_set_ne by lia. reflexivity.
Qed.

Lemma Forall_list_set {A} (P : A -> Prop) (l : list A) (k : nat) (v : A) :
  Forall P l -> P v -> Forall P (list_set l k v).
Proof.
  intros H Hv. revert k. induction H as [|a l Ha Hl IH]; intros [|k]; simpl; auto.
Qed.

Lemma Forall_setitem {A} (P : A -> Prop) (l : list A) (i : Z) (v : A) :
  Forall P l -> P v -> Forall P (setitem l i v).
Proof.
  intros H Hv. unfold setitem. destruct (py_index _ _); auto using Forall_list_set.
Qed.

Lemma in_range (n i : Z) : In i (range n) <-> 0 <= i < n.
Proof.
  unfold range. rewrite in_map_iff. split.
  - intros (k & <- & Hk). apply in_seq in Hk. lia.
  - intros H. exists (Z.to_nat i). split; [lia|]. apply in_seq. lia.
Qed.

Lemma length_range (n : Z) : length (range n) = Z.to_nat n.
Proof. unfold range. now rewrite length_map, length_seq. Qed.

Lemma NoDup_range (n : Z) : NoDup (range n).
Proof.
  unfold range. apply Finite.Injective_map_NoDup; [|apply seq_NoDup].
  intros a b H. lia.
Qed.

(** ** Facts about the grid *)

Section Grid.

Variable b : Board.
Hypothesis Hshaped : shaped b.

Lemma row_in (j : Z) :
  0 <= j < height b ->
  exists row, getitem (board b) j = Ok row /\ length row = Z.to_nat (width b).
Proof.
  destruct Hshaped as (Hw & Hh & Hl & Hrows). intros Hj.
  destruct (getitem_in (board b) j) as (row & Hg & Hn); [lia|].
  exists row. split; [assumption|].
  rewrite Forall_forall in Hrows. apply Hrows. eapply nth_error_In; eauto.
Qed.

Lemma at_in (coord : Coord) :
  in_board b coord -> at_ b coord = Ok (cell_at b coord).
Proof.
  intros [Hx Hy]. unfold cell_at, at_, bind.
  destruct (row_in (y coord) Hy) as (row & -> & Hlen).
  destruct (getitem_in row (x coord)) as (cell & -> & _); [lia|]. reflexivity.
Qed.

Lemma shaped_store (coord : Coord) (cell : Cell) : shaped (store b coord cell).
Proof.
  destruct Hshaped as (Hw & Hh & Hl & Hrows). unfold store.
  destruct (getitem (board b) (y coord)) as [row|] eqn:E; [|exact Hshaped].
  repeat split; simpl; auto.
  - now rewrite length_setitem.
  - apply Forall_setitem; [assumption|]. rewrite length_setitem.
    destruct (getitem_Ok _ _ _ E) as (k & _ & Hk).
    rewrite Forall_forall in Hrows. apply Hrows. eapply nth_error_In; eauto.
Qed.

Lemma at_store_eq (coord : Coord) (cell : Cell) :
  in_board b coord -> at_ (store b coord cell) coord = Ok cell.
Proof.
  intros [Hx Hy]. destruct Hshaped as (Hw & Hh & Hl & Hrows).
  unfold store. destruct (row_in (y coord) Hy) as (row & -> & Hlen).
  unfold at_, bind. simpl. rewrite getitem_setitem_eq by lia.
  apply getitem_setitem_eq. lia.
Qed.

Lemma at_store_ne (coord coord' : Coord) (cell : Cell) :
  in_board b coord -> in_board b coord' -> coord <> coord' ->
  at_ (store b coord cell) coord' = at_ b coord'.
Proof.
  intros [Hx Hy] [Hx' Hy'] Hne. destruct Hshaped as (Hw & Hh & Hl & Hrows).
  unfold store. destruct (row_in (y coord) Hy) as (row & Hrow & Hlen).
  rewrite Hrow. unfold at_, bind. simpl.
  destruct (Z.eq_dec (y coord) (y coord')) as [E|E].
  - rewrite <- E. rewrite getitem_setitem_eq by lia. rewrite Hrow.
    apply getitem_setitem_ne; try lia.
    intros Ex. apply Hne. destruct coord, coord'; simpl in *; congruence.
  - rewrite getitem_setitem_ne by lia. reflexivity.
Qed.

Lemma cell_at_store_eq (coord : Coord) (cell : Cell) :
  in_board b coord -> cell_at (store b coord cell) coord = cell.
Proof. intros H. unfold cell_at. now rewrite at_store_eq. Qed.

Lemma cell_at_store_ne (coord coord' : Coord) (cell : Cell) :
  in_board b coord -> in_board b coord' -> coord <> coord' ->
  cell_at (store b coord cell) coord' = cell_at b coord'.
Proof. intros H H' Hne. unfold cell_at. now rewrite at_store_ne. Qed.

Lemma in_adjacent (coord n : Coord) :
  In n (_get_adjacent_coords b coord) -> in_board b n.
Proof.
  unfold _get_adjacent_coords. rewrite in_flat_map. intros (d & _ & H).
  cbv zeta in H.
  match type of H with
  | In _ (if ?c then _ else _) => destruct c eqn:E; [contradiction|]
  end.
  destruct H as [<-|[]]. simpl in E.
  repeat (apply orb_false_iff in E; destruct E as [E ?]).
  unfold in_board. simpl. lia.
Qed.

End Grid.

Lemma Coord_eqb_eq (a c : Coord) : Coord_eqb a c = true <-> a = c.
Proof.
  unfold Coord_eqb. rewrite andb_true_iff, !Z.eqb_eq.
  destruct a, c; simpl. split; [intros [-> ->]; reflexivity|intros H; now inversion H].
Qed.

Lemma _get_adjacent_coords_dims (b b' : Board) (coord : Coord) :
  width b' = width b -> height b' = height b ->
  _get_adjacent_coords b' coord = _get_adjacent_coords b coord.
Proof. intros Hw Hh. unfold _get_adjacent_coords. now rewrite Hw, Hh. Qed.

Lemma in_board_dims (b b' : Board) (coord : Coord) :
  width b' = width b -> height b' = height b ->
  in_board b' coord <-> in_board b coord.
Proof. intros Hw Hh. unfold in_board. now rewrite Hw, Hh. Qed.

(** ** One turn of the loop *)

Section Open_cell.

Variable b : Board.
Hypothesis Hshaped : shaped b.
Variable coord : Coord.
Hypothesis Hcoord : in_board b coord.

Let b1 := _open_cell b coord (cell_at b coord).

Lemma _open_cell_dims : width b1 = width b /\ height b1 = height b.
Proof.
  subst b1. unfold _open_cell, store.
  destruct (is_opened _); [auto|].
  destruct (getitem _ _); destruct (_ =? 0); simpl; auto.
Qed.

Lemma _open_cell_board :
  board b1 = if is_opened (cell_at b coord) then board b
             else board (store b coord (set_is_opened (cell_at b coord) true)).
Proof.
  subst b1. unfold _open_cell. destruct (is_opened _); [reflexivity|].
  destruct (_ =? 0); reflexivity.
Qed.

Lemma _open_cell_shaped : shaped b1.
Proof.
  destruct _open_cell_dims as [Hw Hh].
  pose proof (shaped_store b Hshaped coord (set_is_opened (cell_at b coord) true)) as Hs.
  unfold shaped in *. rewrite Hw, Hh, _open_cell_board.
  destruct (is_opened _); [assumption|].
  unfold store in *. destruct (getitem _ _); simpl in *; assumption.
Qed.

Lemma _open_cell_at (p : Coord) :
  in_board b p ->
  cell_at b1 p = if Coord_eqb p coord then set_is_opened (cell_at b p) true
                 else cell_at b p.
Proof.
  intros Hp. unfold cell_at at 1.
  assert (E : at_ b1 p
              = if is_opened (cell_at b coord) then at_ b p
                else at_ (store b coord (set_is_opened (cell_at b coord) true)) p).
  { unfold at_. rewrite _open_cell_board. now destruct (is_opened _). }
  rewrite E. destruct (Coord_eqb p coord) eqn:Ep.
  - apply Coord_eqb_eq in Ep. subst p.
    destruct (is_opened (cell_at b coord)) eqn:Eo.
    + rewrite at_in by assumption. destruct (cell_at b coord); simpl in *; now subst.
    + now rewrite at_store_eq.
  - assert (coord <> p) by (intros ->; rewrite (proj2 (Coord_eqb_eq p p) eq_refl) in Ep;
                            discriminate).
    destruct (is_opened (cell_at b coord)).
    + now rewrite at_in.
    + rewrite at_store_ne by assumption. now rewrite at_in.
Qed.

Lemma _open_cell_counter :
  cells_to_open b1 - Z.of_nat (unopened b1) = cells_to_open b - Z.of_nat (unopened b)
  /\ cells_to_open b1 = cells_to_open b - (if is_opened (cell_at b coord) then 0 else 1).
Proof.
  pose proof (unopened_store b coord (cell_at b coord)
                (set_is_opened (cell_at b coord) true) (at_in b Hshaped coord Hcoord)) as E.
  assert (Eu : unopened b1 = total (total unopened_cell) (board b1)) by reflexivity.
  rewrite _open_cell_board in Eu. subst b1. unfold _open_cell in *.
  unfold unopened_cell in E at 1 2.
  destruct (is_opened (cell_at b coord)) eqn:Eo; simpl in E.
  - lia.
  - fold (unopened (store b coord (set_is_opened (cell_at b coord) true))) in Eu.
    assert (Ec : cells_to_open (store b coord (set_is_opened (cell_at b coord) true))
                 = cells_to_open b)
      by (unfold store; destruct (getitem _ _); reflexivity).
    destruct (_ =? 0); simpl in *; lia.
Qed.

Lemma _open_cell_status :
  status b1 = if is_opened (cell_at b coord) then status b
              else if cells_to_open b - 1 =? 0 then WIN else status b.
Proof.
  subst b1. unfold _open_cell. destruct (is_opened _); [reflexivity|].
  assert (Ec : forall v, cells_to_open (store b coord v) = cells_to_open b)
    by (intros v; unfold store; destruct (getitem _ _); reflexivity).
  assert (Es : forall v, status (store b coord v) = status b)
    by (intros v; unfold store; destruct (getitem _ _); reflexivity).
  simpl. rewrite Ec. destruct (_ =? 0); simpl; [reflexivity|apply Es].
Qed.

Lemma enqueue_adjacent_eq (b' : Board) (c : Coord) :
  shaped b' ->
  enqueue_adjacent b' c
  = Ok (filter (fun n => negb (is_hole (cell_at b' n)) && negb (is_opened (cell_at b' n)))
               (_get_adjacent_coords b' c)).
Proof.
  intros Hs. unfold enqueue_adjacent.
  assert (G : forall l acc, Forall (in_board b') l ->
    for_each l acc (fun pushed adjacent_coord =>
      adjacent_cell <- at_ b' adjacent_coord ;;
      if is_hole adjacent_cell then Ok pushed
      else if is_opened adjacent_cell then Ok pushed
      else Ok (pushed ++ [adjacent_coord]))
    = Ok (acc ++ filter (fun n => negb (is_hole (cell_at b' n))
                                  && negb (is_opened (cell_at b' n))) l)).
  { induction l as [|a l IH]; intros acc Hl; cbn [for_each filter].
    - now rewrite app_nil_r.
    - inversion Hl as [|? ? Ha Hl']; subst.
      rewrite (at_in b' Hs a Ha). cbn [bind].
      destruct (is_hole (cell_at b' a)); cbn [bind negb andb]; [now apply IH|].
      destruct (is_opened (cell_at b' a)); cbn [bind negb andb]; [now apply IH|].
      rewrite IH by assumption. now rewrite <- app_assoc. }
  apply (G _ []). apply Forall_forall. intros n Hn. eapply in_adjacent; eauto.
Qed.

Lemma open_cells_body_eq (queue : list Coord) :
  open_cells_body b coord queue
  = Ok (b1, queue ++
            if negb (holes_around (cell_at b coord) =? 0) then []
            else filter (fun n => negb (is_hole (cell_at b1 n))
                                  && negb (is_opened (cell_at b1 n)))
                        (_get_adjacent_coords b coord)).
Proof.
  unfold open_cells_body. rewrite (at_in b Hshaped coord Hcoord). unfold bind at 1.
  fold b1. destruct (negb _); [now rewrite app_nil_r|].
  rewrite (enqueue_adjacent_eq b1 coord _open_cell_shaped). simpl.
  destruct _open_cell_dims as [Hw Hh].
  now rewrite (_get_adjacent_coords_dims b b1 coord Hw Hh).
Qed.

End Open_cell.

(** ** The work-list *)

Lemma remove_nth_In {A} (l : list A) (k : nat) (n : A) :
  In n (remove_nth l k) -> In n l.
Proof.
  revert k. induction l as [|a l IH]; intros [|k]; simpl; auto.
  intros [->|H]; eauto.
Qed.

Lemma In_remove_nth {A} (l : list A) (k : nat) (a n : A) :
  (k < length l)%nat -> In n l -> n = nth k l a \/ In n (remove_nth l k).
Proof.
  revert k. induction l as [|v l IH]; intros [|k] Hk; simpl in *; try lia.
  - intros [->|H]; auto.
  - intros [->|H]; auto. destruct (IH k ltac:(lia) H); auto.
Qed.

Lemma take_Some (d : discipline) (b : Board) (worklist rest : list Coord) (coord : Coord) :
  take d b worklist = Some (coord, rest) ->
  In coord worklist
  /\ (forall n, In n rest -> In n worklist)
  /\ (forall n, In n worklist -> n = coord \/ In n rest).
Proof.
  unfold take. destruct worklist as [|c0 l]; [discriminate|].
  assert (Hk : (d b (c0 :: l) mod length (c0 :: l) < length (c0 :: l))%nat)
    by (apply Nat.mod_upper_bound; discriminate).
  revert Hk. generalize (d b (c0 :: l) mod length (c0 :: l))%nat. intros k Hk H.
  injection H as <- <-. repeat split.
  - exact (nth_In (c0 :: l) c0 Hk).
  - intros n. exact (remove_nth_In (c0 :: l) k n).
  - intros n. exact (In_remove_nth (c0 :: l) k c0 n Hk).
Qed.

Lemma take_None (d : discipline) (b : Board) (worklist : list Coord) :
  take d b worklist = None -> worklist = [].
Proof. unfold take. destruct worklist; [reflexivity|discriminate]. Qed.

(** The induction that follows the turns of the loop. *)
Lemma open_cells_with_turns (d : discipline)
    (P : Board -> list Coord -> result Board -> Prop) :
  (forall b, P b [] (Ok b)) ->
  (forall b worklist coord rest b' worklist',
      take d b worklist = Some (coord, rest) ->
      open_cells_body b coord rest = Ok (b', worklist') ->
      P b' worklist' (open_cells_with d b' worklist') ->
      P b worklist (open_cells_with d b' worklist')) ->
  (forall b worklist coord rest err,
      take d b worklist = Some (coord, rest) ->
      open_cells_body b coord rest = Raise err ->
      P b worklist (Raise err)) ->
  forall b worklist, P b worklist (open_cells_with d b worklist).
Proof.
  intros Hnil Hturn Herr b worklist.
  funelim (open_cells_with d b worklist).
  - rewrite (take_None _ _ _ e). apply Hnil.
  - eapply Hturn; eauto. apply H; assumption.
  - eapply Herr; eauto.
Qed.

Lemma open_cells_with_step (d : discipline) (b : Board) (worklist : list Coord) :
  open_cells_with d b worklist
  = match take d b worklist with
    | None => Ok b
    | Some (coord, rest) =>
        match open_cells_body b coord rest with
        | Ok (b', worklist') => open_cells_with d b' worklist'
        | Raise err => Raise err
        end
    end.
Proof.
  funelim (open_cells_with d b worklist).
  - now rewrite e.
  - now rewrite e1, e2.
  - now rewrite e1, e.
Qed.

Lemma take_popleft (b : Board) (coord : Coord) (queue : list Coord) :
  take popleft b (coord :: queue) = Some (coord, queue).
Proof. unfold take, popleft. now rewrite Nat.Div0.mod_0_l. Qed.

(** The queue of [_open_cells] is the work-list taken from its head. *)
Lemma open_cells_loop_popleft (b : Board) (queue : list Coord) :
  open_cells_loop b queue = open_cells_with popleft b queue.
Proof.
  funelim (open_cells_loop b queue).
  - now rewrite open_cells_with_step.
  - rewrite H. symmetry. rewrite open_cells_with_step at 1.
    now rewrite take_popleft, e.
  - rewrite open_cells_with_step. now rewrite take_popleft, e.
Qed.

Lemma click_on_popleft (b : Board) (coord : Coord) :
  click_on b coord = click_on_with popleft b coord.
Proof.
  unfold click_on, click_on_with, _open_cells.
  now rewrite open_cells_loop_popleft.
Qed.

(** ** What the reveal does, whatever the traversal order

    [b0] is the board on which the reveal starts, at [start].  The loop
    keeps [reveal_inv]; when the work-list is empty it says that the opened
    cells are those of [b0] and those of [fill b0 start]. *)

Section Reveal.

Variable d : discipline.
Variable b0 : Board.
Hypothesis Hshaped0 : shaped b0.
Variable start : Coord.
Hypothesis Hstart : in_board b0 start.

(** The neighbours of [m] that the loop had to push are opened or still
    in the work-list. *)
Definition expanded (b : Board) (worklist : list Coord) (m : Coord) : Prop :=
  holes_around (cell_at b0 m) = 0 ->
  forall n, In n (_get_adjacent_coords b0 m) ->
  is_hole (cell_at b0 n) = false -> is_opened (cell_at b0 n) = false ->
  is_opened (cell_at b n) = true \/ In n worklist.

Record reveal_inv (b : Board) (worklist : list Coord) : Prop := {
  inv_shaped : shaped b;
  inv_width : width b = width b0;
  inv_height : height b = height b0;
  inv_hole : forall p, in_board b0 p ->
    is_hole (cell_at b p) = is_hole (cell_at b0 p);
  inv_around : forall p, in_board b0 p ->
    holes_around (cell_at b p) = holes_around (cell_at b0 p);
  inv_mono : forall p, in_board b0 p ->
    is_opened (cell_at b0 p) = true -> is_opened (cell_at b p) = true;
  inv_sound : forall p, in_board b0 p ->
    is_opened (cell_at b p) = true -> is_opened (cell_at b0 p) = false ->
    fill b0 start p;
  inv_worklist : Forall (fill b0 start) worklist;
  inv_start : In start worklist
              \/ (is_opened (cell_at b start) = true /\ expanded b worklist start);
  inv_expanded : forall m, in_board b0 m ->
    is_opened (cell_at b m) = true -> is_opened (cell_at b0 m) = false ->
    expanded b worklist m;
  inv_counter : cells_to_open b - Z.of_nat (unopened b)
                = cells_to_open b0 - Z.of_nat (unopened b0);
  inv_le : cells_to_open b <= cells_to_open b0;
  inv_status : status b = if (cells_to_open b <=? 0) && (0 <? cells_to_open b0)
                          then WIN else status b0
}.

Lemma fill_in_board (p : Coord) : fill b0 start p -> in_board b0 p.
Proof. intros H. destruct H; [assumption|]. eapply in_adjacent; eauto. Qed.

Lemma fill_unopened (p : Coord) :
  fill b0 start p -> p = start \/ is_opened (cell_at b0 p) = false.
Proof. intros H. destruct H; auto. Qed.

Lemma reveal_inv_init : reveal_inv b0 [start].
Proof.
  constructor; auto; try lia.
  - intros p _ H H'. congruence.
  - repeat constructor.
  - left. now left.
  - intros m _ H H'. congruence.
  - destruct (cells_to_open b0 <=? 0) eqn:E1, (0 <? cells_to_open b0) eqn:E2;
      try reflexivity. lia.
Qed.

Lemma reveal_inv_turn (b : Board) (worklist rest : list Coord) (coord : Coord) :
  reveal_inv b worklist ->
  take d b worklist = Some (coord, rest) ->
  exists b' worklist',
    open_cells_body b coord rest = Ok (b', worklist') /\ reveal_inv b' worklist'.
Proof.
  intros I Ht. destruct (take_Some _ _ _ _ _ Ht) as (Hin & Hrest & Hwl).
  pose proof (inv_shaped _ _ I) as Hs.
  pose proof (inv_width _ _ I) as Hw. pose proof (inv_height _ _ I) as Hh.
  assert (Hfc : fill b0 start coord).
  { pose proof (inv_worklist _ _ I) as F. rewrite Forall_forall in F. auto. }
  assert (Hc0 : in_board b0 coord) by now apply fill_in_board.
  assert (Hc : in_board b coord) by now apply (in_board_dims b0 b).
  rewrite (open_cells_body_eq b Hs coord Hc).
  set (b1 := _open_cell b coord (cell_at b coord)).
  destruct (_open_cell_dims b coord) as [Hw1 Hh1]. fold b1 in Hw1, Hh1.
  assert (Hat : forall p, in_board b0 p ->
            cell_at b1 p = if Coord_eqb p coord then set_is_opened (cell_at b p) true
                           else cell_at b p).
  { intros p Hp. apply _open_cell_at; auto. now apply (in_board_dims b0 b). }
  assert (Hhole : forall p, in_board b0 p ->
            is_hole (cell_at b1 p) = is_hole (cell_at b0 p)).
  { intros p Hp. rewrite Hat by assumption. rewrite <- (inv_hole _ _ I p Hp).
    now destruct (Coord_eqb p coord). }
  assert (Hstep : forall p, in_board b0 p ->
            is_opened (cell_at b p) = true -> is_opened (cell_at b1 p) = true).
  { intros p Hp H. rewrite Hat by assumption. now destruct (Coord_eqb p coord). }
  assert (Hmono : forall p, in_board b0 p ->
            is_opened (cell_at b0 p) = true -> is_opened (cell_at b1 p) = true).
  { intros p Hp H. apply Hstep; [assumption|]. now apply (inv_mono _ _ I). }
  assert (Hopen : is_opened (cell_at b1 coord) = true).
  { rewrite Hat by assumption. now rewrite (proj2 (Coord_eqb_eq coord coord) eq_refl). }
  assert (Hnew : forall p, in_board b0 p -> is_opened (cell_at b1 p) = true ->
            p = coord \/ is_opened (cell_at b p) = true).
  { intros p Hp H. rewrite Hat in H by assumption.
    destruct (Coord_eqb p coord) eqn:E; [left; now apply Coord_eqb_eq|now right]. }
  set (pushed := if negb (holes_around (cell_at b coord) =? 0) then []
                 else filter (fun n => negb (is_hole (cell_at b1 n))
                                       && negb (is_opened (cell_at b1 n)))
                             (_get_adjacent_coords b coord)).
  assert (Hkeep : forall m, expanded b worklist m -> expanded b1 (rest ++ pushed) m).
  { intros m E Hz n Hn Hnh Hno. destruct (E Hz n Hn Hnh Hno) as [H|H].
    - left. apply Hstep; [|assumption]. eapply in_adjacent; eauto.
    - destruct (Hwl n H) as [->|H']; [now left|]. right. apply in_or_app. now left. }
  assert (Hcoord : expanded b1 (rest ++ pushed) coord).
  { intros Hz n Hn Hnh Hno. destruct (is_opened (cell_at b1 n)) eqn:E; [now left|].
    right. apply in_or_app. right. subst pushed.
    rewrite (inv_around _ _ I coord Hc0), Hz. simpl.
    apply filter_In. split.
    - now rewrite (_get_adjacent_coords_dims b0 b coord Hw Hh).
    - rewrite Hhole by (eapply in_adjacent; eauto). now rewrite Hnh, E. }
  exists b1, (rest ++ pushed). split; [reflexivity|]. constructor.
  - now apply _open_cell_shaped.
  - congruence.
  - congruence.
  - exact Hhole.
  - intros p Hp. rewrite Hat by assumption. rewrite <- (inv_around _ _ I p Hp).
    now destruct (Coord_eqb p coord).
  - exact Hmono.
  - intros p Hp H H'. destruct (Hnew p Hp H) as [->|Hb]; [assumption|].
    now apply (inv_sound _ _ I).
  - apply Forall_app. split.
    + pose proof (inv_worklist _ _ I) as F. rewrite Forall_forall in *. auto.
    + subst pushed. destruct (negb _) eqn:Ez; [constructor|].
      apply Forall_forall. intros n Hn. apply filter_In in Hn. destruct Hn as [Hn Hf].
      apply andb_true_iff in Hf. destruct Hf as [Hf1 Hf2].
      apply negb_true_iff in Hf1, Hf2. apply negb_false_iff, Z.eqb_eq in Ez.
      rewrite (_get_adjacent_coords_dims b0 b coord Hw Hh) in Hn.
      assert (Hn0 : in_board b0 n) by (eapply in_adjacent; eauto).
      apply (fill_step b0 start coord n); auto.
      * now rewrite <- (inv_around _ _ I coord Hc0).
      * now rewrite <- Hhole.
      * destruct (is_opened (cell_at b0 n)) eqn:E; [|reflexivity].
        rewrite (Hmono n Hn0 E) in Hf2. discriminate.
  - destruct (inv_start _ _ I) as [H|[H E]].
    + destruct (Hwl start H) as [->|H']; [right; now split|].
      left. apply in_or_app. now left.
    + right. split; [now apply Hstep|now apply Hkeep].
  - intros m Hm H H'. destruct (Hnew m Hm H) as [->|Hb]; [assumption|].
    apply Hkeep. now apply (inv_expanded _ _ I).
  - destruct (_open_cell_counter b Hs coord Hc) as [E _]. fold b1 in E.
    pose proof (inv_counter _ _ I). lia.
  - destruct (_open_cell_counter b Hs coord Hc) as [_ E]. fold b1 in E.
    pose proof (inv_le _ _ I). rewrite E.
    destruct (is_opened (cell_at b coord)); lia.
  - destruct (_open_cell_counter b Hs coord Hc) as [_ E]. fold b1 in E.
    pose proof (_open_cell_status b coord) as St. fold b1 in St.
    pose proof (inv_le _ _ I) as Hle. rewrite (inv_status _ _ I) in St.
    rewrite St, E. clear St E.
    destruct (is_opened (cell_at b coord)); [now rewrite Z.sub_0_r|].
    destruct (Z.eqb_spec (cells_to_open b - 1) 0);
      destruct (Z.leb_spec (cells_to_open b - 1) 0);
      destruct (Z.leb_spec (cells_to_open b) 0);
      destruct (Z.ltb_spec 0 (cells_to_open b0)); simpl; try reflexivity; lia.
Qed.

Lemma reveal_inv_loop (b : Board) (worklist : list Coord) :
  reveal_inv b worklist ->
  exists b', open_cells_with d b worklist = Ok b' /\ reveal_inv b' [].
Proof.
  apply (open_cells_with_turns d (fun b worklist r =>
           reveal_inv b worklist -> exists b', r = Ok b' /\ reveal_inv b' [])).
  - intros b1 I. eauto.
  - intros b1 wl coord rest b' wl' Ht Hb IH I.
    destruct (reveal_inv_turn _ _ _ _ I Ht) as (b2 & wl2 & Hb2 & I2).
    rewrite Hb in Hb2. injection Hb2 as <- <-. auto.
  - intros b1 wl coord rest err Ht Hb I.
    destruct (reveal_inv_turn _ _ _ _ I Ht) as (b2 & wl2 & Hb2 & I2). congruence.
Qed.

(** The reveal returns, and its result is described by [reveal_inv]. *)
Lemma open_cells_with_inv :
  exists b', open_cells_with d b0 [start] = Ok b' /\ reveal_inv b' [].
Proof. apply reveal_inv_loop, reveal_inv_init. Qed.

(** At the end the cells of [fill b0 start] are all opened. *)
Lemma reveal_inv_complete (b' : Board) (p : Coord) :
  reveal_inv b' [] -> fill b0 start p -> is_opened (cell_at b' p) = true.
Proof.
  intros I F. induction F as [|m n F IH Hz Hn Hnh Hno].
  - destruct (inv_start _ _ I) as [[]|[H _]]. exact H.
  - assert (E : expanded b' [] m).
    { destruct (fill_unopened m F) as [->|Hm].
      - destruct (inv_start _ _ I) as [[]|[_ E]]. exact E.
      - apply (inv_expanded _ _ I); auto. now apply fill_in_board. }
    destruct (E Hz n Hn Hnh Hno) as [H|[]]. exact H.
Qed.

Lemma reveal_inv_opened (b' : Board) (p : Coord) :
  reveal_inv b' [] -> in_board b0 p ->
  is_opened (cell_at b' p) = true
  <-> is_opened (cell_at b0 p) = true \/ fill b0 start p.
Proof.
  intros I Hp. split.
  - intros H. destruct (is_opened (cell_at b0 p)) eqn:E; [now left|].
    right. now apply (inv_sound _ _ I).
  - intros [H|H]; [now apply (inv_mono _ _ I)|now apply reveal_inv_complete].
Qed.

End Reveal.

(** ** The grid as a table of its cells *)

Lemma list_eq_map_range {A} (l : list A) (f : Z -> A) (n : Z) :
  length l = Z.to_nat n ->
  (forall i, 0 <= i < n -> nth_error l (Z.to_nat i) = Some (f i)) ->
  l = map f (range n).
Proof.
  intros Hlen H. apply nth_error_ext. intros k.
  unfold range. rewrite map_map, nth_error_map, nth_error_seq.
  destruct (Nat.ltb_spec k (Z.to_nat n)) as [Hk|Hk]; simpl.
  - rewrite <- (H (Z.of_nat k)) by lia. now rewrite Nat2Z.id.
  - apply nth_error_None. lia.
Qed.

Lemma board_table (b : Board) :
  shaped b ->
  board b = map (fun cy => map (fun cx => cell_at b (mkCoord cx cy)) (range (width b)))
                (range (height b)).
Proof.
  intros Hs. pose proof Hs as (Hw & Hh & Hl & Hrows).
  apply list_eq_map_range; [assumption|]. intros j Hj.
  destruct (getitem_in (board b) j) as (row & Hg & Hn); [lia|].
  rewrite Hn. f_equal.
  assert (Hrow : length row = Z.to_nat (width b)).
  { rewrite Forall_forall in Hrows. apply Hrows. eapply nth_error_In; eauto. }
  apply list_eq_map_range; [assumption|]. intros i Hi.
  destruct (getitem_in row i) as (cell & Hg' & Hn'); [lia|].
  rewrite Hn'. f_equal. unfold cell_at, at_, bind. simpl. now rewrite Hg, Hg'.
Qed.

Lemma total_map {A B} (f : B -> nat) (g : A -> B) (l : list A) :
  total f (map g l) = total (fun a => f (g a)) l.
Proof. unfold total. now rewrite map_map. Qed.

Lemma total_ext {A} (f g : A -> nat) (l : list A) :
  (forall a, In a l -> f a = g a) -> total f l = total g l.
Proof. intros H. unfold total. f_equal. now apply map_ext_in. Qed.

Lemma total_add {A} (f g : A -> nat) (l : list A) :
  total (fun a => (f a + g a)%nat) l = (total f l + total g l)%nat.
Proof. unfold total. induction l as [|a l IH]; simpl; lia. Qed.

Lemma total_zero {A} (f : A -> nat) (l : list A) :
  total f l = 0%nat <-> forall a, In a l -> f a = 0%nat.
Proof.
  unfold total. induction l as [|a l IH]; simpl.
  - split; [intros _ a []|reflexivity].
  - split.
    + intros H v [<-|Hv]; [lia|]. apply IH; [lia|assumption].
    + intros H. rewrite (H a) by now left. apply IH. intros v Hv. apply H. now right.
Qed.

(** A count over the grid is a sum over the coordinates of the board. *)
Lemma total_board (f : Cell -> nat) (b : Board) :
  shaped b ->
  total (total f) (board b)
  = total (fun cy => total (fun cx => f (cell_at b (mkCoord cx cy))) (range (width b)))
          (range (height b)).
Proof.
  intros Hs. rewrite (board_table b Hs) at 1. rewrite total_map.
  apply total_ext. intros cy _. now rewrite total_map.
Qed.

(** Two boards of the same size whose cells agree have equal counts, and
    equal grids. *)
Lemma total_board_ext (f g : Cell -> nat) (b b' : Board) :
  shaped b -> shaped b' -> width b' = width b -> height b' = height b ->
  (forall p, in_board b p -> f (cell_at b p) = g (cell_at b' p)) ->
  total (total f) (board b) = total (total g) (board b').
Proof.
  intros Hs Hs' Hw Hh H. rewrite !total_board by assumption. rewrite Hw, Hh.
  apply total_ext. intros cy Hy. apply total_ext. intros cx Hx.
  apply H. apply in_range in Hx, Hy. split; simpl; lia.
Qed.

Lemma board_ext (b b' : Board) :
  shaped b -> shaped b' -> width b' = width b -> height b' = height b ->
  (forall p, in_board b p -> cell_at b p = cell_at b' p) ->
  board b = board b'.
Proof.
  intros Hs Hs' Hw Hh H. rewrite (board_table b Hs), (board_table b' Hs'), Hw, Hh.
  apply map_ext_in. intros cy Hy. apply map_ext_in. intros cx Hx.
  apply H. apply in_range in Hx, Hy. split; simpl; lia.
Qed.

Lemma total_board_zero (f : Cell -> nat) (b : Board) :
  shaped b ->
  total (total f) (board b) = 0%nat <-> forall p, in_board b p -> f (cell_at b p) = 0%nat.
Proof.
  intros Hs. rewrite total_board by assumption. rewrite total_zero. split.
  - intros H [px py] [Hx Hy]. simpl in *.
    specialize (H py (proj2 (in_range _ _) Hy)). rewrite total_zero in H.
    apply (H px). now apply in_range.
  - intros H cy Hy. apply total_zero. intros cx Hx. apply H.
    apply in_range in Hx, Hy. split; simpl; lia.
Qed.

(** ** Clicks *)

Lemma click_on_with_hole (d : discipline) (b : Board) (coord : Coord) :
  shaped b -> in_board b coord -> is_hole (cell_at b coord) = true ->
  click_on_with d b coord = Ok (set_status b LOST).
Proof.
  intros Hs Hc Hh. unfold click_on_with. rewrite (at_in b Hs coord Hc). cbn [bind].
  now rewrite Hh.
Qed.

Lemma click_on_with_safe (d : discipline) (b : Board) (coord : Coord) :
  shaped b -> in_board b coord -> is_hole (cell_at b coord) = false ->
  exists b', click_on_with d b coord = Ok b' /\ reveal_inv b coord b' [].
Proof.
  intros Hs Hc Hh. unfold click_on_with. rewrite (at_in b Hs coord Hc). cbn [bind].
  rewrite Hh. now apply open_cells_with_inv.
Qed.

(** Two results of the reveal from the same board and start are the same
    board. *)
Lemma reveal_inv_unique (b0 : Board) (start : Coord) (b1 b2 : Board) :
  shaped b0 -> in_board b0 start ->
  reveal_inv b0 start b1 [] -> reveal_inv b0 start b2 [] -> b1 = b2.
Proof.
  intros Hs0 Hst I1 I2.
  assert (Hcells : forall p, in_board b1 p -> cell_at b1 p = cell_at b2 p).
  { intros p Hp. apply (in_board_dims b0 b1) in Hp;
      [|apply (inv_width _ _ _ _ I1)|apply (inv_height _ _ _ _ I1)].
    pose proof (inv_hole _ _ _ _ I1 p Hp). pose proof (inv_hole _ _ _ _ I2 p Hp).
    pose proof (inv_around _ _ _ _ I1 p Hp). pose proof (inv_around _ _ _ _ I2 p Hp).
    pose proof (reveal_inv_opened b0 start Hst b1 p I1 Hp) as O1.
    pose proof (reveal_inv_opened b0 start Hst b2 p I2 Hp) as O2.
    assert (is_opened (cell_at b1 p) = is_opened (cell_at b2 p)).
    { destruct (is_opened (cell_at b1 p)), (is_opened (cell_at b2 p)); try reflexivity.
      - symmetry. apply O2, O1. reflexivity.
      - apply O1, O2. reflexivity. }
    destruct (cell_at b1 p), (cell_at b2 p); simpl in *. congruence. }
  assert (Hb : board b1 = board b2).
  { pose proof (inv_shaped _ _ _ _ I1). pose proof (inv_shaped _ _ _ _ I2).
    apply board_ext; auto.
    - rewrite (inv_width _ _ _ _ I1). apply (inv_width _ _ _ _ I2).
    - rewrite (inv_height _ _ _ _ I1). apply (inv_height _ _ _ _ I2). }
  assert (Hu : unopened b1 = unopened b2) by (unfold unopened; now rewrite Hb).
  assert (Hc : cells_to_open b1 = cells_to_open b2).
  { pose proof (inv_counter _ _ _ _ I1). pose proof (inv_counter _ _ _ _ I2). lia. }
  pose proof (inv_status _ _ _ _ I1) as S1. pose proof (inv_status _ _ _ _ I2) as S2.
  rewrite Hc in S1. rewrite <- S2 in S1.
  pose proof (inv_width _ _ _ _ I1). pose proof (inv_width _ _ _ _ I2).
  pose proof (inv_height _ _ _ _ I1). pose proof (inv_height _ _ _ _ I2).
  destruct b1, b2; simpl in *. congruence.
Qed.

Lemma fill_safe (b : Board) (start p : Coord) :
  is_hole (cell_at b start) = false -> fill b start p -> is_hole (cell_at b p) = false.
Proof. intros H F. destruct F; assumption. Qed.

Lemma fill_region (b : Board) (start p : Coord) : fill b start p -> region b start p.
Proof. intros F. induction F; [constructor|eapply region_step; eauto]. Qed.

Lemma region_in_board (b : Board) (start p : Coord) :
  in_board b start -> region b start p -> in_board b p.
Proof. intros H R. destruct R; [assumption|]. eapply in_adjacent; eauto. Qed.

Lemma region_safe (b : Board) (start p : Coord) :
  is_hole (cell_at b start) = false -> region b start p -> is_hole (cell_at b p) = false.
Proof. intros H R. destruct R; assumption. Qed.

(** On a board of a game the cells of the region that are not yet opened
    are those the reveal reaches. *)
Lemma region_fill (b : Board) (start p : Coord) :
  board_ok b -> in_board b start -> region b start p ->
  is_opened (cell_at b p) = true \/ fill b start p.
Proof.
  intros Hok Hst R. induction R as [|m n R IH Hz Hn Hnh].
  - right. constructor.
  - destruct (is_opened (cell_at b n)) eqn:En; [now left|]. right.
    destruct IH as [Hm|Hm].
    + assert (is_opened (cell_at b n) = true)
        by (apply (ok_filled b Hok m n); auto; eapply region_in_board; eauto).
      congruence.
    + eapply fill_step; eauto.
Qed.

(** The three counts of a board whose holes are not opened. *)
Lemma unopened_split (b : Board) :
  shaped b ->
  (forall p, in_board b p -> is_hole (cell_at b p) = true -> is_opened (cell_at b p) = false) ->
  unopened b = (holes_count b + remaining_safe_cells b)%nat.
Proof.
  intros Hs H. unfold unopened, holes_count, remaining_safe_cells.
  rewrite !total_board by assumption. rewrite <- total_add.
  apply total_ext. intros cy Hy. rewrite <- total_add.
  apply total_ext. intros cx Hx.
  assert (Hp : in_board b (mkCoord cx cy))
    by (apply in_range in Hx, Hy; split; simpl; lia).
  specialize (H _ Hp). unfold unopened_cell, hole_cell, safe_unopened_cell in *.
  destruct (is_hole _); [now rewrite H|reflexivity].
Qed.

Lemma opened_unopened (b : Board) :
  shaped b -> Z.of_nat (opened_count b) + Z.of_nat (unopened b) = width b * height b.
Proof.
  intros Hs. pose proof Hs as (Hw & Hh & _).
  unfold opened_count, unopened. rewrite <- Nat2Z.inj_add.
  rewrite !total_board by assumption. rewrite <- total_add.
  rewrite (total_ext _ (fun _ => Z.to_nat (width b))).
  - unfold total. rewrite map_const, length_range.
    assert (E : forall n k, list_sum (repeat k n) = (n * k)%nat)
      by (induction n; simpl; intros; [reflexivity|rewrite IHn; lia]).
    rewrite E. lia.
  - intros cy _. rewrite <- total_add.
    rewrite (total_ext _ (fun _ => 1%nat)).
    + unfold total. rewrite map_const, length_range.
      assert (E : forall n, list_sum (repeat 1%nat n) = n)
        by (induction n; simpl; [reflexivity|rewrite IHn; lia]).
      apply E.
    + intros cx _. unfold opened_cell, unopened_cell. now destruct (is_opened _).
Qed.

Lemma holes_count_reveal (b b' : Board) (start : Coord) :
  shaped b -> reveal_inv b start b' [] -> holes_count b' = holes_count b.
Proof.
  intros Hs I. unfold holes_count.
  pose proof (inv_width _ _ _ _ I) as Hw. pose proof (inv_height _ _ _ _ I) as Hh.
  apply total_board_ext; auto.
  - apply (inv_shaped _ _ _ _ I).
  - intros p Hp. unfold hole_cell.
    rewrite (inv_hole _ _ _ _ I); [reflexivity|]. now apply (in_board_dims b b') in Hp.
Qed.

(** A finished reveal on a board of a game leaves a board of a game. *)
Lemma board_ok_reveal (b b' : Board) (start : Coord) :
  board_ok b -> in_board b start -> is_hole (cell_at b start) = false ->
  reveal_inv b start b' [] -> board_ok b'.
Proof.
  intros Hok Hst Hsafe I. pose proof (ok_shaped b Hok) as Hs.
  pose proof (inv_shaped _ _ _ _ I) as Hs'.
  pose proof (inv_width _ _ _ _ I) as Hw. pose proof (inv_height _ _ _ _ I) as Hh.
  assert (Hclosed : forall p, in_board b' p ->
            is_hole (cell_at b' p) = true -> is_opened (cell_at b' p) = false).
  { intros p Hp Hhole. apply (in_board_dims b b') in Hp; auto.
    rewrite (inv_hole _ _ _ _ I p Hp) in Hhole.
    destruct (is_opened (cell_at b' p)) eqn:E; [|reflexivity].
    pose proof (inv_sound _ _ _ _ I p Hp E (ok_holes_closed b Hok p Hp Hhole)) as F.
    apply (fill_safe b start p Hsafe) in F. congruence. }
  assert (Hcount : cells_to_open b' = Z.of_nat (remaining_safe_cells b')).
  { pose proof (inv_counter _ _ _ _ I) as E.
    rewrite (unopened_split b Hs (ok_holes_closed b Hok)) in E.
    rewrite (unopened_split b' Hs' Hclosed) in E.
    rewrite (holes_count_reveal b b' start Hs I) in E.
    pose proof (ok_counter b Hok). lia. }
  constructor; auto.
  - intros m n Hm Hom Hz Hn Hnh. apply (in_board_dims b b') in Hm; auto.
    rewrite (_get_adjacent_coords_dims b b' m Hw Hh) in Hn.
    assert (Hn' : in_board b n) by (eapply in_adjacent; eauto).
    rewrite (inv_hole _ _ _ _ I n Hn') in Hnh.
    rewrite (inv_around _ _ _ _ I m Hm) in Hz.
    destruct (is_opened (cell_at b m)) eqn:Em.
    + apply (inv_mono _ _ _ _ I); auto. apply (ok_filled b Hok m n); auto.
    + destruct (is_opened (cell_at b n)) eqn:En; [now apply (inv_mono _ _ _ _ I)|].
      apply (reveal_inv_complete b start Hst b' n I).
      apply (fill_step b start m n); auto. now apply (inv_sound _ _ _ _ I).
  - intros St. rewrite (inv_status _ _ _ _ I) in St.
    destruct (Z.leb_spec (cells_to_open b') 0); [|assumption].
    destruct (Z.ltb_spec 0 (cells_to_open b)); simpl in St; [discriminate|].
    pose proof (ok_in_game b Hok St). lia.
  - intros St. rewrite (inv_status _ _ _ _ I) in St.
    pose proof (inv_le _ _ _ _ I).
    destruct (Z.leb_spec (cells_to_open b') 0); [lia|].
    simpl in St. pose proof (ok_win b Hok St). lia.
Qed.

Lemma board_ok_lost (b : Board) : board_ok b -> board_ok (set_status b LOST).
Proof.
  intros Hok. destruct Hok. constructor; auto; simpl; intros; discriminate.
Qed.

(** A click on the board returns. *)
Lemma click_on_with_returns (d : discipline) (b : Board) (coord : Coord) :
  shaped b -> in_board b coord -> exists b', click_on_with d b coord = Ok b'.
Proof.
  intros Hs Hc. destruct (is_hole (cell_at b coord)) eqn:Eh.
  - rewrite (click_on_with_hole d b coord Hs Hc Eh). eauto.
  - destruct (click_on_with_safe d b coord Hs Hc Eh) as (b' & H & _). eauto.
Qed.

(** ** The hole generator *)

Lemma remove_nth_length {A} (l : list A) (k : nat) :
  (k < length l)%nat -> S (length (remove_nth l k)) = length l.
Proof.
  revert k. induction l as [|a l IH]; intros [|k] H; simpl in *; try lia.
  rewrite IH; lia.
Qed.

Lemma remove_nth_NoDup {A} (l : list A) (k : nat) (a : A) :
  NoDup l -> (k < length l)%nat ->
  NoDup (remove_nth l k) /\ ~ In (nth k l a) (remove_nth l k).
Proof.
  intros H. revert k. induction H as [|v l Hv Hl IH]; intros [|k] Hk; simpl in *; try lia.
  - auto.
  - destruct (IH k ltac:(lia)) as [IH1 IH2]. split.
    + constructor; [|assumption]. intros Hin. apply Hv. eapply remove_nth_In; eauto.
    + intros [E|Hin]; [|contradiction]. apply Hv. rewrite E. apply nth_In. lia.
Qed.

Section Draw.

Context {A : Type}.
Variable r : HolesGenerator.rng.

Lemma draw_length (k i : nat) (pool : list A) :
  (k <= length pool)%nat -> length (HolesGenerator.draw r i k pool) = k.
Proof.
  revert i pool. induction k as [|k IH]; intros i pool Hk; [reflexivity|].
  destruct pool as [|a pool]; [simpl in Hk; lia|].
  assert (Hj : (r i mod length (a :: pool) < length (a :: pool))%nat)
    by (apply Nat.mod_upper_bound; discriminate).
  pose proof (remove_nth_length (a :: pool) _ Hj) as Hr.
  cbn [HolesGenerator.draw]. cbn [length] in *. f_equal. apply IH. lia.
Qed.

Lemma draw_In (k i : nat) (pool : list A) (v : A) :
  In v (HolesGenerator.draw r i k pool) -> In v pool.
Proof.
  revert i pool. induction k as [|k IH]; intros i pool; [intros []|].
  destruct pool as [|a pool]; [intros []|].
  cbn [HolesGenerator.draw].
  assert (Hj : (r i mod length (a :: pool) < length (a :: pool))%nat)
    by (apply Nat.mod_upper_bound; discriminate).
  intros [<-|H].
  - now apply nth_In.
  - apply IH in H. eapply remove_nth_In; eauto.
Qed.

Lemma draw_NoDup (k i : nat) (pool : list A) :
  NoDup pool -> NoDup (HolesGenerator.draw r i k pool).
Proof.
  revert i pool. induction k as [|k IH]; intros i pool Hpool; [constructor|].
  destruct pool as [|a pool]; [constructor|].
  cbn [HolesGenerator.draw].
  assert (Hj : (r i mod length (a :: pool) < length (a :: pool))%nat)
    by (apply Nat.mod_upper_bound; discriminate).
  destruct (remove_nth_NoDup (a :: pool) _ a Hpool Hj) as [Hnd Hnot].
  constructor; [|now apply IH].
  intros H. apply draw_In in H. contradiction.
Qed.

End Draw.

Lemma available_places_filter (g : HolesGenerator.t) (skip_cell : Coord) :
  HolesGenerator.available_places g skip_cell
  = filter (fun coord => negb (Coord_eqb coord skip_cell)) (places g).
Proof.
  unfold HolesGenerator.available_places, places.
  induction (range (HolesGenerator.width g)) as [|cx l IH]; [reflexivity|].
  cbn [flat_map]. rewrite filter_app, IH. f_equal. clear IH.
  induction (range (HolesGenerator.height g)) as [|cy l' IH']; [reflexivity|].
  cbn [flat_map map filter]. rewrite IH'.
  destruct (Coord_eqb (mkCoord cx cy) skip_cell); reflexivity.
Qed.

Lemma in_places (g : HolesGenerator.t) (p : Coord) :
  In p (places g)
  <-> 0 <= x p < HolesGenerator.width g /\ 0 <= y p < HolesGenerator.height g.
Proof.
  unfold places. rewrite in_flat_map. split.
  - intros (cx & Hx & H). apply in_map_iff in H. destruct H as (cy & <- & Hy).
    apply in_range in Hx, Hy. simpl. lia.
  - intros [Hx Hy]. exists (x p). split; [now apply in_range|].
    apply in_map_iff. exists (y p). split; [now destruct p|now apply in_range].
Qed.

Lemma NoDup_flat_map {A B} (f : A -> list B) (l : list A) :
  NoDup l -> (forall a, In a l -> NoDup (f a)) ->
  (forall a a' v, In a l -> In a' l -> In v (f a) -> In v (f a') -> a = a') ->
  NoDup (flat_map f l).
Proof.
  intros Hl Hf Hdisj. induction Hl as [|a l Ha Hl IH]; [constructor|].
  cbn [flat_map]. apply NoDup_app.
  - apply Hf. now left.
  - apply IH.
    + intros a' Ha'. apply Hf. now right.
    + intros a1 a2 v H1 H2. apply Hdisj; now right.
  - intros v Hv Hv'. apply in_flat_map in Hv'. destruct Hv' as (a' & Ha' & Hv').
    assert (a = a') by (apply (Hdisj a a' v); auto; [now left|now right]).
    subst a'. contradiction.
Qed.

Lemma NoDup_places (g : HolesGenerator.t) : NoDup (places g).
Proof.
  unfold places. apply NoDup_flat_map.
  - apply NoDup_range.
  - intros cx _. apply Finite.Injective_map_NoDup; [|apply NoDup_range].
    intros a b H. now injection H.
  - intros a a' v _ _ H H'. apply in_map_iff in H, H'.
    destruct H as (? & <- & _). destruct H' as (? & E & _). now injection E.
Qed.

Lemma length_places (g : HolesGenerator.t) :
  length (places g)
  = (Z.to_nat (HolesGenerator.width g) * Z.to_nat (HolesGenerator.height g))%nat.
Proof.
  unfold places. rewrite <- (length_range (HolesGenerator.width g)).
  induction (range (HolesGenerator.width g)) as [|cx l IH]; [reflexivity|].
  cbn [flat_map length]. rewrite length_app, IH, length_map, length_range. lia.
Qed.

Lemma length_filter_NoDup (l : list Coord) (skip_cell : Coord) :
  NoDup l ->
  (length l <= S (length (filter (fun coord => negb (Coord_eqb coord skip_cell)) l)))%nat.
Proof.
  intros H. induction H as [|a l Ha Hl IH]; [simpl; lia|].
  cbn [filter]. destruct (Coord_eqb a skip_cell) eqn:E; simpl; [|lia].
  apply Coord_eqb_eq in E. subst a.
  assert (F : filter (fun coord => negb (Coord_eqb coord skip_cell)) l = l).
  { apply forallb_filter_id. apply forallb_forall. intros c Hc.
    destruct (Coord_eqb c skip_cell) eqn:E; [|reflexivity].
    apply Coord_eqb_eq in E. subst c. contradiction. }
  rewrite F. lia.
Qed.

(** [generate_holes] returns when the number of holes is between 0 and
    one less than the number of places; what it returns is a list of
    [holes_num] distinct places, none of them the skipped one. *)
Lemma generate_holes_returns (g : HolesGenerator.t) (r : HolesGenerator.rng)
    (skip_cell : Coord) :
  0 <= HolesGenerator.holes_num g
       < Z.max 0 (HolesGenerator.width g) * Z.max 0 (HolesGenerator.height g) ->
  exists holes, HolesGenerator.generate_holes g r skip_cell = Ok holes.
Proof.
  intros H. unfold HolesGenerator.generate_holes, HolesGenerator.sample.
  pose proof (length_filter_NoDup (places g) skip_cell (NoDup_places g)) as L.
  rewrite <- available_places_filter, length_places in L.
  destruct (Z.leb_spec 0 (HolesGenerator.holes_num g)); [|lia].
  destruct (Z.leb_spec (HolesGenerator.holes_num g)
              (Z.of_nat (length (HolesGenerator.available_places g skip_cell))));
    simpl; [eauto|].
  exfalso. nia.
Qed.

Lemma generate_holes_spec (g : HolesGenerator.t) (r : HolesGenerator.rng)
    (skip_cell : Coord) (holes : list Coord) :
  HolesGenerator.generate_holes g r skip_cell = Ok holes ->
  Z.of_nat (length holes) = HolesGenerator.holes_num g
  /\ NoDup holes
  /\ forall p, In p holes ->
       0 <= x p < HolesGenerator.width g /\ 0 <= y p < HolesGenerator.height g
       /\ p <> skip_cell.
Proof.
  unfold HolesGenerator.generate_holes, HolesGenerator.sample.
  destruct (Z.leb_spec 0 (HolesGenerator.holes_num g)); [|discriminate].
  destruct (Z.leb_spec (HolesGenerator.holes_num g)
              (Z.of_nat (length (HolesGenerator.available_places g skip_cell))));
    [|discriminate].
  simpl. intros E. injection E as <-. repeat split.
  - rewrite draw_length by lia. lia.
  - apply draw_NoDup. rewrite available_places_filter.
    apply NoDup_filter, NoDup_places.
  - apply draw_In in H1. rewrite available_places_filter in H1.
    apply filter_In in H1. destruct H1 as [H1 _]. apply in_places in H1. lia.
  - apply draw_In in H1. rewrite available_places_filter in H1.
    apply filter_In in H1. destruct H1 as [H1 _]. apply in_places in H1. lia.
  - apply draw_In in H1. rewrite available_places_filter in H1.
    apply filter_In in H1. destruct H1 as [H1 _]. apply in_places in H1. lia.
  - apply draw_In in H1. rewrite available_places_filter in H1.
    apply filter_In in H1. destruct H1 as [H1 _]. apply in_places in H1. lia.
  - intros ->. apply draw_In in H1. rewrite available_places_filter in H1.
    apply filter_In in H1. destruct H1 as [_ H1].
    rewrite (proj2 (Coord_eqb_eq skip_cell skip_cell) eq_refl) in H1. discriminate.
Qed.

(** ** Loops with an invariant *)

Lemma for_each_inv {A S} (I : list A -> S -> Prop) (body : S -> A -> result S)
    (l : list A) (s : S) :
  I [] s ->
  (forall done a rest s, l = done ++ a :: rest -> I done s ->
     exists s', body s a = Ok s' /\ I (done ++ [a]) s') ->
  exists s', for_each l s body = Ok s' /\ I l s'.
Proof.
  intros H0 Hstep.
  assert (G : forall rest done s, I done s -> l = done ++ rest ->
            exists s', for_each rest s body = Ok s' /\ I l s').
  { induction rest as [|a rest IH]; intros done s1 Hd El.
    - rewrite app_nil_r in El. subst done. simpl. eauto.
    - destruct (Hstep done a rest s1 El Hd) as (s2 & E & H2).
      cbn [for_each]. rewrite E. cbn [bind].
      apply (IH (done ++ [a]) s2 H2). now rewrite <- app_assoc. }
  apply (G l [] s H0). reflexivity.
Qed.

Lemma map_result_at (b : Board) (l : list Coord) :
  shaped b -> Forall (in_board b) l -> map_result (at_ b) l = Ok (map (cell_at b) l).
Proof.
  intros Hs H. induction H as [|a l Ha Hl IH]; [reflexivity|].
  cbn [map_result map]. rewrite (at_in b Hs a Ha). cbn [bind]. rewrite IH. reflexivity.
Qed.

Lemma _get_adjacent_cells_eq (b : Board) (coord : Coord) :
  shaped b ->
  _get_adjacent_cells b coord = Ok (map (cell_at b) (_get_adjacent_coords b coord)).
Proof.
  intros Hs. apply map_result_at; [assumption|].
  apply Forall_forall. intros n Hn. eapply in_adjacent; eauto.
Qed.

Lemma sum_shift (l : list Z) (a : Z) : fold_left Z.add l a = a + sum l.
Proof.
  unfold sum. revert a. induction l as [|v l IH]; intros a; simpl; [lia|].
  rewrite (IH (a + v)), (IH v). lia.
Qed.

Lemma sum_holes {A} (f : A -> Cell) (l : list A) :
  sum (map (fun adjacent_cell => int_of_bool (is_hole adjacent_cell)) (map f l))
  = Z.of_nat (length (filter (fun n => is_hole (f n)) l)).
Proof.
  induction l as [|a l IH]; [reflexivity|].
  cbn [map filter]. unfold sum in *. cbn [fold_left]. rewrite sum_shift.
  unfold sum. rewrite IH. destruct (is_hole (f a)); simpl length; simpl int_of_bool; lia.
Qed.

(** ** Marking the holes *)

Section Mark_holes.

Variable b0 : Board.
Hypothesis Hshaped0 : shaped b0.
Hypothesis Hfresh : forall p, in_board b0 p -> is_hole (cell_at b0 p) = false.

Record marked (done : list Coord) (b : Board) : Prop := {
  marked_shaped : shaped b;
  marked_width : width b = width b0;
  marked_height : height b = height b0;
  marked_status : status b = status b0;
  marked_counter : cells_to_open b = cells_to_open b0;
  marked_cell : forall p, in_board b0 p ->
    cell_at b p = if existsb (Coord_eqb p) done then set_is_hole (cell_at b0 p) true
                  else cell_at b0 p;
  marked_count : holes_count b = (holes_count b0 + length done)%nat
}.

Lemma mark_holes_marked (holes : list Coord) :
  NoDup holes -> Forall (in_board b0) holes ->
  exists b, mark_holes b0 holes = Ok b /\ marked holes b.
Proof.
  intros Hnd Hin. unfold mark_holes. apply for_each_inv.
  - constructor; auto.
  - intros done a rest b El M.
    assert (Ha0 : in_board b0 a).
    { rewrite Forall_forall in Hin. apply Hin. rewrite El. apply in_elt. }
    assert (Hnew : ~ In a done).
    { rewrite El in Hnd. apply NoDup_remove_2 in Hnd. intros H. apply Hnd.
      apply in_or_app. now left. }
    pose proof (marked_shaped _ _ M) as Hs.
    pose proof (marked_width _ _ M) as Hw. pose proof (marked_height _ _ M) as Hh.
    assert (Hab : in_board b a) by now apply (in_board_dims b0 b).
    assert (Hcell : cell_at b a = cell_at b0 a).
    { rewrite (marked_cell _ _ M a Ha0).
      destruct (existsb (Coord_eqb a) done) eqn:E; [|reflexivity].
      apply existsb_exists in E. destruct E as (c & Hc & E).
      apply Coord_eqb_eq in E. subst c. contradiction. }
    rewrite (at_in b Hs a Hab). cbn [bind]. eexists. split; [reflexivity|].
    constructor.
    + now apply shaped_store.
    + unfold store. destruct (getitem _ _); simpl; assumption.
    + unfold store. destruct (getitem _ _); simpl; assumption.
    + unfold store. destruct (getitem _ _); simpl; apply (marked_status _ _ M).
    + unfold store. destruct (getitem _ _); simpl; apply (marked_counter _ _ M).
    + intros p Hp. rewrite existsb_app. cbn [existsb]. rewrite orb_false_r.
      assert (Hpb : in_board b p) by now apply (in_board_dims b0 b).
      destruct (Coord_eqb p a) eqn:E.
      * apply Coord_eqb_eq in E. subst p. rewrite orb_true_r.
        rewrite cell_at_store_eq by assumption. now rewrite Hcell.
      * rewrite orb_false_r. rewrite cell_at_store_ne; auto.
        -- now apply (marked_cell _ _ M).
        -- intros ->. rewrite (proj2 (Coord_eqb_eq p p) eq_refl) in E. discriminate.
    + pose proof (total_store hole_cell b a (cell_at b a)
                    (set_is_hole (cell_at b a) true) (at_in b Hs a Hab)) as E.
      fold (holes_count (store b a (set_is_hole (cell_at b a) true))) in E.
      fold (holes_count b) in E. rewrite (marked_count _ _ M) in E.
      rewrite length_app. simpl length.
      assert (H1 : hole_cell (cell_at b a) = 0%nat)
        by (unfold hole_cell; now rewrite Hcell, (Hfresh a Ha0)).
      assert (H2 : hole_cell (set_is_hole (cell_at b a) true) = 1%nat) by reflexivity.
      lia.
Qed.

End Mark_holes.

(** ** Counting the holes around *)

Lemma holes_among_neighbours_ext (b b' : Board) (coord : Coord) :
  width b' = width b -> height b' = height b ->
  (forall p, in_board b p -> is_hole (cell_at b' p) = is_hole (cell_at b p)) ->
  holes_among_neighbours b' coord = holes_among_neighbours b coord.
Proof.
  intros Hw Hh H. unfold holes_among_neighbours.
  rewrite (_get_adjacent_coords_dims b b' coord Hw Hh). f_equal. f_equal.
  apply filter_ext_in. intros n Hn. apply H. eapply in_adjacent; eauto.
Qed.

Section Adjacent.

Variable b0 : Board.
Hypothesis Hshaped0 : shaped b0.

(** The state of [_generate_holes_adjacent] when the coordinates of
    [done] have been visited. *)
Record counted (done : Coord -> Prop) (b : Board) : Prop := {
  counted_shaped : shaped b;
  counted_width : width b = width b0;
  counted_height : height b = height b0;
  counted_status : status b = status b0;
  counted_counter : cells_to_open b = cells_to_open b0;
  counted_hole : forall p, in_board b0 p ->
    is_hole (cell_at b p) = is_hole (cell_at b0 p);
  counted_opened : forall p, in_board b0 p ->
    is_opened (cell_at b p) = is_opened (cell_at b0 p);
  counted_holes : forall p, in_board b0 p -> is_hole (cell_at b0 p) = true ->
    holes_around (cell_at b p) = holes_around (cell_at b0 p);
  counted_safe : forall p, in_board b0 p -> is_hole (cell_at b0 p) = false -> done p ->
    holes_around (cell_at b p) = holes_among_neighbours b0 p
}.

Lemma counted_weaken (done done' : Coord -> Prop) (b : Board) :
  (forall p, in_board b0 p -> done' p -> done p) -> counted done b -> counted done' b.
Proof. intros H C. destruct C. constructor; auto. Qed.

Lemma count_at_counted (done : Coord -> Prop) (b : Board) (coord : Coord) :
  counted done b -> in_board b0 coord ->
  exists b', count_at b coord = Ok b' /\ counted (fun p => done p \/ p = coord) b'.
Proof.
  intros C Hc0. pose proof (counted_shaped _ _ C) as Hs.
  pose proof (counted_width _ _ C) as Hw. pose proof (counted_height _ _ C) as Hh.
  assert (Hc : in_board b coord) by now apply (in_board_dims b0 b).
  unfold count_at. rewrite (at_in b Hs coord Hc). cbn [bind].
  destruct (is_hole (cell_at b coord)) eqn:Eh.
  - exists b. split; [reflexivity|]. destruct C. constructor; auto.
    intros p Hp Hsafe [Hd| ->]; auto.
    rewrite counted_hole0 in Eh by assumption. congruence.
  - rewrite (_get_adjacent_cells_eq b coord Hs). cbn [bind]. rewrite sum_holes.
    fold (holes_among_neighbours b coord).
    rewrite (holes_among_neighbours_ext b0 b coord Hw Hh (counted_hole _ _ C)).
    eexists. split; [reflexivity|].
    assert (Hat : forall p, in_board b0 p ->
              cell_at (store b coord
                         (set_holes_around (cell_at b coord)
                            (holes_among_neighbours b0 coord))) p
              = if Coord_eqb p coord
                then set_holes_around (cell_at b coord) (holes_among_neighbours b0 coord)
                else cell_at b p).
    { intros p Hp. assert (Hpb : in_board b p) by now apply (in_board_dims b0 b).
      destruct (Coord_eqb p coord) eqn:E.
      - apply Coord_eqb_eq in E. subst p. now apply cell_at_store_eq.
      - apply cell_at_store_ne; auto.
        intros ->. rewrite (proj2 (Coord_eqb_eq p p) eq_refl) in E. discriminate. }
    constructor.
    + now apply shaped_store.
    + unfold store. destruct (getitem _ _); simpl; assumption.
    + unfold store. destruct (getitem _ _); simpl; assumption.
    + unfold store. destruct (getitem _ _); simpl; apply (counted_status _ _ C).
    + unfold store. destruct (getitem _ _); simpl; apply (counted_counter _ _ C).
    + intros p Hp. rewrite Hat by assumption. destruct (Coord_eqb p coord) eqn:E.
      * apply Coord_eqb_eq in E. subst p. simpl. now apply (counted_hole _ _ C).
      * now apply (counted_hole _ _ C).
    + intros p Hp. rewrite Hat by assumption. destruct (Coord_eqb p coord) eqn:E.
      * apply Coord_eqb_eq in E. subst p. simpl. now apply (counted_opened _ _ C).
      * now apply (counted_opened _ _ C).
    + intros p Hp Hhole. rewrite Hat by assumption.
      destruct (Coord_eqb p coord) eqn:E.
      * apply Coord_eqb_eq in E. subst p.
        rewrite (counted_hole _ _ C coord Hc0) in Eh. congruence.
      * now apply (counted_holes _ _ C).
    + intros p Hp Hsafe Hd. rewrite Hat by assumption.
      destruct (Coord_eqb p coord) eqn:E.
      * apply Coord_eqb_eq in E. now subst p.
      * destruct Hd as [Hd| ->].
        -- now apply (counted_safe _ _ C).
        -- rewrite (proj2 (Coord_eqb_eq coord coord) eq_refl) in E. discriminate.
Qed.

Lemma _generate_holes_adjacent_counted :
  exists b, _generate_holes_adjacent b0 = Ok b /\ counted (fun _ => True) b.
Proof.
  unfold _generate_holes_adjacent.
  destruct (for_each_inv
              (fun rows b => counted (fun p => In (y p) rows) b)
              (fun b cy => for_each (range (width b)) b
                             (fun b cx => count_at b (mkCoord cx cy)))
              (range (height b0)) b0) as (b & E & C).
  - constructor; auto. intros p _ _ [].
  - intros rows cy rest b El C.
    assert (Hy : 0 <= cy < height b0).
    { apply in_range. rewrite El. apply in_elt. }
    rewrite (counted_width _ _ C).
    destruct (for_each_inv
                (fun cols b => counted (fun p => In (y p) rows
                                                 \/ (y p = cy /\ In (x p) cols)) b)
                (fun b cx => count_at b (mkCoord cx cy))
                (range (width b0)) b) as (b' & E' & C').
    + eapply counted_weaken; [|exact C]. intros p _ [H|[_ []]]. exact H.
    + intros cols cx rest' b1 El' C1.
      assert (Hx : 0 <= cx < width b0).
      { apply in_range. rewrite El'. apply in_elt. }
      destruct (count_at_counted _ b1 (mkCoord cx cy) C1) as (b2 & E2 & C2).
      { split; simpl; lia. }
      exists b2. split; [assumption|].
      eapply counted_weaken; [|exact C2]. intros p _ [H|[Hpy Hpx]]; [now left; left|].
      apply in_app_or in Hpx. destruct Hpx as [Hpx|[Hpx|[]]].
      * left. right. now split.
      * right. destruct p; simpl in *. now subst.
    + exists b'. split; [assumption|].
      eapply counted_weaken; [|exact C']. intros p [Hpx _] Hp.
      apply in_app_or in Hp. destruct Hp as [Hp|[Hp|[]]]; [now left|].
      right. split; [now symmetry|]. now apply in_range.
  - exists b. split; [assumption|].
    eapply counted_weaken; [|exact C]. intros p [_ Hpy] _. now apply in_range.
Qed.

End Adjacent.

(** ** Construction *)

Lemma empty_board_shaped (size holes_num : Z) :
  0 <= size -> shaped (empty_board size holes_num).
Proof.
  intros H. unfold shaped. simpl. repeat split; try assumption.
  - now rewrite length_map, length_range.
  - apply Forall_forall. intros row Hrow. apply in_map_iff in Hrow.
    destruct Hrow as (? & <- & _). now rewrite length_map, length_range.
Qed.

Lemma empty_board_cell (size holes_num : Z) (p : Coord) :
  0 <= size -> in_board (empty_board size holes_num) p ->
  cell_at (empty_board size holes_num) p = Cell_init false.
Proof.
  intros Hsize Hp. pose proof (empty_board_shaped size holes_num Hsize) as Hs.
  pose proof (at_in _ Hs p Hp) as E. destruct (at_Ok _ _ _ E) as (row & Hr & Hc).
  destruct (getitem_Ok _ _ _ Hr) as (k & _ & Hk). apply nth_error_In in Hk.
  simpl in Hk. apply in_map_iff in Hk. destruct Hk as (? & <- & _).
  destruct (getitem_Ok _ _ _ Hc) as (k' & _ & Hk'). apply nth_error_In in Hk'.
  apply in_map_iff in Hk'. destruct Hk' as (? & E' & _). now symmetry.
Qed.

Lemma existsb_Coord_eqb (p : Coord) (l : list Coord) :
  existsb (Coord_eqb p) l = true <-> In p l.
Proof.
  rewrite existsb_exists. split.
  - intros (c & Hc & E). apply Coord_eqb_eq in E. now subst.
  - intros H. exists p. split; [assumption|]. now apply Coord_eqb_eq.
Qed.

Lemma _generate_board_generated (size holes_num : Z) (r : HolesGenerator.rng)
    (first_coord : Coord) :
  0 <= holes_num < size * size -> 0 <= size ->
  exists holes b,
    HolesGenerator.generate_holes (HolesGenerator.init size holes_num) r first_coord
    = Ok holes
    /\ _generate_board (empty_board size holes_num) (HolesGenerator.init size holes_num)
         r first_coord = Ok b
    /\ generated size holes_num holes b.
Proof.
  intros Hn Hsize. set (g := HolesGenerator.init size holes_num).
  destruct (generate_holes_returns g r first_coord) as (holes & Eg).
  { simpl. rewrite Z.max_r by assumption. lia. }
  destruct (generate_holes_spec g r first_coord holes Eg) as (Hlen & Hnd & Hin).
  simpl in Hlen, Hin.
  pose proof (empty_board_shaped size holes_num Hsize) as Hs0.
  destruct (mark_holes_marked (empty_board size holes_num) Hs0) with (holes := holes)
    as (bm & Em & M).
  { intros p Hp. now rewrite empty_board_cell. }
  { assumption. }
  { apply Forall_forall. intros p Hp. destruct (Hin p Hp) as (Hx & Hy & _).
    split; assumption. }
  pose proof (marked_shaped _ _ _ M) as Hsm.
  destruct (_generate_holes_adjacent_counted bm Hsm) as (b & Eb & C).
  pose proof (marked_width _ _ _ M) as Hwm. pose proof (marked_height _ _ _ M) as Hhm.
  pose proof (counted_width _ _ _ C) as Hw. pose proof (counted_height _ _ _ C) as Hh.
  simpl in Hwm, Hhm.
  assert (Hbm : forall p, in_board b p -> in_board bm p)
    by (intros p; now apply (in_board_dims bm b)).
  assert (Hb0 : forall p, in_board b p -> in_board (empty_board size holes_num) p).
  { intros p Hp. apply Hbm in Hp. now apply (in_board_dims (empty_board size holes_num) bm)
      in Hp. }
  assert (Hcell : forall p, in_board b p ->
            cell_at bm p = if existsb (Coord_eqb p) holes
                           then set_is_hole (Cell_init false) true else Cell_init false).
  { intros p Hp. rewrite (marked_cell _ _ _ M p (Hb0 p Hp)).
    now rewrite empty_board_cell by auto. }
  exists holes, b. split; [assumption|]. split.
  - unfold _generate_board, _generate_holes. fold g. rewrite Eg. cbn [bind].
    rewrite Em. cbn [bind]. assumption.
  - constructor.
    + apply (counted_shaped _ _ _ C).
    + congruence.
    + congruence.
    + rewrite (counted_status _ _ _ C). apply (marked_status _ _ _ M).
    + rewrite (counted_counter _ _ _ C). apply (marked_counter _ _ _ M).
    + intros p Hp. rewrite (counted_opened _ _ _ C p (Hbm p Hp)), (Hcell p Hp).
      now destruct (existsb _ _).
    + intros p Hp. rewrite (counted_hole _ _ _ C p (Hbm p Hp)), (Hcell p Hp).
      rewrite <- existsb_Coord_eqb. now destruct (existsb _ _).
    + rewrite <- (Nat.add_0_l (length holes)).
      assert (E0 : holes_count (empty_board size holes_num) = 0%nat).
      { apply total_board_zero; [assumption|]. intros p Hp.
        now rewrite empty_board_cell. }
      rewrite <- E0, <- (marked_count _ _ _ M). unfold holes_count.
      apply total_board_ext; auto.
      * apply (counted_shaped _ _ _ C).
      * intros p Hp. unfold hole_cell. now rewrite (counted_hole _ _ _ C p (Hbm p Hp)).
    + intros p Hp Hsafe. rewrite (counted_hole _ _ _ C p (Hbm p Hp)) in Hsafe.
      rewrite (counted_safe _ _ _ C p (Hbm p Hp) Hsafe I). symmetry.
      apply holes_among_neighbours_ext; auto. apply (counted_hole _ _ _ C).
    + intros p Hp Hhole. rewrite (counted_hole _ _ _ C p (Hbm p Hp)) in Hhole.
      rewrite (counted_holes _ _ _ C p (Hbm p Hp) Hhole), (Hcell p Hp).
      now destruct (existsb _ _).
Qed.

Lemma generated_opened_count (size holes_num : Z) (holes : list Coord) (b : Board) :
  generated size holes_num holes b -> opened_count b = 0%nat.
Proof.
  intros G. apply total_board_zero; [apply (gen_shaped _ _ _ _ G)|].
  intros p Hp. unfold opened_cell. now rewrite (gen_unopened _ _ _ _ G p Hp).
Qed.

Lemma generated_ok (size holes_num : Z) (holes : list Coord) (b : Board) :
  generated size holes_num holes b ->
  Z.of_nat (length holes) = holes_num -> holes_num < size * size ->
  board_ok b.
Proof.
  intros G Hlen Hlt. pose proof (gen_shaped _ _ _ _ G) as Hs. constructor.
  - assumption.
  - intros p Hp _. apply (gen_unopened _ _ _ _ G p Hp).
  - intros m n Hm Ho. rewrite (gen_unopened _ _ _ _ G m Hm) in Ho. discriminate.
  - pose proof (unopened_split b Hs) as E.
    rewrite (gen_count _ _ _ _ G) in E.
    pose proof (opened_unopened b Hs) as E'.
    rewrite (generated_opened_count _ _ _ _ G) in E'.
    rewrite (gen_width _ _ _ _ G), (gen_height _ _ _ _ G) in E'.
    rewrite (gen_counter _ _ _ _ G).
    rewrite E in E'; [lia|]. intros p Hp _. apply (gen_unopened _ _ _ _ G p Hp).
  - intros _. rewrite (gen_counter _ _ _ _ G). lia.
  - intros St. rewrite (gen_status _ _ _ _ G) in St. discriminate.
Qed.

(** [__init__] on arguments that pass its checks, with a number of holes
    that is not negative and a first coordinate on the board. *)
Lemma Board_init_returns (size holes_num : Z) (r : HolesGenerator.rng)
    (first_coord : Coord) :
  3 < size -> 0 <= holes_num < size ^ 2 - 9 ->
  0 <= x first_coord < size -> 0 <= y first_coord < size ->
  exists holes b1 b,
    HolesGenerator.generate_holes (HolesGenerator.init size holes_num) r first_coord
    = Ok holes
    /\ generated size holes_num holes b1
    /\ Z.of_nat (length holes) = holes_num
    /\ NoDup holes
    /\ (forall p, In p holes -> in_board b1 p /\ p <> first_coord)
    /\ Board_init size holes_num (HolesGenerator.init size holes_num) r first_coord = Ok b
    /\ click_on b1 first_coord = Ok b
    /\ reveal_inv b1 first_coord b [].
Proof.
  intros Hsize Hn Hx Hy.
  destruct (_generate_board_generated size holes_num r first_coord)
    as (holes & b1 & Eg & Eb & G); [nia|lia|].
  destruct (generate_holes_spec _ r first_coord holes Eg) as (Hlen & Hnd & Hin).
  simpl in Hlen, Hin.
  pose proof (gen_shaped _ _ _ _ G) as Hs.
  assert (Hf : in_board b1 first_coord).
  { unfold in_board. now rewrite (gen_width _ _ _ _ G), (gen_height _ _ _ _ G). }
  assert (Hsafe : is_hole (cell_at b1 first_coord) = false).
  { destruct (is_hole (cell_at b1 first_coord)) eqn:E; [|reflexivity].
    apply (gen_hole _ _ _ _ G first_coord Hf) in E. destruct (Hin _ E) as (_ & _ & Hne).
    now contradiction Hne. }
  destruct (click_on_with_safe popleft b1 first_coord Hs Hf Hsafe) as (b & Ec & I).
  rewrite <- click_on_popleft in Ec.
  exists holes, b1, b.
  split; [assumption|]. split; [assumption|]. split; [assumption|].
  split; [assumption|]. split.
  { intros p Hp. destruct (Hin p Hp) as (Hpx & Hpy & Hne). split; [|assumption].
    unfold in_board. rewrite (gen_width _ _ _ _ G), (gen_height _ _ _ _ G).
    split; assumption. }
  split; [|split; assumption].
  unfold Board_init, SMALLEST_BOARD_SIZE.
  destruct (Z.leb_spec size 3); [lia|].
  destruct (Z.leb_spec (size ^ 2 - 3 ^ 2) holes_num); [lia|].
  fold (empty_board size holes_num). cbv zeta. rewrite Eb. cbn [bind]. assumption.
Qed.

(** [__init__] returns only on such arguments. *)
Lemma Board_init_Ok (size holes_num : Z) (g : HolesGenerator.t) (r : HolesGenerator.rng)
    (first_coord : Coord) (b : Board) :
  Board_init size holes_num g r first_coord = Ok b ->
  3 < size /\ holes_num < size ^ 2 - 9 /\ 0 <= HolesGenerator.holes_num g.
Proof.
  unfold Board_init, SMALLEST_BOARD_SIZE.
  destruct (Z.leb_spec size 3); [discriminate|].
  destruct (Z.leb_spec (size ^ 2 - 3 ^ 2) holes_num); [discriminate|].
  cbv zeta. unfold _generate_board, _generate_holes, HolesGenerator.generate_holes,
    HolesGenerator.sample.
  destruct (Z.leb_spec 0 (HolesGenerator.holes_num g)); [intros _; lia|].
  simpl. discriminate.
Qed.

(** ** The boards of a game *)

Lemma game_ok_reveal (size holes_num : Z) (b b' : Board) (start : Coord) :
  game_ok size holes_num b -> in_board b start -> is_hole (cell_at b start) = false ->
  reveal_inv b start b' [] -> game_ok size holes_num b'.
Proof.
  intros G Hst Hsafe I. pose proof (game_board_ok _ _ _ G) as Hok.
  pose proof (ok_shaped b Hok) as Hs.
  pose proof (inv_width _ _ _ _ I) as Hw. pose proof (inv_height _ _ _ _ I) as Hh.
  assert (Hin : forall p, in_board b' p -> in_board b p)
    by (intros p; now apply (in_board_dims b b')).
  constructor.
  - eapply board_ok_reveal; eauto.
  - apply (game_size _ _ _ G).
  - apply (game_holes_num _ _ _ G).
  - rewrite Hw. apply (game_width _ _ _ G).
  - rewrite Hh. apply (game_height _ _ _ G).
  - rewrite (holes_count_reveal b b' start Hs I). apply (game_holes _ _ _ G).
  - intros p Hp Hsp. rewrite (inv_hole _ _ _ _ I p (Hin p Hp)) in Hsp.
    rewrite (inv_around _ _ _ _ I p (Hin p Hp)).
    rewrite (game_around_safe _ _ _ G p (Hin p Hp) Hsp). symmetry.
    apply holes_among_neighbours_ext; auto. apply (inv_hole _ _ _ _ I).
  - intros p Hp Hhp. rewrite (inv_hole _ _ _ _ I p (Hin p Hp)) in Hhp.
    rewrite (inv_around _ _ _ _ I p (Hin p Hp)).
    apply (game_around_hole _ _ _ G p (Hin p Hp) Hhp).
Qed.

Lemma game_ok_lost (size holes_num : Z) (b : Board) :
  game_ok size holes_num b -> game_ok size holes_num (set_status b LOST).
Proof.
  intros G. destruct G. constructor; auto. now apply board_ok_lost.
Qed.

Lemma game_ok_click_on_with (d : discipline) (size holes_num : Z) (b b' : Board)
    (coord : Coord) :
  game_ok size holes_num b -> in_board b coord -> click_on_with d b coord = Ok b' ->
  game_ok size holes_num b'.
Proof.
  intros G Hc H. pose proof (ok_shaped b (game_board_ok _ _ _ G)) as Hs.
  destruct (is_hole (cell_at b coord)) eqn:Eh.
  - rewrite (click_on_with_hole d b coord Hs Hc Eh) in H. injection H as <-.
    now apply game_ok_lost.
  - destruct (click_on_with_safe d b coord Hs Hc Eh) as (b1 & H1 & I).
    rewrite H in H1. injection H1 as <-. eapply game_ok_reveal; eauto.
Qed.

Lemma generated_game_ok (size holes_num : Z) (holes : list Coord) (b : Board) :
  3 < size -> 0 <= holes_num < size ^ 2 - 9 ->
  generated size holes_num holes b -> Z.of_nat (length holes) = holes_num ->
  game_ok size holes_num b.
Proof.
  intros Hsize Hn G Hlen. constructor; auto.
  - eapply generated_ok; eauto. nia.
  - apply (gen_width _ _ _ _ G).
  - apply (gen_height _ _ _ _ G).
  - now rewrite (gen_count _ _ _ _ G).
  - apply (gen_around_safe _ _ _ _ G).
  - apply (gen_around_hole _ _ _ _ G).
Qed.

(** Every board of a game is well formed. *)
Lemma game_game_ok (size holes_num : Z) (b : Board) :
  game size holes_num b -> game_ok size holes_num b.
Proof.
  intros H. induction H as [r first_coord b Hx Hy E|b b' coord H IH Hc E].
  - destruct (Board_init_Ok _ _ _ _ _ _ E) as (Hsize & Hlt & Hge). simpl in Hge.
    destruct (Board_init_returns size holes_num r first_coord)
      as (holes & b1 & b2 & _ & G & Hlen & _ & Hin & E2 & _ & I); auto.
    rewrite E in E2. injection E2 as <-.
    pose proof (generated_game_ok size holes_num holes b1 Hsize (conj Hge Hlt) G Hlen) as G1.
    assert (Hf : in_board b1 first_coord).
    { unfold in_board. now rewrite (gen_width _ _ _ _ G), (gen_height _ _ _ _ G). }
    apply (game_ok_reveal size holes_num b1 b first_coord G1 Hf); [|assumption].
    destruct (is_hole (cell_at b1 first_coord)) eqn:Eh; [|reflexivity].
    apply (gen_hole _ _ _ _ G first_coord Hf) in Eh. destruct (Hin _ Eh) as [_ Hne].
    now contradiction Hne.
  - rewrite click_on_popleft in E. eapply game_ok_click_on_with; eauto.
Qed.

(** ** The neighbours of a coordinate *)

Lemma flat_map_filter {A B} (f : A -> B) (q : B -> bool) (l : list A) :
  flat_map (fun a => if q (f a) then [] else [f a]) l
  = filter (fun v => negb (q v)) (map f l).
Proof.
  induction l as [|a l IH]; [reflexivity|].
  cbn [flat_map map filter]. rewrite IH. now destruct (q (f a)).
Qed.

Lemma _get_adjacent_coords_filter (b : Board) (coord : Coord) :
  _get_adjacent_coords b coord
  = filter (fun n => negb ((x n <? 0) || (x n >=? width b)
                           || (y n <? 0) || (y n >=? height b)))
           (map (fun d => mkCoord (x d + x coord) (y d + y coord)) neighbors).
Proof.
  unfold _get_adjacent_coords.
  exact (flat_map_filter (fun d => mkCoord (x d + x coord) (y d + y coord))
           (fun n => (x n <? 0) || (x n >=? width b) || (y n <? 0) || (y n >=? height b))
           neighbors).
Qed.

Lemma NoDup_neighbors : NoDup neighbors.
Proof.
  unfold neighbors. simpl.
  repeat (constructor; [simpl; intuition discriminate|]). constructor.
Qed.

Lemma in_neighbors (d : Coord) :
  In d neighbors <-> -1 <= x d <= 1 /\ -1 <= y d <= 1 /\ d <> mkCoord 0 0.
Proof.
  unfold neighbors. simpl. destruct d as [dx dy]. simpl. split.
  - intros H. repeat (destruct H as [H|H]; [injection H as <- <-; repeat split;
      try lia; discriminate|]). contradiction.
  - intros (Hx & Hy & Hne).
    assert (Ex : dx = -1 \/ dx = 0 \/ dx = 1) by lia.
    assert (Ey : dy = -1 \/ dy = 0 \/ dy = 1) by lia.
    destruct Ex as [->|[->| ->]], Ey as [->|[->| ->]]; try tauto.
Qed.

(** The neighbours are the coordinates of the board one step away,
    straight or diagonal, each listed once. *)
Lemma _get_adjacent_coords_spec (b : Board) (coord n : Coord) :
  In n (_get_adjacent_coords b coord)
  <-> in_board b n /\ n <> coord
      /\ Z.abs (x n - x coord) <= 1 /\ Z.abs (y n - y coord) <= 1.
Proof.
  rewrite _get_adjacent_coords_filter, filter_In, in_map_iff. split.
  - intros [(d & <- & Hd) Hb]. apply in_neighbors in Hd. destruct Hd as (Hx & Hy & Hne).
    apply negb_true_iff in Hb. simpl in Hb.
    repeat (apply orb_false_iff in Hb; destruct Hb as [Hb ?]).
    unfold in_board. simpl. repeat split; try lia.
    intros E. apply Hne. destruct d, coord; simpl in *. injection E as E1 E2.
    f_equal; lia.
  - intros (Hin & Hne & Hx & Hy). destruct Hin as [Hbx Hby]. split.
    + exists (mkCoord (x n - x coord) (y n - y coord)). split.
      * destruct n; simpl. f_equal; lia.
      * apply in_neighbors. simpl. repeat split; try lia.
        intros E. injection E as E1 E2. apply Hne. destruct n, coord; simpl in *.
        f_equal; lia.
    + apply negb_true_iff. repeat (apply orb_false_iff; split); lia.
Qed.

Lemma NoDup__get_adjacent_coords (b : Board) (coord : Coord) :
  NoDup (_get_adjacent_coords b coord).
Proof.
  rewrite _get_adjacent_coords_filter. apply NoDup_filter.
  apply Finite.Injective_map_NoDup; [|apply NoDup_neighbors].
  intros d d' E. injection E as E1 E2. destruct d, d'; simpl in *. f_equal; lia.
Qed.

(** ** Clicks that change nothing *)

(** On a board of a game the reveal from an opened cell is over at once. *)
Lemma reveal_inv_opened_start (b : Board) (start : Coord) :
  board_ok b -> in_board b start -> is_opened (cell_at b start) = true ->
  reveal_inv b start b [].
Proof.
  intros Hok Hst Ho. constructor; auto; try lia.
  - apply (ok_shaped b Hok).
  - intros p _ H H'. congruence.
  - right. split; [assumption|]. intros Hz n Hn Hnh Hno.
    rewrite (ok_filled b Hok start n Hst Ho Hz Hn Hnh) in Hno. discriminate.
  - intros m _ H H'. congruence.
  - destruct (Z.leb_spec (cells_to_open b) 0); destruct (Z.ltb_spec 0 (cells_to_open b));
      simpl; try reflexivity. lia.
Qed.

Lemma click_on_opened (b : Board) (coord : Coord) :
  board_ok b -> in_board b coord -> is_opened (cell_at b coord) = true ->
  click_on b coord = Ok b.
Proof.
  intros Hok Hc Ho. pose proof (ok_shaped b Hok) as Hs.
  assert (Hsafe : is_hole (cell_at b coord) = false).
  { destruct (is_hole (cell_at b coord)) eqn:E; [|reflexivity].
    rewrite (ok_holes_closed b Hok coord Hc E) in Ho. discriminate. }
  rewrite click_on_popleft.
  destruct (click_on_with_safe popleft b coord Hs Hc Hsafe) as (b' & E & I).
  rewrite E. f_equal.
  apply (reveal_inv_unique b coord b' b Hs Hc I).
  now apply reveal_inv_opened_start.
Qed.

(** On a won board every safe cell is opened. *)
Lemma won_all_opened (b : Board) (p : Coord) :
  board_ok b -> cells_to_open b = 0 -> in_board b p ->
  is_hole (cell_at b p) = false -> is_opened (cell_at b p) = true.
Proof.
  intros Hok Hz Hp Hsafe. pose proof (ok_counter b Hok) as E. rewrite Hz in E.
  assert (E0 : remaining_safe_cells b = 0%nat) by lia.
  pose proof (proj1 (total_board_zero safe_unopened_cell b (ok_shaped b Hok)) E0 p Hp) as H.
  unfold safe_unopened_cell, unopened_cell in H. rewrite Hsafe in H.
  now destruct (is_opened (cell_at b p)).
Qed.

Lemma all_opened_won (b : Board) :
  board_ok b ->
  (forall p, in_board b p -> is_hole (cell_at b p) = false ->
             is_opened (cell_at b p) = true) ->
  cells_to_open b = 0.
Proof.
  intros Hok H. rewrite (ok_counter b Hok).
  assert (E0 : remaining_safe_cells b = 0%nat); [|lia].
  apply (total_board_zero safe_unopened_cell b (ok_shaped b Hok)). intros p Hp.
  unfold safe_unopened_cell, unopened_cell. specialize (H p Hp).
  destruct (is_hole (cell_at b p)); [reflexivity|]. now rewrite H.
Qed.

(** ** Games used as examples *)

Lemma in_boardb_true (b : Board) (coord : Coord) :
  in_boardb b coord = true -> in_board b coord.
Proof.
  unfold in_boardb, in_board. rewrite !andb_true_iff. lia.
Qed.

Lemma shapedb_true (b : Board) : shapedb b = true -> shaped b.
Proof.
  unfold shapedb, shaped. rewrite !andb_true_iff, forallb_forall, Forall_forall.
  rewrite Nat.eqb_eq. intros [[[Hw Hh] Hl] Hrows]. repeat split; try lia.
  intros row Hrow. apply Nat.eqb_eq. now apply Hrows.
Qed.

Lemma in_play_board_game : game 4 1 in_play_board.
Proof.
  apply (game_start 4 1 zero_rng (mkCoord 0 1)); [simpl; lia|simpl; lia|].
  vm_compute. reflexivity.
Defined.

Lemma won_board_game : game 4 1 won_board.
Proof.
  apply (game_start 4 1 zero_rng (mkCoord 3 3)); [simpl; lia|simpl; lia|].
  vm_compute. reflexivity.
Defined.

Lemma lost_board_game : game 4 1 lost_board.
Proof.
  apply (game_click 4 1 in_play_board lost_board (mkCoord 0 0) in_play_board_game).
  - apply in_boardb_true. vm_compute. reflexivity.
  - vm_compute. reflexivity.
Defined.

(** * The properties of the specification *)

(** ** Loss *)

(** C8. In play, a click on a hole sets the status to [LOST] and changes
    nothing else: the grid with every [is_opened] flag, [cells_to_open] and
    the size stay as they were, and the reveal does not run (the result is
    the board as it was but for its status). *)
Theorem loss_atomic (b : Board) (coord : Coord) (cell : Cell) :
  status b = IN_GAME ->
  at_ b coord = Ok cell ->
  is_hole cell = true ->
  exists b', click_on b coord = Ok b'
    /\ b' = set_status b LOST
    /\ status b' = LOST
    /\ board b' = board b
    /\ cells_to_open b' = cells_to_open b
    /\ (forall p, is_opened (cell_at b' p) = is_opened (cell_at b p)).
Proof.
  intros _ Hat Hhole. exists (set_status b LOST). unfold click_on.
  rewrite Hat. cbn [bind]. rewrite Hhole. repeat split.
Qed.

Lemma loss_atomic_witness :
  exists b', click_on in_play_board (mkCoord 0 0) = Ok b'
    /\ b' = set_status in_play_board LOST
    /\ status b' = LOST
    /\ board b' = board in_play_board
    /\ cells_to_open b' = cells_to_open in_play_board
    /\ (forall p, is_opened (cell_at b' p) = is_opened (cell_at in_play_board p)).
Proof.
  apply (loss_atomic in_play_board (mkCoord 0 0) (Cell_init true)).
  - vm_compute. reflexivity.
  - vm_compute. reflexivity.
  - reflexivity.
Defined.

(** ** Traversal order *)

(** C9. On every board, from every start coordinate on it, the reveal of
    [_open_cells] (first in, first out) and the reveal under any other
    discipline of the work-list (last in, first out among them) return the
    same board: the same opened cells and the same status. *)
Theorem traversal_order_independent (d : discipline) (b : Board) (coord : Coord) :
  shaped b ->
  in_board b coord ->
  exists b', _open_cells b coord = Ok b'
    /\ open_cells_with d b [coord] = Ok b'
    /\ open_cells_with pop b [coord] = Ok b'.
Proof.
  intros Hs Hc. unfold _open_cells. rewrite open_cells_loop_popleft.
  destruct (open_cells_with_inv popleft b Hs coord Hc) as (b1 & E1 & I1).
  destruct (open_cells_with_inv d b Hs coord Hc) as (b2 & E2 & I2).
  destruct (open_cells_with_inv pop b Hs coord Hc) as (b3 & E3 & I3).
  exists b1. rewrite E1, E2, E3.
  rewrite (reveal_inv_unique b coord b2 b1 Hs Hc I2 I1).
  rewrite (reveal_inv_unique b coord b3 b1 Hs Hc I3 I1).
  repeat split.
Qed.

Lemma traversal_order_independent_witness :
  exists b', _open_cells in_play_board (mkCoord 3 3) = Ok b'
    /\ open_cells_with (fun _ worklist => length worklist / 2)%nat in_play_board
         [mkCoord 3 3] = Ok b'
    /\ open_cells_with pop in_play_board [mkCoord 3 3] = Ok b'.
Proof.
  apply (traversal_order_independent _ in_play_board (mkCoord 3 3)).
  - apply shapedb_true. vm_compute. reflexivity.
  - apply in_boardb_true. vm_compute. reflexivity.
Defined.

(** ** Construction *)

(** C6, as the code has it.  With a number of holes that is not negative,
    a first coordinate on the board and the generator made for the same
    size and number of holes, [__init__] raises exactly when [size <= 3]
    (the size is too small) or [size^2 - 3^2 <= holes_num] (too many
    holes), whatever the generator, and otherwise returns a board. *)
Theorem construction_raises (size holes_num : Z) (g : HolesGenerator.t)
    (r : HolesGenerator.rng) (first_coord : Coord) :
  0 <= holes_num ->
  (3 < size -> 0 <= x first_coord < size /\ 0 <= y first_coord < size) ->
  (size <= 3 ->
     Board_init size holes_num g r first_coord = Raise (ValueError SizeTooSmall))
  /\ (3 < size -> size ^ 2 - 3 ^ 2 <= holes_num ->
      Board_init size holes_num g r first_coord = Raise (ValueError TooManyHoles))
  /\ (3 < size -> holes_num < size ^ 2 - 9 ->
      exists b, Board_init size holes_num (HolesGenerator.init size holes_num) r
                  first_coord = Ok b)
  /\ ((exists e, Board_init size holes_num (HolesGenerator.init size holes_num) r
                   first_coord = Raise e)
      <-> size <= 3 \/ size ^ 2 - 3 ^ 2 <= holes_num).
Proof.
  intros Hn Hf.
  assert (H1 : forall g', size <= 3 ->
            Board_init size holes_num g' r first_coord = Raise (ValueError SizeTooSmall)).
  { intros g' H. unfold Board_init, SMALLEST_BOARD_SIZE.
    now destruct (Z.leb_spec size 3); [|lia]. }
  assert (H2 : forall g', 3 < size -> size ^ 2 - 3 ^ 2 <= holes_num ->
            Board_init size holes_num g' r first_coord = Raise (ValueError TooManyHoles)).
  { intros g' H H'. unfold Board_init, SMALLEST_BOARD_SIZE.
    destruct (Z.leb_spec size 3); [lia|].
    now destruct (Z.leb_spec (size ^ 2 - 3 ^ 2) holes_num); [|lia]. }
  assert (H3 : 3 < size -> holes_num < size ^ 2 - 9 ->
            exists b, Board_init size holes_num (HolesGenerator.init size holes_num) r
                        first_coord = Ok b).
  { intros H H'. destruct (Hf H) as [Hx Hy].
    destruct (Board_init_returns size holes_num r first_coord)
      as (holes & b1 & b & _ & _ & _ & _ & _ & E & _); auto. eauto. }
  repeat split; auto.
  - intros [e E]. destruct (Z.le_gt_cases size 3) as [H|H]; [now left|]. right.
    destruct (Z.le_gt_cases (size ^ 2 - 3 ^ 2) holes_num) as [H'|H']; [assumption|].
    destruct (H3 ltac:(lia) ltac:(lia)) as [b Eb]. congruence.
  - intros [H|H].
    + eexists. now apply H1.
    + destruct (Z.le_gt_cases size 3) as [H'|H'].
      * eexists. now apply H1.
      * eexists. apply H2; [lia|assumption].
Qed.

Lemma construction_raises_witness :
  (4 <= 3 ->
     Board_init 4 1 (HolesGenerator.init 4 1) zero_rng (mkCoord 0 1)
     = Raise (ValueError SizeTooSmall))
  /\ (3 < 4 -> 4 ^ 2 - 3 ^ 2 <= 1 ->
      Board_init 4 1 (HolesGenerator.init 4 1) zero_rng (mkCoord 0 1)
      = Raise (ValueError TooManyHoles))
  /\ (3 < 4 -> 1 < 4 ^ 2 - 9 ->
      exists b, Board_init 4 1 (HolesGenerator.init 4 1) zero_rng (mkCoord 0 1) = Ok b)
  /\ ((exists e, Board_init 4 1 (HolesGenerator.init 4 1) zero_rng (mkCoord 0 1) = Raise e)
      <-> 4 <= 3 \/ 4 ^ 2 - 3 ^ 2 <= 1).
Proof.
  apply (construction_raises 4 1 (HolesGenerator.init 4 1) zero_rng (mkCoord 0 1)).
  - lia.
  - simpl. lia.
Defined.

(** C6 as stated fails: with [size = 4] and [holes_num = -1] neither check
    of [__init__] fires, and the construction raises all the same, in
    [random.sample]; so it does, in [at], with a first coordinate that is
    not on the board. *)
Lemma construction_raises_otherwise :
  ~ (4 <= 3 \/ 4 ^ 2 - 3 ^ 2 <= -1)
  /\ Board_init 4 (-1) (HolesGenerator.init 4 (-1)) zero_rng (mkCoord 0 0)
     = Raise (ValueError SampleOutOfRange)
  /\ ~ (4 <= 3 \/ 4 ^ 2 - 3 ^ 2 <= 0)
  /\ Board_init 4 0 (HolesGenerator.init 4 0) zero_rng (mkCoord 7 7) = Raise IndexError.
Proof.
  split; [lia|]. split; [reflexivity|]. split; [lia|]. vm_compute. reflexivity.
Qed.

(** C7. For a valid construction the generator returns [holes_num]
    distinct coordinates of the board, none of them the first coordinate,
    and the board constructed has exactly [holes_num] holes, at those
    coordinates; the cell at the first coordinate is not one. *)
Theorem hole_placement (size holes_num : Z) (r : HolesGenerator.rng)
    (first_coord : Coord) :
  3 < size -> 0 <= holes_num < size ^ 2 - 9 ->
  0 <= x first_coord < size -> 0 <= y first_coord < size ->
  exists holes b,
    HolesGenerator.generate_holes (HolesGenerator.init size holes_num) r first_coord
    = Ok holes
    /\ Z.of_nat (length holes) = holes_num
    /\ NoDup holes
    /\ (forall p, In p holes ->
          0 <= x p < size /\ 0 <= y p < size /\ p <> first_coord)
    /\ Board_init size holes_num (HolesGenerator.init size holes_num) r first_coord = Ok b
    /\ Z.of_nat (holes_count b) = holes_num
    /\ (forall p, in_board b p -> is_hole (cell_at b p) = true <-> In p holes)
    /\ is_hole (cell_at b first_coord) = false.
Proof.
  intros Hsize Hn Hx Hy.
  destruct (Board_init_returns size holes_num r first_coord Hsize Hn Hx Hy)
    as (holes & b1 & b & Eg & G & Hlen & Hnd & Hin & E & _ & I).
  pose proof (generated_game_ok size holes_num holes b1 Hsize Hn G Hlen) as G1.
  pose proof (gen_shaped _ _ _ _ G) as Hs.
  assert (Hf : in_board b1 first_coord).
  { unfold in_board. now rewrite (gen_width _ _ _ _ G), (gen_height _ _ _ _ G). }
  assert (Hfs : is_hole (cell_at b1 first_coord) = false).
  { destruct (is_hole (cell_at b1 first_coord)) eqn:Eh; [|reflexivity].
    apply (gen_hole _ _ _ _ G first_coord Hf) in Eh. destruct (Hin _ Eh) as [_ Hne].
    now contradiction Hne. }
  exists holes, b. split; [assumption|]. split; [assumption|]. split; [assumption|].
  split.
  { intros p Hp. destruct (Hin p Hp) as [[Hpx Hpy] Hne].
    rewrite (gen_width _ _ _ _ G) in Hpx. rewrite (gen_height _ _ _ _ G) in Hpy. auto. }
  split; [assumption|]. split.
  { rewrite (holes_count_reveal b1 b first_coord Hs I). apply (game_holes _ _ _ G1). }
  split.
  { intros p Hp. apply (in_board_dims b1 b) in Hp;
      [|apply (inv_width _ _ _ _ I)|apply (inv_height _ _ _ _ I)].
    rewrite (inv_hole _ _ _ _ I p Hp). apply (gen_hole _ _ _ _ G p Hp). }
  now rewrite (inv_hole _ _ _ _ I first_coord Hf).
Qed.

Lemma hole_placement_witness :
  exists holes b,
    HolesGenerator.generate_holes (HolesGenerator.init 5 3) zero_rng (mkCoord 2 2)
    = Ok holes
    /\ Z.of_nat (length holes) = 3
    /\ NoDup holes
    /\ (forall p, In p holes -> 0 <= x p < 5 /\ 0 <= y p < 5 /\ p <> mkCoord 2 2)
    /\ Board_init 5 3 (HolesGenerator.init 5 3) zero_rng (mkCoord 2 2) = Ok b
    /\ Z.of_nat (holes_count b) = 3
    /\ (forall p, in_board b p -> is_hole (cell_at b p) = true <-> In p holes)
    /\ is_hole (cell_at b (mkCoord 2 2)) = false.
Proof.
  apply (hole_placement 5 3 zero_rng (mkCoord 2 2)); simpl; lia.
Defined.

(** C2, as the code has it.  After a valid construction the status is not
    [LOST]: it is [IN_GAME], or [WIN] when the first reveal has opened
    every cell that is not a hole; and the cell at the first coordinate is
    opened. *)
Theorem first_click_safe (size holes_num : Z) (r : HolesGenerator.rng)
    (first_coord : Coord) :
  3 < size -> 0 <= holes_num < size ^ 2 - 9 ->
  0 <= x first_coord < size -> 0 <= y first_coord < size ->
  exists b,
    Board_init size holes_num (HolesGenerator.init size holes_num) r first_coord = Ok b
    /\ status b <> LOST
    /\ (status b = WIN <-> cells_to_open b = 0)
    /\ (status b = IN_GAME <-> 0 < cells_to_open b)
    /\ is_opened (cell_at b first_coord) = true.
Proof.
  intros Hsize Hn Hx Hy.
  destruct (Board_init_returns size holes_num r first_coord Hsize Hn Hx Hy)
    as (holes & b1 & b & Eg & G & Hlen & Hnd & Hin & E & _ & I).
  pose proof (gen_shaped _ _ _ _ G) as Hs.
  assert (Hf : in_board b1 first_coord).
  { unfold in_board. now rewrite (gen_width _ _ _ _ G), (gen_height _ _ _ _ G). }
  assert (Hgame : game size holes_num b) by (eapply game_start; eauto).
  pose proof (game_board_ok _ _ _ (game_game_ok _ _ _ Hgame)) as Hok.
  pose proof (inv_status _ _ _ _ I) as St. rewrite (gen_status _ _ _ _ G) in St.
  assert (Hpos : 0 <= cells_to_open b) by (rewrite (ok_counter b Hok); lia).
  exists b. split; [assumption|].
  destruct (Z.leb_spec (cells_to_open b) 0);
    destruct (Z.ltb_spec 0 (cells_to_open b1)); simpl in St; rewrite St.
  - repeat split; try discriminate; try lia.
    apply (reveal_inv_opened b1 first_coord Hf b first_coord I Hf). right. constructor.
  - repeat split; try discriminate; try lia.
    + rewrite (gen_counter _ _ _ _ G) in *. nia.
    + rewrite (gen_counter _ _ _ _ G) in *. nia.
    + apply (reveal_inv_opened b1 first_coord Hf b first_coord I Hf). right. constructor.
  - repeat split; try discriminate; try lia.
    apply (reveal_inv_opened b1 first_coord Hf b first_coord I Hf). right. constructor.
  - repeat split; try discriminate; try lia.
    apply (reveal_inv_opened b1 first_coord Hf b first_coord I Hf). right. constructor.
Qed.

Lemma first_click_safe_witness :
  exists b,
    Board_init 4 1 (HolesGenerator.init 4 1) zero_rng (mkCoord 0 1) = Ok b
    /\ status b <> LOST
    /\ (status b = WIN <-> cells_to_open b = 0)
    /\ (status b = IN_GAME <-> 0 < cells_to_open b)
    /\ is_opened (cell_at b (mkCoord 0 1)) = true.
Proof.
  apply (first_click_safe 4 1 zero_rng (mkCoord 0 1)); simpl; lia.
Defined.

(** C2 as stated fails: a 4 x 4 board without holes is valid, the first
    reveal opens all of it and the status after construction is [WIN]. *)
Lemma first_click_may_win :
  3 < 4 /\ 0 < 4 ^ 2 - 9
  /\ exists b, Board_init 4 0 (HolesGenerator.init 4 0) zero_rng (mkCoord 0 0) = Ok b
               /\ status b = WIN /\ status b <> IN_GAME.
Proof.
  split; [reflexivity|]. split; [reflexivity|].
  eexists. split; [vm_compute; reflexivity|]. split; [reflexivity|discriminate].
Qed.

(** ** Adjacency counts *)

(** C5. After a valid construction [holes_around] of every cell that is
    not a hole is the number of holes among its neighbours, and it is 0 for
    every hole; the neighbours of a coordinate are the coordinates of the
    board one step away from it, straight or diagonal, each counted once. *)
Theorem holes_around_correct (size holes_num : Z) (r : HolesGenerator.rng)
    (first_coord : Coord) :
  3 < size -> 0 <= holes_num < size ^ 2 - 9 ->
  0 <= x first_coord < size -> 0 <= y first_coord < size ->
  exists b,
    Board_init size holes_num (HolesGenerator.init size holes_num) r first_coord = Ok b
    /\ (forall p, in_board b p -> is_hole (cell_at b p) = false ->
          holes_around (cell_at b p)
          = Z.of_nat (length (filter (fun n => is_hole (cell_at b n))
                                     (_get_adjacent_coords b p))))
    /\ (forall p, in_board b p -> is_hole (cell_at b p) = true ->
          holes_around (cell_at b p) = 0)
    /\ (forall p, NoDup (_get_adjacent_coords b p))
    /\ (forall p n, In n (_get_adjacent_coords b p)
          <-> in_board b n /\ n <> p
              /\ Z.abs (x n - x p) <= 1 /\ Z.abs (y n - y p) <= 1).
Proof.
  intros Hsize Hn Hx Hy.
  destruct (Board_init_returns size holes_num r first_coord Hsize Hn Hx Hy)
    as (holes & b1 & b & _ & _ & _ & _ & _ & E & _ & _).
  assert (Hgame : game size holes_num b) by (eapply game_start; eauto).
  pose proof (game_game_ok _ _ _ Hgame) as G.
  exists b. split; [assumption|]. split; [|split; [|split]].
  - apply (game_around_safe _ _ _ G).
  - apply (game_around_hole _ _ _ G).
  - intros p. apply NoDup__get_adjacent_coords.
  - intros p n. apply _get_adjacent_coords_spec.
Qed.

Lemma holes_around_correct_witness :
  exists b,
    Board_init 5 3 (HolesGenerator.init 5 3) zero_rng (mkCoord 2 2) = Ok b
    /\ (forall p, in_board b p -> is_hole (cell_at b p) = false ->
          holes_around (cell_at b p)
          = Z.of_nat (length (filter (fun n => is_hole (cell_at b n))
                                     (_get_adjacent_coords b p))))
    /\ (forall p, in_board b p -> is_hole (cell_at b p) = true ->
          holes_around (cell_at b p) = 0)
    /\ (forall p, NoDup (_get_adjacent_coords b p))
    /\ (forall p n, In n (_get_adjacent_coords b p)
          <-> in_board b n /\ n <> p
              /\ Z.abs (x n - x p) <= 1 /\ Z.abs (y n - y p) <= 1).
Proof.
  apply (holes_around_correct 5 3 zero_rng (mkCoord 2 2)); simpl; lia.
Defined.

(** ** The counter *)

Lemma clicks_game (size holes_num : Z) (coords : list Coord) (b : Board) :
  game size holes_num b ->
  Forall (fun coord => 0 <= x coord < size /\ 0 <= y coord < size) coords ->
  exists b', clicks b coords = Ok b' /\ game size holes_num b'.
Proof.
  intros G H. revert b G. induction H as [|coord coords Hc Hcs IH]; intros b G.
  - exists b. split; [reflexivity|assumption].
  - pose proof (game_game_ok _ _ _ G) as Gok.
    assert (Hin : in_board b coord).
    { unfold in_board. now rewrite (game_width _ _ _ Gok), (game_height _ _ _ Gok). }
    destruct (click_on_with_returns popleft b coord
                (ok_shaped b (game_board_ok _ _ _ Gok)) Hin) as (b1 & E).
    rewrite <- click_on_popleft in E. cbn [clicks]. rewrite E. cbn [bind].
    apply IH. eapply game_click; eauto.
Qed.

Lemma game_counter (size holes_num : Z) (b : Board) :
  game size holes_num b ->
  cells_to_open b = width b * height b - holes_num - Z.of_nat (opened_count b)
  /\ 0 <= cells_to_open b.
Proof.
  intros G. apply game_game_ok in G. pose proof (game_board_ok _ _ _ G) as Hok.
  pose proof (ok_shaped b Hok) as Hs.
  pose proof (unopened_split b Hs (ok_holes_closed b Hok)) as E1.
  pose proof (opened_unopened b Hs) as E2.
  pose proof (ok_counter b Hok) as E3. pose proof (game_holes _ _ _ G) as E4.
  lia.
Qed.

(** C10. After a valid construction and after every sequence of clicks on
    the board, [cells_to_open] is the number of cells of the board, less
    the number of holes, less the number of opened cells; it is never
    negative. *)
Theorem opened_count_invariant (size holes_num : Z) (r : HolesGenerator.rng)
    (first_coord : Coord) (coords : list Coord) :
  3 < size -> 0 <= holes_num < size ^ 2 - 9 ->
  0 <= x first_coord < size -> 0 <= y first_coord < size ->
  Forall (fun coord => 0 <= x coord < size /\ 0 <= y coord < size) coords ->
  exists b0 b,
    Board_init size holes_num (HolesGenerator.init size holes_num) r first_coord = Ok b0
    /\ clicks b0 coords = Ok b
    /\ cells_to_open b = width b * height b - holes_num - Z.of_nat (opened_count b)
    /\ 0 <= cells_to_open b.
Proof.
  intros Hsize Hn Hx Hy Hcs.
  destruct (Board_init_returns size holes_num r first_coord Hsize Hn Hx Hy)
    as (holes & b1 & b0 & _ & _ & _ & _ & _ & E & _ & _).
  assert (G0 : game size holes_num b0) by (eapply game_start; eauto).
  destruct (clicks_game size holes_num coords b0 G0 Hcs) as (b & Ec & G).
  exists b0, b. split; [assumption|]. split; [assumption|].
  now apply (game_counter size holes_num).
Qed.

Lemma opened_count_invariant_witness :
  exists b0 b,
    Board_init 4 1 (HolesGenerator.init 4 1) zero_rng (mkCoord 0 1) = Ok b0
    /\ clicks b0 [mkCoord 1 1; mkCoord 0 0; mkCoord 3 3; mkCoord 1 1] = Ok b
    /\ cells_to_open b = width b * height b - 1 - Z.of_nat (opened_count b)
    /\ 0 <= cells_to_open b.
Proof.
  apply (opened_count_invariant 4 1 zero_rng (mkCoord 0 1)); try (simpl; lia).
  repeat constructor; simpl; lia.
Defined.

(** ** Winning *)

(** C3. In play, a click sets the status to [WIN] exactly when it brings
    [cells_to_open] to 0, which is exactly when it leaves no cell that is
    neither a hole nor opened; before it some such cell is left.  Before
    and after the click the counter is the number of such cells, so each
    one the click opens takes 1 off it. *)
Theorem win_condition_exact (size holes_num : Z) (b : Board) (coord : Coord) :
  game size holes_num b ->
  status b = IN_GAME ->
  in_board b coord ->
  exists b', click_on b coord = Ok b'
    /\ (status b' = WIN <-> cells_to_open b' = 0)
    /\ (cells_to_open b' = 0
        <-> forall p, in_board b' p -> is_hole (cell_at b' p) = false ->
                      is_opened (cell_at b' p) = true)
    /\ 0 < cells_to_open b
    /\ cells_to_open b = Z.of_nat (remaining_safe_cells b)
    /\ cells_to_open b' = Z.of_nat (remaining_safe_cells b')
    /\ cells_to_open b - cells_to_open b'
       = Z.of_nat (opened_count b') - Z.of_nat (opened_count b).
Proof.
  intros G St Hc. pose proof (game_game_ok _ _ _ G) as Gok.
  pose proof (game_board_ok _ _ _ Gok) as Hok. pose proof (ok_shaped b Hok) as Hs.
  destruct (click_on_with_returns popleft b coord Hs Hc) as (b' & E).
  rewrite <- click_on_popleft in E.
  assert (G' : game size holes_num b') by (eapply game_click; eauto).
  pose proof (game_game_ok _ _ _ G') as Gok'.
  pose proof (game_board_ok _ _ _ Gok') as Hok'.
  pose proof (ok_in_game b Hok St) as Hpos.
  exists b'. split; [assumption|]. split; [|split; [|split; [|split; [|split]]]].
  - split; [apply (ok_win b' Hok')|]. intros Hz.
    rewrite click_on_popleft in E. destruct (is_hole (cell_at b coord)) eqn:Eh.
    + rewrite (click_on_with_hole popleft b coord Hs Hc Eh) in E. injection E as <-.
      simpl in Hz. lia.
    + destruct (click_on_with_safe popleft b coord Hs Hc Eh) as (b1 & E1 & I).
      rewrite E in E1. injection E1 as <-.
      rewrite (inv_status _ _ _ _ I), Hz.
      now destruct (Z.ltb_spec 0 (cells_to_open b)); [|lia].
  - split.
    + intros Hz p. now apply won_all_opened.
    + now apply all_opened_won.
  - assumption.
  - apply (ok_counter b Hok).
  - apply (ok_counter b' Hok').
  - destruct (game_counter _ _ _ G) as [E1 _]. destruct (game_counter _ _ _ G') as [E2 _].
    rewrite (game_width _ _ _ Gok), (game_height _ _ _ Gok) in E1.
    rewrite (game_width _ _ _ Gok'), (game_height _ _ _ Gok') in E2. lia.
Qed.

Lemma win_condition_exact_witness :
  exists b', click_on in_play_board (mkCoord 3 3) = Ok b'
    /\ (status b' = WIN <-> cells_to_open b' = 0)
    /\ (cells_to_open b' = 0
        <-> forall p, in_board b' p -> is_hole (cell_at b' p) = false ->
                      is_opened (cell_at b' p) = true)
    /\ 0 < cells_to_open in_play_board
    /\ cells_to_open in_play_board = Z.of_nat (remaining_safe_cells in_play_board)
    /\ cells_to_open b' = Z.of_nat (remaining_safe_cells b')
    /\ cells_to_open in_play_board - cells_to_open b'
       = Z.of_nat (opened_count b') - Z.of_nat (opened_count in_play_board).
Proof.
  apply (win_condition_exact 4 1 in_play_board (mkCoord 3 3)).
  - exact in_play_board_game.
  - vm_compute. reflexivity.
  - apply in_boardb_true. vm_compute. reflexivity.
Defined.

(** ** The reveal *)

(** C4. In play, a click on a cell that is not a hole opens exactly the
    cells of [region]: after it a cell is opened when it was opened before
    or belongs to the region, every cell of the region is opened, and the
    cells whose flag the click turns on are the members of the region that
    were not opened yet.  [region] is the least set that holds the clicked
    coordinate and, with every member whose [holes_around] is 0, its
    neighbours on the board that are not holes; members with holes around
    are opened and add nothing.  No hole is opened. *)
Theorem flood_fill_region (size holes_num : Z) (b : Board) (coord : Coord) :
  game size holes_num b ->
  status b = IN_GAME ->
  in_board b coord ->
  is_hole (cell_at b coord) = false ->
  exists b', click_on b coord = Ok b'
    /\ (forall p, in_board b p ->
          is_opened (cell_at b' p) = true
          <-> is_opened (cell_at b p) = true \/ region b coord p)
    /\ (forall p, in_board b p ->
          (is_opened (cell_at b p) = false /\ is_opened (cell_at b' p) = true)
          <-> (is_opened (cell_at b p) = false /\ region b coord p))
    /\ (forall p, region b coord p ->
          in_board b p /\ is_hole (cell_at b p) = false
          /\ is_opened (cell_at b' p) = true)
    /\ (forall p, in_board b p -> is_hole (cell_at b' p) = true ->
          is_opened (cell_at b' p) = false)
    /\ (forall S : Coord -> Prop,
          S coord ->
          (forall m n, S m -> holes_around (cell_at b m) = 0 ->
             In n (_get_adjacent_coords b m) -> is_hole (cell_at b n) = false -> S n) ->
          forall p, region b coord p -> S p).
Proof.
  intros G St Hc Hsafe. pose proof (game_game_ok _ _ _ G) as Gok.
  pose proof (game_board_ok _ _ _ Gok) as Hok. pose proof (ok_shaped b Hok) as Hs.
  destruct (click_on_with_safe popleft b coord Hs Hc Hsafe) as (b' & E & I).
  rewrite <- click_on_popleft in E.
  pose proof (board_ok_reveal b b' coord Hok Hc Hsafe I) as Hok'.
  assert (Hopen : forall p, in_board b p ->
            is_opened (cell_at b' p) = true
            <-> is_opened (cell_at b p) = true \/ region b coord p).
  { intros p Hp. rewrite (reveal_inv_opened b coord Hc b' p I Hp). split.
    - intros [H|H]; [now left|right; now apply fill_region].
    - intros [H|H]; [now left|]. now apply region_fill. }
  exists b'. split; [assumption|]. split; [assumption|]. split; [|split; [|split]].
  - intros p Hp. specialize (Hopen p Hp). split.
    + intros [Hb Ha]. split; [assumption|]. apply Hopen in Ha.
      destruct Ha as [Ha|Ha]; [congruence|assumption].
    + intros [Hb R]. split; [assumption|]. apply Hopen. now right.
  - intros p R. pose proof (region_in_board b coord p Hc R) as Hp.
    split; [assumption|]. split; [now apply (region_safe b coord)|].
    apply Hopen; auto.
  - intros p Hp. apply (ok_holes_closed b' Hok').
    apply (in_board_dims b b'); auto.
    + apply (inv_width _ _ _ _ I).
    + apply (inv_height _ _ _ _ I).
  - intros S H0 Hstep p R. induction R; eauto.
Qed.

Lemma flood_fill_region_witness :
  exists b', click_on in_play_board (mkCoord 3 3) = Ok b'
    /\ (forall p, in_board in_play_board p ->
          is_opened (cell_at b' p) = true
          <-> is_opened (cell_at in_play_board p) = true
              \/ region in_play_board (mkCoord 3 3) p)
    /\ (forall p, in_board in_play_board p ->
          (is_opened (cell_at in_play_board p) = false /\ is_opened (cell_at b' p) = true)
          <-> (is_opened (cell_at in_play_board p) = false
               /\ region in_play_board (mkCoord 3 3) p))
    /\ (forall p, region in_play_board (mkCoord 3 3) p ->
          in_board in_play_board p /\ is_hole (cell_at in_play_board p) = false
          /\ is_opened (cell_at b' p) = true)
    /\ (forall p, in_board in_play_board p -> is_hole (cell_at b' p) = true ->
          is_opened (cell_at b' p) = false)
    /\ (forall S : Coord -> Prop,
          S (mkCoord 3 3) ->
          (forall m n, S m -> holes_around (cell_at in_play_board m) = 0 ->
             In n (_get_adjacent_coords in_play_board m) ->
             is_hole (cell_at in_play_board n) = false -> S n) ->
          forall p, region in_play_board (mkCoord 3 3) p -> S p).
Proof.
  apply (flood_fill_region 4 1 in_play_board (mkCoord 3 3)).
  - exact in_play_board_game.
  - vm_compute. reflexivity.
  - apply in_boardb_true. vm_compute. reflexivity.
  - vm_compute. reflexivity.
Defined.

(** ** Clicks after the end *)

Lemma set_status_same (b : Board) (s : GameStatus) : status b = s -> set_status b s = b.
Proof. intros <-. now destruct b. Qed.

(** C1, as the code has it.  [click_on] does not look at the status.  On a
    board of a game whose status is [LOST] or [WIN] a click returns and
    never closes a cell; a click on a hole sets the status to [LOST] and
    changes nothing else, so it leaves a lost board as it is; a click on an
    opened cell changes nothing, and on a won board that is every click on
    a cell that is not a hole. *)
Theorem click_on_terminal (size holes_num : Z) (b : Board) (coord : Coord) :
  game size holes_num b ->
  status b = LOST \/ status b = WIN ->
  in_board b coord ->
  exists b', click_on b coord = Ok b'
    /\ (forall p, in_board b p -> is_opened (cell_at b p) = true ->
          is_opened (cell_at b' p) = true)
    /\ (is_hole (cell_at b coord) = true -> b' = set_status b LOST)
    /\ (is_hole (cell_at b coord) = true -> status b = LOST -> b' = b)
    /\ (is_opened (cell_at b coord) = true -> b' = b)
    /\ (is_hole (cell_at b coord) = false -> status b = WIN -> b' = b).
Proof.
  intros G St Hc. pose proof (game_game_ok _ _ _ G) as Gok.
  pose proof (game_board_ok _ _ _ Gok) as Hok. pose proof (ok_shaped b Hok) as Hs.
  destruct (click_on_with_returns popleft b coord Hs Hc) as (b' & E).
  rewrite <- click_on_popleft in E.
  assert (Hhole : is_hole (cell_at b coord) = true -> b' = set_status b LOST).
  { intros Eh. rewrite click_on_popleft in E.
    rewrite (click_on_with_hole popleft b coord Hs Hc Eh) in E. congruence. }
  assert (Hopened : is_opened (cell_at b coord) = true -> b' = b).
  { intros Eo. rewrite (click_on_opened b coord Hok Hc Eo) in E. congruence. }
  exists b'. split; [assumption|]. split; [|split; [|split; [|split]]].
  - intros p Hp Ho. destruct (is_hole (cell_at b coord)) eqn:Eh.
    + now rewrite (Hhole eq_refl).
    + rewrite click_on_popleft in E.
      destruct (click_on_with_safe popleft b coord Hs Hc Eh) as (b1 & E1 & I).
      rewrite E in E1. injection E1 as <-. now apply (inv_mono _ _ _ _ I).
  - assumption.
  - intros Eh Hl. rewrite (Hhole Eh). now apply set_status_same.
  - assumption.
  - intros Eh Hw. apply Hopened. apply won_all_opened; auto. now apply (ok_win b Hok).
Qed.

Lemma click_on_terminal_witness :
  exists b', click_on won_board (mkCoord 2 2) = Ok b'
    /\ (forall p, in_board won_board p -> is_opened (cell_at won_board p) = true ->
          is_opened (cell_at b' p) = true)
    /\ (is_hole (cell_at won_board (mkCoord 2 2)) = true -> b' = set_status won_board LOST)
    /\ (is_hole (cell_at won_board (mkCoord 2 2)) = true -> status won_board = LOST ->
        b' = won_board)
    /\ (is_opened (cell_at won_board (mkCoord 2 2)) = true -> b' = won_board)
    /\ (is_hole (cell_at won_board (mkCoord 2 2)) = false -> status won_board = WIN ->
        b' = won_board).
Proof.
  apply (click_on_terminal 4 1 won_board (mkCoord 2 2)).
  - exact won_board_game.
  - right. vm_compute. reflexivity.
  - apply in_boardb_true. vm_compute. reflexivity.
Defined.

(** C1 as stated fails both ways: a click on the hole of a won board makes
    it lost, and a click on an unopened cell of a lost board opens cells
    and, here, wins the game. *)
Lemma click_on_terminal_changes :
  (game 4 1 won_board /\ status won_board = WIN /\ in_board won_board (mkCoord 0 0)
   /\ exists b', click_on won_board (mkCoord 0 0) = Ok b' /\ status b' = LOST)
  /\ (game 4 1 lost_board /\ status lost_board = LOST
      /\ in_board lost_board (mkCoord 3 3)
      /\ exists b', click_on lost_board (mkCoord 3 3) = Ok b'
           /\ status b' = WIN
           /\ is_opened (cell_at lost_board (mkCoord 3 3)) = false
           /\ is_opened (cell_at b' (mkCoord 3 3)) = true).
Proof.
  split.
  - split; [exact won_board_game|].
    split; [vm_compute; reflexivity|]. split; [apply in_boardb_true; vm_compute; reflexivity|].
    eexists. split; [vm_compute; reflexivity|]. reflexivity.
  - split; [exact lost_board_game|].
    split; [vm_compute; reflexivity|]. split; [apply in_boardb_true; vm_compute; reflexivity|].
    eexists. split; [vm_compute; reflexivity|]. split; [reflexivity|].
    split; vm_compute; reflexivity.
Qed.

(** * More of the board engine *)

(** ** What a click keeps *)

(** X1. On a rectangular board a click on a coordinate of the board
    returns; it keeps the size of the board, the [is_hole] flag and the
    [holes_around] count of every cell, closes no opened cell, and takes
    off [cells_to_open] exactly the number of cells it opens. *)
Theorem click_on_frame (b : Board) (coord : Coord) :
  shaped b ->
  in_board b coord ->
  exists b', click_on b coord = Ok b'
    /\ shaped b' /\ width b' = width b /\ height b' = height b
    /\ (forall p, in_board b p ->
          is_hole (cell_at b' p) = is_hole (cell_at b p)
          /\ holes_around (cell_at b' p) = holes_around (cell_at b p)
          /\ (is_opened (cell_at b p) = true -> is_opened (cell_at b' p) = true))
    /\ cells_to_open b - cells_to_open b'
       = Z.of_nat (opened_count b') - Z.of_nat (opened_count b)
    /\ cells_to_open b' <= cells_to_open b.
Proof.
  intros Hs Hc. rewrite click_on_popleft.
  destruct (is_hole (cell_at b coord)) eqn:Eh.
  - rewrite (click_on_with_hole popleft b coord Hs Hc Eh).
    exists (set_status b LOST).
    repeat split; auto; try reflexivity; try apply Hs;
      unfold opened_count; simpl; lia.
  - destruct (click_on_with_safe popleft b coord Hs Hc Eh) as (b' & E & I).
    pose proof (inv_shaped _ _ _ _ I) as Hs'.
    pose proof (inv_width _ _ _ _ I) as Hw. pose proof (inv_height _ _ _ _ I) as Hh.
    exists b'. split; [assumption|]. split; [assumption|].
    split; [assumption|]. split; [assumption|]. split; [|split].
    + intros p Hp. split; [|split].
      * apply (inv_hole _ _ _ _ I p Hp).
      * apply (inv_around _ _ _ _ I p Hp).
      * apply (inv_mono _ _ _ _ I p Hp).
    + pose proof (inv_counter _ _ _ _ I) as Ec.
      pose proof (opened_unopened b Hs) as E1. pose proof (opened_unopened b' Hs') as E2.
      rewrite Hw, Hh in E2. lia.
    + apply (inv_le _ _ _ _ I).
Qed.

Lemma click_on_frame_witness :
  exists b', click_on lost_board (mkCoord 3 3) = Ok b'
    /\ shaped b' /\ width b' = width lost_board /\ height b' = height lost_board
    /\ (forall p, in_board lost_board p ->
          is_hole (cell_at b' p) = is_hole (cell_at lost_board p)
          /\ holes_around (cell_at b' p) = holes_around (cell_at lost_board p)
          /\ (is_opened (cell_at lost_board p) = true -> is_opened (cell_at b' p) = true))
    /\ cells_to_open lost_board - cells_to_open b'
       = Z.of_nat (opened_count b') - Z.of_nat (opened_count lost_board)
    /\ cells_to_open b' <= cells_to_open lost_board.
Proof.
  apply (click_on_frame lost_board (mkCoord 3 3)).
  - apply shapedb_true. vm_compute. reflexivity.
  - apply in_boardb_true. vm_compute. reflexivity.
Defined.

(** X2. In a game a second click on the same coordinate changes nothing:
    the board after two clicks is the board after one. *)
Theorem click_on_twice (size holes_num : Z) (b : Board) (coord : Coord) :
  game size holes_num b ->
  in_board b coord ->
  exists b', click_on b coord = Ok b' /\ click_on b' coord = Ok b'.
Proof.
  intros G Hc. pose proof (game_game_ok _ _ _ G) as Gok.
  pose proof (game_board_ok _ _ _ Gok) as Hok. pose proof (ok_shaped b Hok) as Hs.
  destruct (is_hole (cell_at b coord)) eqn:Eh.
  - exists (set_status b LOST). rewrite !click_on_popleft.
    rewrite (click_on_with_hole popleft b coord Hs Hc Eh). split; [reflexivity|].
    rewrite (click_on_with_hole popleft (set_status b LOST) coord); auto.
  - rewrite click_on_popleft.
    destruct (click_on_with_safe popleft b coord Hs Hc Eh) as (b' & E & I).
    exists b'. split; [assumption|].
    apply click_on_opened.
    + eapply board_ok_reveal; eauto.
    + apply (in_board_dims b b'); auto.
      * apply (inv_width _ _ _ _ I).
      * apply (inv_height _ _ _ _ I).
    + apply (reveal_inv_opened b coord Hc b' coord I Hc). right. constructor.
Qed.

Lemma click_on_twice_witness :
  exists b', click_on in_play_board (mkCoord 2 1) = Ok b'
             /\ click_on b' (mkCoord 2 1) = Ok b'.
Proof.
  apply (click_on_twice 4 1 in_play_board (mkCoord 2 1)).
  - exact in_play_board_game.
  - apply in_boardb_true. vm_compute. reflexivity.
Defined.

(** X3. The reveal stops at a cell with holes around: on a rectangular
    board a click on such a cell, if it is not a hole, opens that cell (when
    it was not opened) and touches no other. *)
Theorem click_on_numbered (b : Board) (coord : Coord) :
  shaped b ->
  in_board b coord ->
  is_hole (cell_at b coord) = false ->
  holes_around (cell_at b coord) <> 0 ->
  exists b', click_on b coord = Ok b'
    /\ b' = _open_cell b coord (cell_at b coord)
    /\ is_opened (cell_at b' coord) = true
    /\ (forall p, in_board b p -> p <> coord -> cell_at b' p = cell_at b p)
    /\ cells_to_open b'
       = cells_to_open b - (if is_opened (cell_at b coord) then 0 else 1).
Proof.
  intros Hs Hc Hsafe Hn. exists (_open_cell b coord (cell_at b coord)).
  split; [|split; [reflexivity|split; [|split]]].
  - unfold click_on, _open_cells. rewrite (at_in b Hs coord Hc). cbn [bind].
    rewrite Hsafe, open_cells_loop_popleft, open_cells_with_step, take_popleft.
    rewrite (open_cells_body_eq b Hs coord Hc).
    destruct (Z.eqb_spec (holes_around (cell_at b coord)) 0) as [E|_]; [contradiction|].
    cbn [negb app]. now rewrite open_cells_with_step.
  - rewrite (_open_cell_at b Hs coord Hc coord Hc).
    now rewrite (proj2 (Coord_eqb_eq coord coord) eq_refl).
  - intros p Hp Hne. rewrite (_open_cell_at b Hs coord Hc p Hp).
    destruct (Coord_eqb p coord) eqn:E; [|reflexivity].
    apply Coord_eqb_eq in E. contradiction.
  - apply (_open_cell_counter b Hs coord Hc).
Qed.

Lemma click_on_numbered_witness :
  exists b', click_on in_play_board (mkCoord 1 1) = Ok b'
    /\ b' = _open_cell in_play_board (mkCoord 1 1) (cell_at in_play_board (mkCoord 1 1))
    /\ is_opened (cell_at b' (mkCoord 1 1)) = true
    /\ (forall p, in_board in_play_board p -> p <> mkCoord 1 1 ->
          cell_at b' p = cell_at in_play_board p)
    /\ cells_to_open b'
       = cells_to_open in_play_board
         - (if is_opened (cell_at in_play_board (mkCoord 1 1)) then 0 else 1).
Proof.
  apply (click_on_numbered in_play_board (mkCoord 1 1)).
  - apply shapedb_true. vm_compute. reflexivity.
  - apply in_boardb_true. vm_compute. reflexivity.
  - vm_compute. reflexivity.
  - vm_compute. discriminate.
Defined.

(** X4. In play, the game is lost by a click exactly when the cell clicked
    is a hole; after a click on any other cell the status is [IN_GAME] or
    [WIN]. *)
Theorem click_on_lost (size holes_num : Z) (b : Board) (coord : Coord) :
  game size holes_num b ->
  status b = IN_GAME ->
  in_board b coord ->
  exists b', click_on b coord = Ok b'
    /\ (status b' = LOST <-> is_hole (cell_at b coord) = true)
    /\ (is_hole (cell_at b coord) = false -> status b' = IN_GAME \/ status b' = WIN).
Proof.
  intros G St Hc. pose proof (game_game_ok _ _ _ G) as Gok.
  pose proof (game_board_ok _ _ _ Gok) as Hok. pose proof (ok_shaped b Hok) as Hs.
  rewrite click_on_popleft. destruct (is_hole (cell_at b coord)) eqn:Eh.
  - rewrite (click_on_with_hole popleft b coord Hs Hc Eh). exists (set_status b LOST).
    split; [reflexivity|]. split; [tauto|discriminate].
  - destruct (click_on_with_safe popleft b coord Hs Hc Eh) as (b' & E & I).
    exists b'. split; [assumption|].
    pose proof (inv_status _ _ _ _ I) as St'. rewrite St in St'.
    destruct ((cells_to_open b' <=? 0) && (0 <? cells_to_open b)); rewrite St'.
    + split; [split; discriminate|]. now right.
    + split; [split; discriminate|]. now left.
Qed.

Lemma click_on_lost_witness :
  exists b', click_on in_play_board (mkCoord 0 0) = Ok b'
    /\ (status b' = LOST <-> is_hole (cell_at in_play_board (mkCoord 0 0)) = true)
    /\ (is_hole (cell_at in_play_board (mkCoord 0 0)) = false ->
        status b' = IN_GAME \/ status b' = WIN).
Proof.
  apply (click_on_lost 4 1 in_play_board (mkCoord 0 0)).
  - exact in_play_board_game.
  - vm_compute. reflexivity.
  - apply in_boardb_true. vm_compute. reflexivity.
Defined.

(** ** Coordinates off the board *)

Lemma py_index_Some (len : nat) (i : Z) :
  - Z.of_nat len <= i < Z.of_nat len ->
  py_index len i = Some (Z.to_nat (i mod Z.of_nat len)).
Proof.
  intros H. unfold py_index.
  destruct (Z.leb_spec 0 i); destruct (Z.ltb_spec i (Z.of_nat len)); simpl; try lia.
  - now rewrite Z.mod_small by lia.
  - destruct (Z.leb_spec (- Z.of_nat len) i); destruct (Z.ltb_spec i 0); simpl; try lia.
    f_equal. f_equal. apply Z.mod_unique with (q := -1); lia.
Qed.

Lemma py_index_None (len : nat) (i : Z) :
  ~ (- Z.of_nat len <= i < Z.of_nat len) -> py_index len i = None.
Proof.
  intros H. unfold py_index.
  destruct (Z.leb_spec 0 i); destruct (Z.ltb_spec i (Z.of_nat len)); simpl; try lia;
    destruct (Z.leb_spec (- Z.of_nat len) i); destruct (Z.ltb_spec i 0); simpl;
    try lia; reflexivity.
Qed.

Lemma getitem_mod {A} (l : list A) (i : Z) :
  - Z.of_nat (length l) <= i < Z.of_nat (length l) ->
  getitem l i = getitem l (i mod Z.of_nat (length l)).
Proof.
  intros H. unfold getitem. rewrite (py_index_Some _ i H).
  assert (H' : 0 <= i mod Z.of_nat (length l) < Z.of_nat (length l))
    by (apply Z.mod_pos_bound; lia).
  now rewrite (py_index_in _ _ H').
Qed.

Lemma getitem_out {A} (l : list A) (i : Z) :
  ~ (- Z.of_nat (length l) <= i < Z.of_nat (length l)) ->
  getitem l i = Raise IndexError.
Proof. intros H. unfold getitem. now rewrite (py_index_None _ i H). Qed.

(** [at] with a coordinate that the lists accept reads the cell counted
    from the far side where a component is negative. *)
Lemma at_wrapped (b : Board) (coord : Coord) :
  shaped b ->
  - width b <= x coord < width b -> - height b <= y coord < height b ->
  in_board b (mkCoord (x coord mod width b) (y coord mod height b))
  /\ at_ b coord = Ok (cell_at b (mkCoord (x coord mod width b) (y coord mod height b))).
Proof.
  intros Hs Hx Hy. pose proof Hs as (Hw & Hh & Hl & Hrows).
  assert (Hin : in_board b (mkCoord (x coord mod width b) (y coord mod height b))).
  { split; simpl; apply Z.mod_pos_bound; lia. }
  split; [assumption|]. rewrite <- (at_in b Hs _ Hin).
  unfold at_. simpl. rewrite (getitem_mod (board b) (y coord)) by lia.
  rewrite Hl, Z2Nat.id by lia.
  destruct (row_in b Hs (y coord mod height b)) as (row & Er & Hlen);
    [apply Z.mod_pos_bound; lia|].
  rewrite Er. cbn [bind]. rewrite (getitem_mod row (x coord)) by lia.
  now rewrite Hlen, Z2Nat.id by lia.
Qed.

Lemma at_outside (b : Board) (coord : Coord) :
  shaped b ->
  ~ (- width b <= x coord < width b /\ - height b <= y coord < height b) ->
  at_ b coord = Raise IndexError.
Proof.
  intros Hs H. pose proof Hs as (Hw & Hh & Hl & Hrows).
  unfold at_. destruct (Z.le_gt_cases (- height b) (y coord)) as [H1|H1];
    [destruct (Z.lt_ge_cases (y coord) (height b)) as [H2|H2]|].
  - rewrite (getitem_mod (board b) (y coord)) by lia.
    rewrite Hl, Z2Nat.id by lia.
    destruct (row_in b Hs (y coord mod height b)) as (row & Er & Hlen);
      [apply Z.mod_pos_bound; lia|].
    rewrite Er. cbn [bind]. apply getitem_out. lia.
  - rewrite getitem_out by lia. reflexivity.
  - rewrite getitem_out by lia. reflexivity.
Qed.

(** X5. [at] does not check the coordinate against the size of the board;
    the lists do, the way Python lists do.  On a rectangular board a
    coordinate with [-width <= x < width] and [-height <= y < height] is
    accepted, a negative component counting from the far side, so that
    [at] reads the cell at [(x mod width, y mod height)]; any other
    coordinate raises [IndexError], out of [at] and out of [click_on]. *)
Theorem at_bounds (b : Board) (coord : Coord) :
  shaped b ->
  (- width b <= x coord < width b -> - height b <= y coord < height b ->
     in_board b (mkCoord (x coord mod width b) (y coord mod height b))
     /\ at_ b coord = Ok (cell_at b (mkCoord (x coord mod width b) (y coord mod height b))))
  /\ (~ (- width b <= x coord < width b /\ - height b <= y coord < height b) ->
      at_ b coord = Raise IndexError /\ click_on b coord = Raise IndexError).
Proof.
  intros Hs. split.
  - now apply at_wrapped.
  - intros H. pose proof (at_outside b coord Hs H) as E.
    split; [assumption|]. unfold click_on. now rewrite E.
Qed.

Lemma at_bounds_witness :
  (- width in_play_board <= x (mkCoord (-1) 4) < width in_play_board ->
   - height in_play_board <= y (mkCoord (-1) 4) < height in_play_board ->
     in_board in_play_board
       (mkCoord (x (mkCoord (-1) 4) mod width in_play_board)
                (y (mkCoord (-1) 4) mod height in_play_board))
     /\ at_ in_play_board (mkCoord (-1) 4)
        = Ok (cell_at in_play_board
                (mkCoord (x (mkCoord (-1) 4) mod width in_play_board)
                         (y (mkCoord (-1) 4) mod height in_play_board))))
  /\ (~ (- width in_play_board <= x (mkCoord (-1) 4) < width in_play_board
         /\ - height in_play_board <= y (mkCoord (-1) 4) < height in_play_board) ->
      at_ in_play_board (mkCoord (-1) 4) = Raise IndexError
      /\ click_on in_play_board (mkCoord (-1) 4) = Raise IndexError).
Proof.
  apply (at_bounds in_play_board (mkCoord (-1) 4)).
  apply shapedb_true. vm_compute. reflexivity.
Defined.

(** ** The counts *)

Lemma holes_around_range_of_game (size holes_num : Z) (b : Board) (p : Coord) :
  game size holes_num b -> in_board b p -> 0 <= holes_around (cell_at b p) <= 8.
Proof.
  intros G Hp. apply game_game_ok in G.
  destruct (is_hole (cell_at b p)) eqn:Eh.
  - rewrite (game_around_hole _ _ _ G p Hp Eh). lia.
  - rewrite (game_around_safe _ _ _ G p Hp Eh). unfold holes_among_neighbours.
    pose proof (filter_length_le (fun n => is_hole (cell_at b n))
                  (_get_adjacent_coords b p)).
    pose proof (_get_adjacent_coords_length b p). lia.
Qed.

(** X6. On every board of a game, after whatever clicks, [holes_around] of
    every cell lies between 0 and 8 and is still the number of holes among
    the neighbours of the cell, 0 on a hole. *)
Theorem holes_around_range (size holes_num : Z) (b : Board) (p : Coord) :
  game size holes_num b ->
  in_board b p ->
  0 <= holes_around (cell_at b p) <= 8
  /\ (is_hole (cell_at b p) = false ->
      holes_around (cell_at b p) = holes_among_neighbours b p)
  /\ (is_hole (cell_at b p) = true -> holes_around (cell_at b p) = 0).
Proof.
  intros G Hp. split; [now apply (holes_around_range_of_game size holes_num)|].
  apply game_game_ok in G. split.
  - apply (game_around_safe _ _ _ G p Hp).
  - apply (game_around_hole _ _ _ G p Hp).
Qed.

Lemma holes_around_range_witness :
  0 <= holes_around (cell_at in_play_board (mkCoord 1 1)) <= 8
  /\ (is_hole (cell_at in_play_board (mkCoord 1 1)) = false ->
      holes_around (cell_at in_play_board (mkCoord 1 1))
      = holes_among_neighbours in_play_board (mkCoord 1 1))
  /\ (is_hole (cell_at in_play_board (mkCoord 1 1)) = true ->
      holes_around (cell_at in_play_board (mkCoord 1 1)) = 0).
Proof.
  apply (holes_around_range 4 1 in_play_board (mkCoord 1 1)).
  - exact in_play_board_game.
  - apply in_boardb_true. vm_compute. reflexivity.
Defined.

(** How many of [i - 1], [i], [i + 1] lie in [0, n), for [i] in [0, n). *)
Definition axis_count (n i : Z) : nat :=
  (1 + (if (0 <? i)%Z then 1 else 0) + (if (i <? n - 1)%Z then 1 else 0))%nat.

(** X7. The neighbours are clipped at the edges of the board: a coordinate
    of the board has as many neighbours as there are columns times rows
    among the three around it, less itself; 8 inside the board, 5 on an
    edge and 3 in a corner of a board of at least 2 x 2. *)
Theorem _get_adjacent_coords_count (b : Board) (coord : Coord) :
  in_board b coord ->
  length (_get_adjacent_coords b coord)
  = (axis_count (width b) (x coord) * axis_count (height b) (y coord) - 1)%nat.
Proof.
  intros [Hx Hy]. unfold _get_adjacent_coords, neighbors, axis_count.
  cbn [flat_map app]. simpl Z.eqb. cbn [andb flat_map app x y].
  destruct (Z.ltb_spec 0 (x coord)); destruct (Z.ltb_spec (x coord) (width b - 1));
    destruct (Z.ltb_spec 0 (y coord)); destruct (Z.ltb_spec (y coord) (height b - 1)).
  all: repeat match goal with
         | |- context [if ?cnd then _ else _] =>
             let E := fresh "E" in
             destruct cnd eqn:E; [try (exfalso; lia)|try (exfalso; lia)]
         end.
  all: reflexivity.
Qed.

Lemma _get_adjacent_coords_count_witness :
  length (_get_adjacent_coords in_play_board (mkCoord 0 3))
  = (axis_count (width in_play_board) (x (mkCoord 0 3))
     * axis_count (height in_play_board) (y (mkCoord 0 3)) - 1)%nat.
Proof.
  apply (_get_adjacent_coords_count in_play_board (mkCoord 0 3)).
  apply in_boardb_true. vm_compute. reflexivity.
Defined.

(** ** The generator at its limits *)

Lemma length_filter_In (l : list Coord) (skip_cell : Coord) :
  NoDup l -> In skip_cell l ->
  S (length (filter (fun coord => negb (Coord_eqb coord skip_cell)) l)) = length l.
Proof.
  intros H. induction H as [|a l Ha Hl IH]; intros Hin; [destruct Hin|].
  cbn [filter]. destruct (Coord_eqb a skip_cell) eqn:E; simpl.
  - apply Coord_eqb_eq in E. subst a. f_equal.
    f_equal. apply forallb_filter_id. apply forallb_forall. intros c Hc.
    destruct (Coord_eqb c skip_cell) eqn:E; [|reflexivity].
    apply Coord_eqb_eq in E. subst c. contradiction.
  - f_equal. apply IH. destruct Hin as [->|Hin]; [|assumption].
    rewrite (proj2 (Coord_eqb_eq skip_cell skip_cell) eq_refl) in E. discriminate.
Qed.

Lemma length_filter_not_In (l : list Coord) (skip_cell : Coord) :
  ~ In skip_cell l ->
  length (filter (fun coord => negb (Coord_eqb coord skip_cell)) l) = length l.
Proof.
  intros H. f_equal. apply forallb_filter_id. apply forallb_forall. intros c Hc.
  destruct (Coord_eqb c skip_cell) eqn:E; [|reflexivity].
  apply Coord_eqb_eq in E. subst c. contradiction.
Qed.

(** The number of coordinates [generate_holes] draws from. *)
Definition available (g : HolesGenerator.t) (skip_cell : Coord) : Z :=
  Z.max 0 (HolesGenerator.width g) * Z.max 0 (HolesGenerator.height g)
  - (if (0 <=? x skip_cell) && (x skip_cell <? HolesGenerator.width g)
        && (0 <=? y skip_cell) && (y skip_cell <? HolesGenerator.height g)
     then 1 else 0).

Lemma length_available_places (g : HolesGenerator.t) (skip_cell : Coord) :
  Z.of_nat (length (HolesGenerator.available_places g skip_cell)) = available g skip_cell.
Proof.
  rewrite available_places_filter. unfold available.
  pose proof (in_places g skip_cell) as Hin.
  assert (L : Z.of_nat (length (places g))
              = Z.max 0 (HolesGenerator.width g) * Z.max 0 (HolesGenerator.height g)).
  { rewrite length_places, Nat2Z.inj_mul.
    assert (T : forall z, Z.of_nat (Z.to_nat z) = Z.max 0 z) by (intros; lia).
    now rewrite !T. }
  destruct ((0 <=? x skip_cell) && (x skip_cell <? HolesGenerator.width g)
            && (0 <=? y skip_cell) && (y skip_cell <? HolesGenerator.height g)) eqn:E.
  - assert (Hs : In skip_cell (places g)) by (apply Hin; lia).
    pose proof (length_filter_In (places g) skip_cell (NoDup_places g) Hs) as F. lia.
  - assert (Hs : ~ In skip_cell (places g)) by (rewrite Hin; lia).
    rewrite (length_filter_not_In (places g) skip_cell Hs). lia.
Qed.

(** X8. [generate_holes] returns exactly when [holes_num] is between 0 and
    the number of coordinates of its rectangle other than the skipped one
    (all of them when the skipped one is outside); otherwise it raises the
    [ValueError] of [random.sample].  What it returns has [holes_num]
    distinct coordinates, all in the rectangle and none the skipped one; at
    the upper limit every coordinate but the skipped one is returned. *)
Theorem generate_holes_limits (g : HolesGenerator.t) (r : HolesGenerator.rng)
    (skip_cell : Coord) :
  (0 <= HolesGenerator.holes_num g <= available g skip_cell ->
     exists holes,
       HolesGenerator.generate_holes g r skip_cell = Ok holes
       /\ Z.of_nat (length holes) = HolesGenerator.holes_num g
       /\ NoDup holes
       /\ (forall p, In p holes ->
             0 <= x p < HolesGenerator.width g /\ 0 <= y p < HolesGenerator.height g
             /\ p <> skip_cell)
       /\ (HolesGenerator.holes_num g = available g skip_cell ->
           forall p, 0 <= x p < HolesGenerator.width g ->
                     0 <= y p < HolesGenerator.height g ->
                     p <> skip_cell -> In p holes))
  /\ (~ (0 <= HolesGenerator.holes_num g <= available g skip_cell) ->
      HolesGenerator.generate_holes g r skip_cell = Raise (ValueError SampleOutOfRange)).
Proof.
  pose proof (length_available_places g skip_cell) as L. split.
  - intros H.
    assert (E : exists holes, HolesGenerator.generate_holes g r skip_cell = Ok holes).
    { unfold HolesGenerator.generate_holes, HolesGenerator.sample. rewrite L.
      destruct (Z.leb_spec 0 (HolesGenerator.holes_num g)); [|lia].
      destruct (Z.leb_spec (HolesGenerator.holes_num g) (available g skip_cell)); [|lia].
      simpl. eauto. }
    destruct E as (holes & E). exists holes. split; [assumption|].
    destruct (generate_holes_spec g r skip_cell holes E) as (Hlen & Hnd & Hin).
    split; [assumption|]. split; [assumption|]. split; [assumption|].
    intros Hfull p Hx Hy Hne.
    assert (Hp : In p (HolesGenerator.available_places g skip_cell)).
    { rewrite available_places_filter. apply filter_In. split.
      - apply in_places. lia.
      - destruct (Coord_eqb p skip_cell) eqn:Ep; [|reflexivity].
        apply Coord_eqb_eq in Ep. contradiction. }
    assert (Hincl : incl holes (HolesGenerator.available_places g skip_cell)).
    { intros q Hq. unfold HolesGenerator.generate_holes, HolesGenerator.sample in E.
      destruct ((0 <=? HolesGenerator.holes_num g)
                && (HolesGenerator.holes_num g
                    <=? Z.of_nat (length (HolesGenerator.available_places g skip_cell))));
        [|discriminate].
      injection E as <-. eapply draw_In; eauto. }
    assert (Hl : (length (HolesGenerator.available_places g skip_cell) <= length holes)%nat)
      by lia.
    exact (NoDup_length_incl Hnd Hl Hincl p Hp).
  - intros H. unfold HolesGenerator.generate_holes, HolesGenerator.sample. rewrite L.
    destruct (Z.leb_spec 0 (HolesGenerator.holes_num g));
      destruct (Z.leb_spec (HolesGenerator.holes_num g) (available g skip_cell));
      simpl; try reflexivity. lia.
Qed.

Lemma generate_holes_limits_witness :
  (0 <= HolesGenerator.holes_num (HolesGenerator.init 2 3)
     <= available (HolesGenerator.init 2 3) (mkCoord 1 0) ->
     exists holes,
       HolesGenerator.generate_holes (HolesGenerator.init 2 3) zero_rng (mkCoord 1 0)
       = Ok holes
       /\ Z.of_nat (length holes) = HolesGenerator.holes_num (HolesGenerator.init 2 3)
       /\ NoDup holes
       /\ (forall p, In p holes ->
             0 <= x p < HolesGenerator.width (HolesGenerator.init 2 3)
             /\ 0 <= y p < HolesGenerator.height (HolesGenerator.init 2 3)
             /\ p <> mkCoord 1 0)
       /\ (HolesGenerator.holes_num (HolesGenerator.init 2 3)
           = available (HolesGenerator.init 2 3) (mkCoord 1 0) ->
           forall p, 0 <= x p < HolesGenerator.width (HolesGenerator.init 2 3) ->
                     0 <= y p < HolesGenerator.height (HolesGenerator.init 2 3) ->
                     p <> mkCoord 1 0 -> In p holes))
  /\ (~ (0 <= HolesGenerator.holes_num (HolesGenerator.init 2 3)
           <= available (HolesGenerator.init 2 3) (mkCoord 1 0)) ->
      HolesGenerator.generate_holes (HolesGenerator.init 2 3) zero_rng (mkCoord 1 0)
      = Raise (ValueError SampleOutOfRange)).
Proof.
  exact (generate_holes_limits (HolesGenerator.init 2 3) zero_rng (mkCoord 1 0)).
Defined.

(** ** Games that are won *)

(** The status of a board of a game that is not lost follows the counter. *)
Lemma not_lost_won (b : Board) :
  board_ok b -> status b <> LOST -> cells_to_open b = 0 -> status b = WIN.
Proof.
  intros Hok Hnl Hz. destruct (status b) eqn:St; try reflexivity; try contradiction.
  pose proof (ok_in_game b Hok St). lia.
Qed.

Lemma reveal_not_lost (b b' : Board) (start : Coord) :
  reveal_inv b start b' [] -> status b <> LOST -> status b' <> LOST.
Proof.
  intros I H. rewrite (inv_status _ _ _ _ I).
  now destruct ((cells_to_open b' <=? 0) && (0 <? cells_to_open b)).
Qed.

(** X9. A game is won by clicking, in any order and any number of times,
    the cells that are not holes: from a board of a game that is not lost,
    clicks on cells that are not holes, among them every such cell not yet
    opened, all return and leave the status [WIN] and the counter 0. *)
Theorem clicks_on_safe_win (size holes_num : Z) (b : Board) (coords : list Coord) :
  game size holes_num b ->
  status b <> LOST ->
  Forall (fun coord => in_board b coord /\ is_hole (cell_at b coord) = false) coords ->
  (forall p, in_board b p -> is_hole (cell_at b p) = false ->
             is_opened (cell_at b p) = true \/ In p coords) ->
  exists b', clicks b coords = Ok b' /\ status b' = WIN /\ cells_to_open b' = 0
             /\ game size holes_num b'.
Proof.
  intros G Hnl Hcs Hall. revert b G Hnl Hcs Hall.
  induction coords as [|coord coords IH]; intros b G Hnl Hcs Hall.
  - pose proof (game_board_ok _ _ _ (game_game_ok _ _ _ G)) as Hok.
    assert (Hz : cells_to_open b = 0).
    { apply all_opened_won; [assumption|]. intros p Hp Hsafe.
      destruct (Hall p Hp Hsafe) as [H|[]]. exact H. }
    exists b. split; [reflexivity|]. split; [now apply not_lost_won|]. now split.
  - inversion Hcs as [|? ? [Hc Hsafe] Hcs']; subst.
    pose proof (game_board_ok _ _ _ (game_game_ok _ _ _ G)) as Hok.
    pose proof (ok_shaped b Hok) as Hs.
    destruct (click_on_with_safe popleft b coord Hs Hc Hsafe) as (b1 & E & I).
    rewrite <- click_on_popleft in E.
    pose proof (inv_width _ _ _ _ I) as Hw. pose proof (inv_height _ _ _ _ I) as Hh.
    cbn [clicks]. rewrite E. cbn [bind]. apply IH.
    + eapply game_click; eauto.
    + eapply reveal_not_lost; eauto.
    + rewrite Forall_forall in *. intros c Hcin. destruct (Hcs' c Hcin) as [Hcb Hcs''].
      split.
      * now apply (in_board_dims b b1).
      * now rewrite (inv_hole _ _ _ _ I c Hcb).
    + intros p Hp Hps. apply (in_board_dims b b1) in Hp; auto.
      rewrite (inv_hole _ _ _ _ I p Hp) in Hps.
      destruct (Hall p Hp Hps) as [H|[<-|H]].
      * left. now apply (inv_mono _ _ _ _ I).
      * left. apply (reveal_inv_opened b coord Hc b1 coord I Hc). right. constructor.
      * now right.
Qed.

(** The coordinates of a square of side [n] that pass a test. *)
Definition square_filter (n : Z) (test : Coord -> bool) : list Coord :=
  filter test (flat_map (fun cy => map (fun cx => mkCoord cx cy) (range n)) (range n)).

Lemma in_square_filter (n : Z) (test : Coord -> bool) (p : Coord) :
  In p (square_filter n test) <-> (0 <= x p < n /\ 0 <= y p < n) /\ test p = true.
Proof.
  unfold square_filter. rewrite filter_In, in_flat_map. split.
  - intros [(cy & Hy & H) Ht]. apply in_map_iff in H. destruct H as (cx & <- & Hx).
    apply in_range in Hx, Hy. simpl. auto.
  - intros [[Hx Hy] Ht]. split; [|assumption]. exists (y p).
    split; [now apply in_range|]. apply in_map_iff. exists (x p).
    split; [now destruct p|now apply in_range].
Qed.

(** [in_play_board] written out: 4 x 4, the hole at (0, 0), the cell at
    (0, 1) opened. *)
Definition small_board : Board := Eval vm_compute in in_play_board.

Lemma small_board_game : game 4 1 small_board.
Proof.
  apply (game_start 4 1 zero_rng (mkCoord 0 1)); [simpl; lia|simpl; lia|].
  vm_compute. reflexivity.
Defined.

(** The cells of [small_board] that are not the hole. *)
Definition small_board_safe : list Coord :=
  square_filter 4 (fun coord => negb (is_hole (cell_at small_board coord))).

Lemma clicks_on_safe_win_witness :
  exists b', clicks small_board small_board_safe = Ok b'
             /\ status b' = WIN /\ cells_to_open b' = 0 /\ game 4 1 b'.
Proof.
  apply (clicks_on_safe_win 4 1 small_board small_board_safe).
  - exact small_board_game.
  - discriminate.
  - apply Forall_forall. intros c Hc.
    destruct (proj1 (in_square_filter _ _ c) Hc) as [Hin Hsafe].
    split; [exact Hin|exact (proj1 (negb_true_iff _) Hsafe)].
  - intros p Hp Hsafe. right. apply (proj2 (in_square_filter _ _ p)).
    split; [exact Hp|exact (proj2 (negb_true_iff _) Hsafe)].
Defined.

(** On a board without holes and with nothing opened the reveal reaches
    every cell, one step at a time towards it. *)
Lemma fill_everything (b : Board) (start : Coord) :
  in_board b start ->
  (forall p, in_board b p ->
     is_hole (cell_at b p) = false /\ holes_around (cell_at b p) = 0
     /\ is_opened (cell_at b p) = false) ->
  forall p, in_board b p -> fill b start p.
Proof.
  intros Hst Hall.
  assert (G : forall n p, in_board b p ->
            (Z.to_nat (Z.abs (x p - x start) + Z.abs (y p - y start)) <= n)%nat ->
            fill b start p).
  { induction n as [|n IH]; intros p Hp Hd.
    - assert (p = start) by (destruct p, start; simpl in *; f_equal; lia).
      subst p. constructor.
    - destruct (Z.eq_dec (x p) (x start)) as [Ex|Ex];
        [destruct (Z.eq_dec (y p) (y start)) as [Ey|Ey]|].
      + assert (p = start) by (destruct p, start; simpl in *; congruence).
        subst p. constructor.
      + set (q := mkCoord (x p) (y p - Z.sgn (y p - y start))).
        assert (Hq : in_board b q) by (destruct Hp, Hst; split; simpl; lia).
        apply (fill_step b start q p).
        * apply IH; [assumption|]. simpl. lia.
        * apply (Hall q Hq).
        * apply _get_adjacent_coords_spec. split; [assumption|]. split.
          -- intros E. apply (f_equal y) in E. simpl in E. lia.
          -- simpl. lia.
        * apply (Hall p Hp).
        * apply (Hall p Hp).
      + set (q := mkCoord (x p - Z.sgn (x p - x start)) (y p - Z.sgn (y p - y start))).
        assert (Hq : in_board b q) by (destruct Hp, Hst; split; simpl; lia).
        apply (fill_step b start q p).
        * apply IH; [assumption|]. simpl. lia.
        * apply (Hall q Hq).
        * apply _get_adjacent_coords_spec. split; [assumption|]. split.
          -- intros E. apply (f_equal x) in E. simpl in E. lia.
          -- simpl. lia.
        * apply (Hall p Hp).
        * apply (Hall p Hp). }
  intros p Hp. eapply G; eauto.
Qed.

(** X10. A board without holes is won by its construction: for every size
    above 3 and first coordinate on the board, [__init__] with 0 holes
    returns a board with every cell opened, the counter at 0 and the status
    [WIN]. *)
Theorem no_holes_won (size : Z) (r : HolesGenerator.rng) (first_coord : Coord) :
  3 < size ->
  0 <= x first_coord < size -> 0 <= y first_coord < size ->
  exists b,
    Board_init size 0 (HolesGenerator.init size 0) r first_coord = Ok b
    /\ status b = WIN
    /\ cells_to_open b = 0
    /\ width b = size /\ height b = size
    /\ (forall p, in_board b p -> is_opened (cell_at b p) = true).
Proof.
  intros Hsize Hx Hy.
  destruct (Board_init_returns size 0 r first_coord Hsize ltac:(nia) Hx Hy)
    as (holes & b1 & b & _ & G & Hlen & _ & _ & E & _ & I).
  assert (holes = []) by (destruct holes; [reflexivity|simpl in Hlen; lia]). subst holes.
  pose proof (gen_shaped _ _ _ _ G) as Hs.
  pose proof (inv_width _ _ _ _ I) as Hw. pose proof (inv_height _ _ _ _ I) as Hh.
  assert (Hf : in_board b1 first_coord).
  { unfold in_board. now rewrite (gen_width _ _ _ _ G), (gen_height _ _ _ _ G). }
  assert (Hsafe : forall p, in_board b1 p -> is_hole (cell_at b1 p) = false).
  { intros p Hp. destruct (is_hole (cell_at b1 p)) eqn:Eh; [|reflexivity].
    apply (gen_hole _ _ _ _ G p Hp) in Eh. destruct Eh. }
  assert (Hall : forall p, in_board b1 p ->
            is_hole (cell_at b1 p) = false /\ holes_around (cell_at b1 p) = 0
            /\ is_opened (cell_at b1 p) = false).
  { intros p Hp. split; [now apply Hsafe|]. split; [|apply (gen_unopened _ _ _ _ G p Hp)].
    rewrite (gen_around_safe _ _ _ _ G p Hp (Hsafe p Hp)). unfold holes_among_neighbours.
    assert (F : forall l, (forall n, In n l -> is_hole (cell_at b1 n) = false) ->
                filter (fun n => is_hole (cell_at b1 n)) l = []).
    { induction l as [|a l IH]; intros Hl; [reflexivity|]. cbn [filter].
      rewrite (Hl a (or_introl eq_refl)). apply IH. intros n Hn. apply Hl. now right. }
    rewrite F; [reflexivity|]. intros n Hn. apply Hsafe. eapply in_adjacent; eauto. }
  assert (Hgame : game size 0 b) by (eapply game_start; eauto).
  pose proof (game_board_ok _ _ _ (game_game_ok _ _ _ Hgame)) as Hok.
  assert (Hopen : forall p, in_board b p -> is_opened (cell_at b p) = true).
  { intros p Hp. apply (in_board_dims b1 b) in Hp; auto.
    apply (reveal_inv_opened b1 first_coord Hf b p I Hp). right.
    now apply fill_everything. }
  assert (Hz : cells_to_open b = 0) by (apply all_opened_won; auto).
  exists b. split; [assumption|]. split.
  { apply not_lost_won; auto. apply (reveal_not_lost b1 b first_coord I).
    rewrite (gen_status _ _ _ _ G). discriminate. }
  split; [assumption|]. split; [now rewrite Hw, (gen_width _ _ _ _ G)|].
  split; [now rewrite Hh, (gen_height _ _ _ _ G)|assumption].
Qed.

Lemma no_holes_won_witness :
  exists b,
    Board_init 5 0 (HolesGenerator.init 5 0) zero_rng (mkCoord 4 2) = Ok b
    /\ status b = WIN
    /\ cells_to_open b = 0
    /\ width b = 5 /\ height b = 5
    /\ (forall p, in_board b p -> is_opened (cell_at b p) = true).
Proof.
  apply (no_holes_won 5 zero_rng (mkCoord 4 2)); simpl; lia.
Defined.

(** ** Flat coordinates *)

(** [HolesGenerator._to_flat_coord] *)
Definition _to_flat_coord (g : HolesGenerator.t) (coord : Coord) : Z :=
  x coord + y coord * HolesGenerator.width g.

(** [HolesGenerator._from_flat_coord]; [divmod] rounds towards minus
    infinity, as [Z.div] and [Z.modulo] do, and raises [ZeroDivisionError]
    on a zero divisor, which is [None] here. *)
Definition _from_flat_coord (g : HolesGenerator.t) (coord : Z) : option Coord :=
  if HolesGenerator.height g =? 0 then None
  else
    let (cy, cx) := (coord / HolesGenerator.height g, coord mod HolesGenerator.height g) in
    Some (mkCoord cx cy).

(** X11. For a generator made by [__init__] with a positive size the two
    conversions are inverse of each other: a coordinate of the square goes
    to a number in [0, board_size) and comes back, and a number in
    [0, board_size) goes to a coordinate of the square and comes back.
    With size 0 [_from_flat_coord] divides by zero. *)
Theorem flat_coord_round_trip (size holes : Z) (coord : Coord) (flat : Z) :
  0 < size ->
  (0 <= x coord < size -> 0 <= y coord < size ->
     0 <= _to_flat_coord (HolesGenerator.init size holes) coord
       < HolesGenerator.board_size (HolesGenerator.init size holes)
     /\ _from_flat_coord (HolesGenerator.init size holes)
          (_to_flat_coord (HolesGenerator.init size holes) coord) = Some coord)
  /\ (0 <= flat < HolesGenerator.board_size (HolesGenerator.init size holes) ->
      exists c, _from_flat_coord (HolesGenerator.init size holes) flat = Some c
                /\ 0 <= x c < size /\ 0 <= y c < size
                /\ _to_flat_coord (HolesGenerator.init size holes) c = flat)
  /\ _from_flat_coord (HolesGenerator.init 0 holes) flat = None.
Proof.
  intros Hsize. unfold _to_flat_coord, _from_flat_coord, HolesGenerator.board_size.
  simpl. destruct (Z.eqb_spec size 0) as [E|_]; [lia|]. split; [|split].
  - intros Hx Hy. split; [nia|]. f_equal.
    rewrite Z.div_add, Z.mod_add by lia.
    rewrite Z.div_small, Z.mod_small by lia. now destruct coord.
  - intros Hf. eexists. split; [reflexivity|]. simpl.
    pose proof (Z.mod_pos_bound flat size Hsize).
    pose proof (Z.div_mod flat size ltac:(lia)).
    assert (0 <= flat / size < size).
    { split; [apply Z.div_pos; lia|apply Z.div_lt_upper_bound; lia]. }
    repeat split; try lia.
  - reflexivity.
Qed.

Lemma flat_coord_round_trip_witness :
  (0 <= x (mkCoord 5 2) < 8 -> 0 <= y (mkCoord 5 2) < 8 ->
     0 <= _to_flat_coord (HolesGenerator.init 8 5) (mkCoord 5 2)
       < HolesGenerator.board_size (HolesGenerator.init 8 5)
     /\ _from_flat_coord (HolesGenerator.init 8 5)
          (_to_flat_coord (HolesGenerator.init 8 5) (mkCoord 5 2)) = Some (mkCoord 5 2))
  /\ (0 <= 21 < HolesGenerator.board_size (HolesGenerator.init 8 5) ->
      exists c, _from_flat_coord (HolesGenerator.init 8 5) 21 = Some c
                /\ 0 <= x c < 8 /\ 0 <= y c < 8
                /\ _to_flat_coord (HolesGenerator.init 8 5) c = 21)
  /\ _from_flat_coord (HolesGenerator.init 0 5) 21 = None.
Proof.
  apply (flat_coord_round_trip 8 5 (mkCoord 5 2) 21). lia.
Defined.

(** * The display *)

From Stdlib Require Ascii String DecimalString.
Import Ascii.AsciiSyntax String.StringSyntax.
Delimit Scope string_scope with string.
Delimit Scope char_scope with char.

Local Notation "a +++ b" := (String.append a b) (at level 60, right associativity).

(** [str(n)] of an integer: its decimal digits, after a minus sign when it
    is negative. *)
Definition str (n : Z) : String.string :=
  DecimalString.NilEmpty.string_of_int (Z.to_int n).

(** [s * n]: [n] copies of [s], none when [n] is not positive. *)
Definition times (s : String.string) (n : Z) : String.string :=
  String.concat ""%string (repeat s (Z.to_nat n)).

(** [enumerate(l)] *)
Definition enumerate {A} (l : list A) : list (Z * A) :=
  combine (range (Z.of_nat (length l))) l.

(** [DisplayBoard._raw_cell] *)
Definition _raw_cell (cell : Cell) : String.string :=
  if is_hole cell then "H"%string
  else if negb (holes_around cell =? 0) then str (holes_around cell)
  else "."%string.

(** [DisplayBoard._game_cell] *)
Definition _game_cell (cell : Cell) : String.string :=
  if negb (is_opened cell) then "*"%string
  else if is_hole cell then "H"%string
  else if negb (holes_around cell =? 0) then str (holes_around cell)
  else "."%string.

(** The lines a [show_...] method prints, [print] putting a space between
    its arguments and [" ".join] one between the items. *)
Definition show_board (show_cell : Cell -> String.string) (b : Board)
    : list String.string :=
  ("  " +++ " " +++ String.concat " " (map str (range (width b))))%string
  :: (" " +++ " " +++ times (times "-" (width b)) 2)%string
  :: map (fun '(cy, row) =>
            ((str cy +++ "|") +++ " " +++ String.concat " " (map show_cell row))%string)
         (enumerate (board b)).

(** [DisplayBoard.show_raw_board] *)
Definition show_raw_board (b : Board) : list String.string := show_board _raw_cell b.

(** [DisplayBoard.show_game_board] *)
Definition show_game_board (b : Board) : list String.string := show_board _game_cell b.

(** The characters of a string. *)
Definition chars (s : String.string) : list Ascii.ascii := String.list_ascii_of_string s.

Lemma chars_append (s t : String.string) : chars (s +++ t) = chars s ++ chars t.
Proof. induction s as [|c s IH]; simpl; [reflexivity|]. unfold chars in *. now rewrite IH. Qed.

Definition digit_or_minus (c : Ascii.ascii) : Prop :=
  In c ["0"; "1"; "2"; "3"; "4"; "5"; "6"; "7"; "8"; "9"; "-"]%char.

Lemma chars_str (n : Z) (c : Ascii.ascii) : In c (chars (str n)) -> digit_or_minus c.
Proof.
  assert (U : forall d, In c (chars (DecimalString.NilEmpty.string_of_uint d)) ->
              digit_or_minus c).
  { induction d; simpl; intros Hc; [contradiction|..];
      (destruct Hc as [<-|Hc]; [unfold digit_or_minus; simpl; tauto|auto]). }
  unfold str. destruct (Z.to_int n) as [d|d]; simpl; [apply (U d)|].
  intros [<-|Hc]; [unfold digit_or_minus; simpl; tauto|now apply (U d)].
Qed.

Lemma str_digit (n : Z) : 0 <= n <= 9 -> String.length (str n) = 1%nat.
Proof.
  intros H. rewrite <- (Z2Nat.id n) by lia.
  assert (Hk : (Z.to_nat n < 10)%nat) by lia.
  revert Hk. generalize (Z.to_nat n) as k. intros k Hk.
  do 10 (destruct k as [|k]; [reflexivity|]). lia.
Qed.

(** X12. What the game view shows of a cell.  For every cell it is ["*"]
    exactly when the cell is not opened, and what the raw view shows when
    it is.  On a board of a game it is never ["H"], since no hole is ever
    opened, and both views of a cell are one character long, so that the
    rows line up. *)
Theorem game_view_cell (size holes_num : Z) (b : Board) (p : Coord) :
  game size holes_num b ->
  in_board b p ->
  (forall cell, _game_cell cell = "*"%string <-> is_opened cell = false)
  /\ (forall cell, is_opened cell = true -> _game_cell cell = _raw_cell cell)
  /\ _game_cell (cell_at b p) <> "H"%string
  /\ (_raw_cell (cell_at b p) = "H"%string <-> is_hole (cell_at b p) = true)
  /\ String.length (_game_cell (cell_at b p)) = 1%nat
  /\ String.length (_raw_cell (cell_at b p)) = 1%nat.
Proof.
  intros G Hp.
  assert (Hstar : forall n, str n <> "*"%string).
  { intros n E. assert (H : In "*"%char (chars (str n))) by (rewrite E; now left).
    apply chars_str in H. unfold digit_or_minus in H. simpl in H.
    repeat (destruct H as [H|H]; [discriminate|]). exact H. }
  assert (HH : forall n, str n <> "H"%string).
  { intros n E. assert (H : In "H"%char (chars (str n))) by (rewrite E; now left).
    apply chars_str in H. unfold digit_or_minus in H. simpl in H.
    repeat (destruct H as [H|H]; [discriminate|]). exact H. }
  pose proof (holes_around_range_of_game size holes_num b p G Hp) as Hr.
  pose proof (game_board_ok _ _ _ (game_game_ok _ _ _ G)) as Hok.
  pose proof (ok_holes_closed b Hok p Hp) as Hclosed.
  split; [|split; [|split; [|split; [|split]]]].
  - intros cell. unfold _game_cell. destruct (is_opened cell); simpl.
    + split; [|discriminate]. destruct (is_hole cell); [intros E; inversion E|].
      destruct (negb (holes_around cell =? 0)); [|intros E; inversion E].
      intros E. now apply Hstar in E.
    + tauto.
  - intros cell Ho. unfold _game_cell, _raw_cell. now rewrite Ho.
  - unfold _game_cell. destruct (is_opened (cell_at b p)) eqn:Eo; simpl;
      [|intros E; inversion E].
    destruct (is_hole (cell_at b p)) eqn:Eh.
    + discriminate (Hclosed eq_refl).
    + destruct (negb (holes_around (cell_at b p) =? 0)); [apply HH|intros E; inversion E].
  - unfold _raw_cell. destruct (is_hole (cell_at b p)); [tauto|].
    split; [|discriminate].
    destruct (negb (holes_around (cell_at b p) =? 0)); [|intros E; inversion E].
    intros E. now apply HH in E.
  - unfold _game_cell. destruct (negb (is_opened (cell_at b p))); [reflexivity|].
    destruct (is_hole (cell_at b p)); [reflexivity|].
    destruct (negb (holes_around (cell_at b p) =? 0)); [|reflexivity].
    apply str_digit. lia.
  - unfold _raw_cell. destruct (is_hole (cell_at b p)); [reflexivity|].
    destruct (negb (holes_around (cell_at b p) =? 0)); [|reflexivity].
    apply str_digit. lia.
Qed.

Lemma game_view_cell_witness :
  (forall cell, _game_cell cell = "*"%string <-> is_opened cell = false)
  /\ (forall cell, is_opened cell = true -> _game_cell cell = _raw_cell cell)
  /\ _game_cell (cell_at small_board (mkCoord 0 0)) <> "H"%string
  /\ (_raw_cell (cell_at small_board (mkCoord 0 0)) = "H"%string
      <-> is_hole (cell_at small_board (mkCoord 0 0)) = true)
  /\ String.length (_game_cell (cell_at small_board (mkCoord 0 0))) = 1%nat
  /\ String.length (_raw_cell (cell_at small_board (mkCoord 0 0))) = 1%nat.
Proof.
  apply (game_view_cell 4 1 small_board (mkCoord 0 0)).
  - exact small_board_game.
  - apply in_boardb_true. reflexivity.
Defined.

(** How many times a character occurs in a string, and in lines. *)
Definition occurrences (c : Ascii.ascii) (s : String.string) : nat :=
  length (filter (Ascii.eqb c) (chars s)).

Definition occurrences_in (c : Ascii.ascii) (lines : list String.string) : nat :=
  total (occurrences c) lines.

Lemma occurrences_append (c : Ascii.ascii) (s t : String.string) :
  occurrences c (s +++ t) = (occurrences c s + occurrences c t)%nat.
Proof. unfold occurrences. now rewrite chars_append, filter_app, length_app. Qed.

Lemma occurrences_concat (c : Ascii.ascii) (sep : String.string) (l : list String.string) :
  occurrences c sep = 0%nat ->
  occurrences c (String.concat sep l) = total (occurrences c) l.
Proof.
  intros Hsep. induction l as [|s l IH]; [reflexivity|].
  destruct l as [|t l].
  - unfold total. simpl. lia.
  - change (String.concat sep (s :: t :: l))
      with (s +++ sep +++ String.concat sep (t :: l)).
    rewrite !occurrences_append, Hsep, IH. unfold total. simpl. lia.
Qed.

Lemma occurrences_str (n : Z) : occurrences "H"%char (str n) = 0%nat.
Proof.
  unfold occurrences.
  destruct (filter (Ascii.eqb "H"%char) (chars (str n))) as [|c l] eqn:E; [reflexivity|].
  assert (H : In c (filter (Ascii.eqb "H"%char) (chars (str n)))) by (rewrite E; now left).
  apply filter_In in H. destruct H as [H Hc]. apply Ascii.eqb_eq in Hc. subst c.
  apply chars_str in H. unfold digit_or_minus in H. simpl in H.
  repeat (destruct H as [H|H]; [discriminate|]). destruct H.
Qed.

Lemma occurrences_times (n m : Z) :
  occurrences "H"%char (times (times "-"%string n) m) = 0%nat.
Proof.
  assert (T : forall s k, occurrences "H"%char s = 0%nat ->
              occurrences "H"%char (times s k) = 0%nat).
  { intros s k Hs. unfold times. rewrite occurrences_concat by reflexivity.
    apply total_zero. intros t Ht. apply repeat_spec in Ht. now subst. }
  apply T, T. reflexivity.
Qed.

Lemma total_combine {A B} (f : B * A -> nat) (g : A -> nat) (idx : list B) (l : list A) :
  (forall i a, f (i, a) = g a) -> length idx = length l ->
  total f (combine idx l) = total g l.
Proof.
  intros H. revert idx. induction l as [|a l IH]; intros [|i idx] Hlen;
    try discriminate; [reflexivity|].
  injection Hlen as Hlen. specialize (IH idx Hlen).
  unfold total in *. simpl in *. rewrite H. f_equal. exact IH.
Qed.

Lemma total_enumerate {A} (f : Z * A -> nat) (g : A -> nat) (l : list A) :
  (forall i a, f (i, a) = g a) -> total f (enumerate l) = total g l.
Proof.
  intros H. apply total_combine; [assumption|]. now rewrite length_range, Nat2Z.id.
Qed.

(** The holes a view shows: the ["H"] of its lines are those of its cells. *)
Lemma occurrences_show_board (show_cell : Cell -> String.string) (b : Board) :
  occurrences_in "H"%char (show_board show_cell b)
  = total (total (fun cell => occurrences "H"%char (show_cell cell))) (board b).
Proof.
  assert (LS : forall a l, list_sum (a :: l) = (a + list_sum l)%nat) by reflexivity.
  assert (Z0 : total (occurrences "H"%char) (map str (range (width b))) = 0%nat).
  { apply total_zero. intros s Hs. apply in_map_iff in Hs.
    destruct Hs as (n & <- & _). apply occurrences_str. }
  unfold occurrences_in, show_board, total at 1. cbn [map]. rewrite !LS.
  rewrite !occurrences_append, occurrences_times.
  rewrite occurrences_concat by reflexivity. rewrite Z0.
  change (occurrences "H"%char "  "%string) with 0%nat.
  change (occurrences "H"%char " "%string) with 0%nat. cbn [Nat.add].
  match goal with
  | |- list_sum (map ?f ?l) = _ => change (list_sum (map f l)) with (total f l)
  end.
  rewrite total_map. apply total_enumerate. intros cy row.
  rewrite !occurrences_append, occurrences_str.
  rewrite occurrences_concat by reflexivity. now rewrite total_map.
Qed.

(** X13. The raw view shows one ["H"] for every hole of the board, which
    in a game makes [holes_num] of them, and the game view of a board of a
    game shows none: the holes stay hidden, also after the game is lost.
    Either view prints two heading lines and a line for every row. *)
Theorem views_show_holes (size holes_num : Z) (b : Board) :
  game size holes_num b ->
  Z.of_nat (occurrences_in "H"%char (show_raw_board b)) = holes_num
  /\ occurrences_in "H"%char (show_game_board b) = 0%nat
  /\ Z.of_nat (length (show_raw_board b)) = 2 + size
  /\ Z.of_nat (length (show_game_board b)) = 2 + size.
Proof.
  intros G. pose proof (game_game_ok _ _ _ G) as Gok.
  pose proof (game_board_ok _ _ _ Gok) as Hok. pose proof (ok_shaped b Hok) as Hs.
  assert (Hraw : forall cell, occurrences "H"%char (_raw_cell cell) = hole_cell cell).
  { intros cell. unfold _raw_cell, hole_cell. destruct (is_hole cell); [reflexivity|].
    destruct (negb (holes_around cell =? 0)); [apply occurrences_str|reflexivity]. }
  assert (Hlen : forall show_cell, Z.of_nat (length (show_board show_cell b)) = 2 + size).
  { intros show_cell. unfold show_board, enumerate. cbn [length].
    rewrite length_map, length_combine, length_range, Nat2Z.id, Nat.min_id.
    destruct Hs as (_ & Hh & Hl & _). rewrite Hl, <- (game_height _ _ _ Gok). lia. }
  split; [|split; [|split]].
  - unfold show_raw_board. rewrite occurrences_show_board.
    rewrite (total_ext _ (total hole_cell)) by (intros row _; now apply total_ext).
    apply (game_holes _ _ _ Gok).
  - unfold show_game_board. rewrite occurrences_show_board.
    apply (total_board_zero _ b Hs). intros p Hp. unfold _game_cell.
    destruct (is_opened (cell_at b p)) eqn:Eo; [|reflexivity]. simpl.
    destruct (is_hole (cell_at b p)) eqn:Eh.
    + rewrite (ok_holes_closed b Hok p Hp Eh) in Eo. discriminate.
    + destruct (negb (holes_around (cell_at b p) =? 0)); [apply occurrences_str|reflexivity].
  - apply Hlen.
  - apply Hlen.
Qed.

Lemma views_show_holes_witness :
  Z.of_nat (occurrences_in "H"%char (show_raw_board small_board)) = 1
  /\ occurrences_in "H"%char (show_game_board small_board) = 0%nat
  /\ Z.of_nat (length (show_raw_board small_board)) = 2 + 4
  /\ Z.of_nat (length (show_game_board small_board)) = 2 + 4.
Proof.
  apply (views_show_holes 4 1 small_board). exact small_board_game.
Defined.

(** * A first coordinate off the board *)

(** [__init__] on arguments that pass its checks, whatever the first
    coordinate: the board is generated and then clicked. *)
Lemma Board_init_click (size holes_num : Z) (r : HolesGenerator.rng)
    (first_coord : Coord) :
  3 < size -> 0 <= holes_num < size ^ 2 - 9 ->
  exists holes b1,
    HolesGenerator.generate_holes (HolesGenerator.init size holes_num) r first_coord
    = Ok holes
    /\ generated size holes_num holes b1
    /\ Board_init size holes_num (HolesGenerator.init size holes_num) r first_coord
       = click_on b1 first_coord.
Proof.
  intros Hsize Hn.
  destruct (_generate_board_generated size holes_num r first_coord)
    as (holes & b1 & Eg & Eb & G); [nia|lia|].
  exists holes, b1. split; [assumption|]. split; [assumption|].
  unfold Board_init, SMALLEST_BOARD_SIZE.
  destruct (Z.leb_spec size 3); [lia|].
  destruct (Z.leb_spec (size ^ 2 - 3 ^ 2) holes_num); [lia|].
  fold (empty_board size holes_num). cbv zeta. rewrite Eb. reflexivity.
Qed.

Lemma Board_init_outside (size holes_num : Z) (r : HolesGenerator.rng)
    (first_coord : Coord) :
  3 < size -> 0 <= holes_num < size ^ 2 - 9 ->
  ~ (- size <= x first_coord < size /\ - size <= y first_coord < size) ->
  Board_init size holes_num (HolesGenerator.init size holes_num) r first_coord
  = Raise IndexError.
Proof.
  intros Hsize Hn Hout.
  destruct (Board_init_click size holes_num r first_coord Hsize Hn)
    as (holes & b1 & _ & G & ->).
  unfold click_on. rewrite at_outside; [reflexivity|exact (gen_shaped _ _ _ _ G)|].
  now rewrite (gen_width _ _ _ _ G), (gen_height _ _ _ _ G).
Qed.

(** X14. [__init__] does not check the first coordinate.  The generator
    then has nothing to skip, and [click_on] reads the cell the lists give:
    with a first coordinate outside [-size <= x < size],
    [-size <= y < size] the construction raises [IndexError], after the
    holes have been drawn; with one inside, whenever the cell at
    [(x mod size, y mod size)] is among the holes drawn, the construction
    returns a board that is already lost, with no cell opened. *)
Theorem first_coord_unchecked (size holes_num : Z) (r : HolesGenerator.rng)
    (first_coord : Coord) :
  3 < size -> 0 <= holes_num < size ^ 2 - 9 ->
  exists holes,
    HolesGenerator.generate_holes (HolesGenerator.init size holes_num) r first_coord
    = Ok holes
    /\ (~ (- size <= x first_coord < size /\ - size <= y first_coord < size) ->
        Board_init size holes_num (HolesGenerator.init size holes_num) r first_coord
        = Raise IndexError)
    /\ (- size <= x first_coord < size -> - size <= y first_coord < size ->
        In (mkCoord (x first_coord mod size) (y first_coord mod size)) holes ->
        ~ (0 <= x first_coord < size /\ 0 <= y first_coord < size)
        /\ exists b,
            Board_init size holes_num (HolesGenerator.init size holes_num) r first_coord
            = Ok b
            /\ status b = LOST
            /\ opened_count b = 0%nat
            /\ cells_to_open b = size * size - holes_num).
Proof.
  intros Hsize Hn.
  destruct (Board_init_click size holes_num r first_coord Hsize Hn)
    as (holes & b1 & Eg & G & EB).
  destruct (generate_holes_spec _ r first_coord holes Eg) as (_ & _ & Hin).
  pose proof (gen_shaped _ _ _ _ G) as Hs.
  pose proof (gen_width _ _ _ _ G) as Hw. pose proof (gen_height _ _ _ _ G) as Hh.
  exists holes. split; [assumption|]. split.
  - now apply Board_init_outside.
  - intros Hx Hy Hhole. split.
    + intros [Hx' Hy']. destruct (Hin _ Hhole) as (_ & _ & Hne). apply Hne.
      rewrite !Z.mod_small by assumption. now destruct first_coord.
    + destruct (at_wrapped b1 first_coord Hs) as [Hp Ea]; [lia|lia|].
      rewrite Hw, Hh in Hp, Ea.
      apply (gen_hole _ _ _ _ G _ Hp) in Hhole.
      exists (set_status b1 LOST). rewrite EB. unfold click_on. rewrite Ea. cbn [bind].
      rewrite Hhole. split; [reflexivity|]. split; [reflexivity|]. split.
      * exact (generated_opened_count _ _ _ _ G).
      * exact (gen_counter _ _ _ _ G).
Qed.

Lemma first_coord_unchecked_witness :
  exists holes,
    HolesGenerator.generate_holes (HolesGenerator.init 4 1) zero_rng (mkCoord (-4) 4)
    = Ok holes
    /\ (~ (- 4 <= x (mkCoord (-4) 4) < 4 /\ - 4 <= y (mkCoord (-4) 4) < 4) ->
        Board_init 4 1 (HolesGenerator.init 4 1) zero_rng (mkCoord (-4) 4)
        = Raise IndexError)
    /\ (- 4 <= x (mkCoord (-4) 4) < 4 -> - 4 <= y (mkCoord (-4) 4) < 4 ->
        In (mkCoord (x (mkCoord (-4) 4) mod 4) (y (mkCoord (-4) 4) mod 4)) holes ->
        ~ (0 <= x (mkCoord (-4) 4) < 4 /\ 0 <= y (mkCoord (-4) 4) < 4)
        /\ exists b,
            Board_init 4 1 (HolesGenerator.init 4 1) zero_rng (mkCoord (-4) 4) = Ok b
            /\ status b = LOST
            /\ opened_count b = 0%nat
            /\ cells_to_open b = 4 * 4 - 1).
Proof.
  apply (first_coord_unchecked 4 1 zero_rng (mkCoord (-4) 4)); lia.
Defined.

(** Such a game: 4 x 4, the hole drawn at (0, 0), the first coordinate
    (-4, -4), which the lists take for (0, 0). *)
Lemma first_click_on_hole :
  HolesGenerator.generate_holes (HolesGenerator.init 4 1) zero_rng (mkCoord (-4) (-4))
  = Ok [mkCoord 0 0]
  /\ exists b,
      Board_init 4 1 (HolesGenerator.init 4 1) zero_rng (mkCoord (-4) (-4)) = Ok b
      /\ status b = LOST.
Proof.
  split; [vm_compute; reflexivity|].
  eexists. split; vm_compute; reflexivity.
Qed.

(** * The game loop *)

(** Where the loop of [main] is once the coordinates entered are used up:
    it was left, with coordinates still unread, or [get_coord_to_open]
    waits for the next one. *)
Inductive play : Type :=
| Over (b : Board) (unread : list Coord)
| Asking (b : Board).

(** The [while True] loop of [main]; [coords] is what the calls of
    [get_coord_to_open] return, in turn.  The screen is not part of the
    model: between two clicks the loop prints [show_game_board]. *)
Fixpoint game_loop (b : Board) (coords : list Coord) : result play :=
  match coords with
  | [] => Ok (Asking b)
  | coord :: coords' =>
      b' <- click_on b coord ;;
      match status b' with
      | IN_GAME => game_loop b' coords'
      | _ => Ok (Over b' coords')
      end
  end.

(** What [main] has come to: it has printed the result and returned, or
    it waits for a coordinate, the first one while there is no board. *)
Inductive run : Type :=
| Done (b : Board) (result : String.string) (unread : list Coord)
| Waiting (b : option Board).

(** [main], with the coordinates [get_coord_to_open] returns. *)
Definition main (r : HolesGenerator.rng) (coords : list Coord) : result run :=
  let size := 8 in
  let holes_num := 5 in
  match coords with
  | [] => Ok (Waiting None)
  | first_coord :: coords' =>
      board <- Board_init size holes_num (HolesGenerator.init size holes_num) r
                 first_coord ;;
      p <- game_loop board coords' ;;
      match p with
      | Asking b => Ok (Waiting (Some b))
      | Over b unread =>
          Ok (Done b (match status b with WIN => "WIN" | _ => "LOST" end)%string unread)
      end
  end.

(** A click in play. *)
Lemma click_in_play (size holes_num : Z) (b : Board) (coord : Coord) :
  game size holes_num b -> status b = IN_GAME -> in_board b coord ->
  exists b', click_on b coord = Ok b'
    /\ game size holes_num b'
    /\ (forall p, in_board b' p <-> in_board b p)
    /\ (forall p, in_board b p -> is_hole (cell_at b' p) = is_hole (cell_at b p))
    /\ (is_hole (cell_at b coord) = true /\ status b' = LOST /\ 0 < cells_to_open b'
        \/ is_hole (cell_at b coord) = false /\ status b' = WIN /\ cells_to_open b' = 0
        \/ is_hole (cell_at b coord) = false /\ status b' = IN_GAME
           /\ 0 < cells_to_open b').
Proof.
  intros G St Hc. pose proof (game_game_ok _ _ _ G) as Gok.
  pose proof (game_board_ok _ _ _ Gok) as Hok. pose proof (ok_shaped b Hok) as Hs.
  destruct (is_hole (cell_at b coord)) eqn:Eh.
  - pose proof (click_on_with_hole popleft b coord Hs Hc Eh) as E.
    rewrite <- click_on_popleft in E. exists (set_status b LOST).
    split; [assumption|]. split; [eapply game_click; eauto|].
    split; [reflexivity|]. split; [reflexivity|]. left.
    split; [reflexivity|]. split; [reflexivity|]. exact (ok_in_game b Hok St).
  - destruct (click_on_with_safe popleft b coord Hs Hc Eh) as (b' & E & I).
    rewrite <- click_on_popleft in E.
    assert (G' : game size holes_num b') by (eapply game_click; eauto).
    pose proof (game_board_ok _ _ _ (game_game_ok _ _ _ G')) as Hok'.
    exists b'. split; [assumption|]. split; [assumption|]. split.
    { intros p. unfold in_board.
      now rewrite (inv_width _ _ _ _ I), (inv_height _ _ _ _ I). }
    split; [exact (inv_hole _ _ _ _ I)|]. right.
    pose proof (inv_status _ _ _ _ I) as St'. rewrite St in St'.
    destruct ((cells_to_open b' <=? 0) && (0 <? cells_to_open b)).
    + left. split; [reflexivity|]. split; [assumption|]. exact (ok_win b' Hok' St').
    + right. split; [reflexivity|]. split; [assumption|]. exact (ok_in_game b' Hok' St').
Qed.

(** The loop from a board in play. *)
Lemma game_loop_from_play (size holes_num : Z) (coords : list Coord) (b : Board) :
  game size holes_num b ->
  status b = IN_GAME ->
  Forall (in_board b) coords ->
  (exists b',
      game_loop b coords = Ok (Asking b')
      /\ clicks b coords = Ok b'
      /\ Forall (fun coord => is_hole (cell_at b coord) = false) coords
      /\ game size holes_num b'
      /\ (forall p, in_board b p -> is_hole (cell_at b' p) = is_hole (cell_at b p))
      /\ status b' = IN_GAME /\ 0 < cells_to_open b')
  \/ (exists pre coord unread b',
      coords = pre ++ coord :: unread
      /\ game_loop b coords = Ok (Over b' unread)
      /\ clicks b (pre ++ [coord]) = Ok b'
      /\ Forall (fun coord => is_hole (cell_at b coord) = false) pre
      /\ game size holes_num b'
      /\ (forall p, in_board b p -> is_hole (cell_at b' p) = is_hole (cell_at b p))
      /\ (is_hole (cell_at b coord) = true /\ status b' = LOST /\ 0 < cells_to_open b'
          \/ is_hole (cell_at b coord) = false /\ status b' = WIN
             /\ cells_to_open b' = 0)).
Proof.
  intros G St Hcs. revert b G St Hcs.
  induction coords as [|coord coords IH]; intros b G St Hcs.
  - left. exists b. split; [reflexivity|]. split; [reflexivity|]. split; [constructor|].
    split; [assumption|]. split; [reflexivity|]. split; [assumption|].
    exact (ok_in_game b (game_board_ok _ _ _ (game_game_ok _ _ _ G)) St).
  - inversion Hcs as [|? ? Hc Hcs']; subst.
    destruct (click_in_play size holes_num b coord G St Hc)
      as (b1 & E & G1 & Hin & Hhole & [(Eh & St1 & Hpos)|[(Eh & St1 & Hz)|(Eh & St1 & Hpos)]]).
    + right. exists [], coord, coords, b1. split; [reflexivity|].
      cbn [game_loop clicks app]. rewrite E. cbn [bind]. rewrite St1.
      split; [reflexivity|]. split; [reflexivity|]. split; [constructor|].
      split; [assumption|]. split; [assumption|]. left. auto.
    + right. exists [], coord, coords, b1. split; [reflexivity|].
      cbn [game_loop clicks app]. rewrite E. cbn [bind]. rewrite St1.
      split; [reflexivity|]. split; [reflexivity|]. split; [constructor|].
      split; [assumption|]. split; [assumption|]. right. auto.
    + assert (Hcs1 : Forall (in_board b1) coords).
      { rewrite Forall_forall in *. intros c Hcin. apply Hin. now apply Hcs'. }
      assert (Hsafe : forall l, Forall (in_board b) l ->
                Forall (fun c => is_hole (cell_at b1 c) = false) l ->
                Forall (fun c => is_hole (cell_at b c) = false) l).
      { intros l Hl H. rewrite Forall_forall in *. intros c Hcin.
        rewrite <- (Hhole c (Hl c Hcin)). now apply H. }
      destruct (IH b1 G1 St1 Hcs1)
        as [(b' & El & Ec & Hs & G' & Hh' & St' & Hpos')
           |(pre & c & unread & b' & -> & El & Ec & Hs & G' & Hh' & Hend)].
      * left. exists b'. cbn [game_loop clicks]. rewrite E. cbn [bind]. rewrite St1.
        split; [assumption|]. split; [assumption|].
        split; [constructor; [assumption|now apply Hsafe]|].
        split; [assumption|]. split; [|split; assumption].
        intros p Hp. rewrite <- (Hhole p Hp). apply Hh'. now apply Hin.
      * right. exists (coord :: pre), c, unread, b'. split; [reflexivity|].
        cbn [game_loop clicks app]. rewrite E. cbn [bind]. rewrite St1.
        split; [assumption|]. split; [assumption|].
        assert (Hpre : Forall (in_board b) pre /\ in_board b c).
        { rewrite Forall_forall in Hcs'. split.
          - apply Forall_forall. intros q Hq. apply Hcs', in_or_app. now left.
          - apply Hcs', in_or_app. right. now left. }
        destruct Hpre as [Hpre Hcb].
        split; [constructor; [assumption|now apply Hsafe]|].
        split; [assumption|]. split.
        { intros p Hp. rewrite <- (Hhole p Hp). apply Hh'. now apply Hin. }
        rewrite <- (Hhole c Hcb). assumption.
Qed.

(** The loop from a board that is won. *)
Lemma game_loop_from_won (size holes_num : Z) (b : Board) (coord : Coord)
    (unread : list Coord) :
  game size holes_num b -> status b = WIN -> in_board b coord ->
  (is_hole (cell_at b coord) = true ->
     game_loop b (coord :: unread) = Ok (Over (set_status b LOST) unread))
  /\ (is_hole (cell_at b coord) = false ->
     game_loop b (coord :: unread) = Ok (Over b unread)).
Proof.
  intros G St Hc. pose proof (game_game_ok _ _ _ G) as Gok.
  pose proof (game_board_ok _ _ _ Gok) as Hok. pose proof (ok_shaped b Hok) as Hs.
  split; intros Eh; cbn [game_loop].
  - pose proof (click_on_with_hole popleft b coord Hs Hc Eh) as E.
    rewrite <- click_on_popleft in E. rewrite E. reflexivity.
  - rewrite (click_on_opened b coord Hok Hc).
    + cbn [bind]. now rewrite St.
    + apply won_all_opened; auto. exact (ok_win b Hok St).
Qed.

(** X15. The loop of [main] from a board in play, with coordinates on the
    board: no click raises and the holes stay where they are; the loop is
    left at the first coordinate that is a hole, with the status [LOST],
    or at the coordinate whose click opens the last cell that is not a
    hole, with the status [WIN] and the counter 0; the coordinates after
    it are not read.  While neither has come it goes on asking, the board
    in play. *)
Theorem game_loop_in_play (size holes_num : Z) (b : Board) (coords : list Coord) :
  game size holes_num b ->
  status b = IN_GAME ->
  Forall (in_board b) coords ->
  (exists b',
      game_loop b coords = Ok (Asking b')
      /\ clicks b coords = Ok b'
      /\ Forall (fun coord => is_hole (cell_at b coord) = false) coords
      /\ game size holes_num b'
      /\ (forall p, in_board b p -> is_hole (cell_at b' p) = is_hole (cell_at b p))
      /\ status b' = IN_GAME /\ 0 < cells_to_open b')
  \/ (exists pre coord unread b',
      coords = pre ++ coord :: unread
      /\ game_loop b coords = Ok (Over b' unread)
      /\ clicks b (pre ++ [coord]) = Ok b'
      /\ Forall (fun coord => is_hole (cell_at b coord) = false) pre
      /\ game size holes_num b'
      /\ (forall p, in_board b p -> is_hole (cell_at b' p) = is_hole (cell_at b p))
      /\ (is_hole (cell_at b coord) = true /\ status b' = LOST /\ 0 < cells_to_open b'
          \/ is_hole (cell_at b coord) = false /\ status b' = WIN
             /\ cells_to_open b' = 0)).
Proof. intros G St Hcs. now apply game_loop_from_play. Qed.

Definition small_board_clicks : list Coord := [mkCoord 1 1; mkCoord 0 0; mkCoord 2 2].

Lemma game_loop_in_play_witness :
  (exists b',
      game_loop small_board small_board_clicks = Ok (Asking b')
      /\ clicks small_board small_board_clicks = Ok b'
      /\ Forall (fun coord => is_hole (cell_at small_board coord) = false)
           small_board_clicks
      /\ game 4 1 b'
      /\ (forall p, in_board small_board p ->
            is_hole (cell_at b' p) = is_hole (cell_at small_board p))
      /\ status b' = IN_GAME /\ 0 < cells_to_open b')
  \/ (exists pre coord unread b',
      small_board_clicks = pre ++ coord :: unread
      /\ game_loop small_board small_board_clicks = Ok (Over b' unread)
      /\ clicks small_board (pre ++ [coord]) = Ok b'
      /\ Forall (fun coord => is_hole (cell_at small_board coord) = false) pre
      /\ game 4 1 b'
      /\ (forall p, in_board small_board p ->
            is_hole (cell_at b' p) = is_hole (cell_at small_board p))
      /\ (is_hole (cell_at small_board coord) = true /\ status b' = LOST
            /\ 0 < cells_to_open b'
          \/ is_hole (cell_at small_board coord) = false /\ status b' = WIN
             /\ cells_to_open b' = 0)).
Proof.
  apply (game_loop_in_play 4 1 small_board small_board_clicks).
  - exact small_board_game.
  - reflexivity.
  - repeat (constructor; [apply in_boardb_true; reflexivity|]). constructor.
Defined.

(** X16. The loop of [main] clicks before it looks at the status.  From a
    board that is won already, as the first click can leave it, it still
    takes one coordinate and is left after it: a click on a cell that is
    not a hole changes nothing, a click on a hole turns the status to
    [LOST], the counter staying 0. *)
Theorem game_loop_won (size holes_num : Z) (b : Board) (coord : Coord)
    (unread : list Coord) :
  game size holes_num b -> status b = WIN -> in_board b coord ->
  game_loop b [] = Ok (Asking b)
  /\ (is_hole (cell_at b coord) = true ->
       game_loop b (coord :: unread) = Ok (Over (set_status b LOST) unread)
       /\ cells_to_open (set_status b LOST) = 0)
  /\ (is_hole (cell_at b coord) = false ->
       game_loop b (coord :: unread) = Ok (Over b unread)).
Proof.
  intros G St Hc. destruct (game_loop_from_won size holes_num b coord unread G St Hc)
    as [Hh Hs].
  split; [reflexivity|]. split; [|assumption].
  intros Eh. split; [now apply Hh|].
  exact (ok_win b (game_board_ok _ _ _ (game_game_ok _ _ _ G)) St).
Qed.

Definition small_won_board : Board := Eval vm_compute in won_board.

Lemma small_won_board_game : game 4 1 small_won_board.
Proof.
  apply (game_start 4 1 zero_rng (mkCoord 3 3)); [simpl; lia|simpl; lia|].
  vm_compute. reflexivity.
Defined.

Lemma game_loop_won_witness :
  game_loop small_won_board [] = Ok (Asking small_won_board)
  /\ (is_hole (cell_at small_won_board (mkCoord 0 0)) = true ->
       game_loop small_won_board [mkCoord 0 0; mkCoord 1 1]
       = Ok (Over (set_status small_won_board LOST) [mkCoord 1 1])
       /\ cells_to_open (set_status small_won_board LOST) = 0)
  /\ (is_hole (cell_at small_won_board (mkCoord 0 0)) = false ->
       game_loop small_won_board [mkCoord 0 0; mkCoord 1 1]
       = Ok (Over small_won_board [mkCoord 1 1])).
Proof.
  apply (game_loop_won 4 1 small_won_board (mkCoord 0 0) [mkCoord 1 1]).
  - exact small_won_board_game.
  - reflexivity.
  - apply in_boardb_true. reflexivity.
Defined.

(** X17. [main] with coordinates that are all on the 8 x 8 board never
    raises.  When it returns, the loop has used at least one coordinate
    after the first; the word it prints is ["LOST"] exactly when the last
    coordinate used is a hole and ["WIN"] when it is not, and then the
    counter is 0 and the 59 cells that are not holes are opened.  When it
    waits, the board is in play, or it is won by the first click and
    nothing was entered after it. *)
Theorem main_on_board (r : HolesGenerator.rng) (first_coord : Coord)
    (coords : list Coord) :
  Forall (fun coord => 0 <= x coord < 8 /\ 0 <= y coord < 8) (first_coord :: coords) ->
  exists o, main r (first_coord :: coords) = Ok o
    /\ match o with
       | Waiting None => False
       | Waiting (Some b) =>
           game 8 5 b
           /\ (status b = IN_GAME /\ 0 < cells_to_open b
               \/ status b = WIN /\ coords = [])
       | Done b word unread =>
           game 8 5 b
           /\ exists pre coord, coords = pre ++ coord :: unread
              /\ (is_hole (cell_at b coord) = true /\ status b = LOST
                  /\ word = "LOST"%string
                  \/ is_hole (cell_at b coord) = false /\ status b = WIN
                     /\ word = "WIN"%string /\ cells_to_open b = 0
                     /\ opened_count b = 59%nat)
       end.
Proof.
  intros H. inversion H as [|? ? [Hx Hy] Hcs]; subst.
  destruct (Board_init_returns 8 5 r first_coord)
    as (holes & b1 & b & _ & Gen & _ & _ & _ & Eb & _ & I); try lia.
  assert (G : game 8 5 b) by (eapply game_start; eauto).
  pose proof (game_game_ok _ _ _ G) as Gok.
  assert (Hin : Forall (in_board b) coords).
  { rewrite Forall_forall in *. intros c Hc. unfold in_board.
    rewrite (game_width _ _ _ Gok), (game_height _ _ _ Gok). now apply Hcs. }
  assert (Hwon : forall b', game 8 5 b' -> cells_to_open b' = 0 ->
            opened_count b' = 59%nat).
  { intros b' G' Hz. pose proof (game_game_ok _ _ _ G') as Gok'.
    destruct (game_counter _ _ _ G') as [E _].
    rewrite (game_width _ _ _ Gok'), (game_height _ _ _ Gok') in E. lia. }
  unfold main. cbv zeta. rewrite Eb. cbn [bind].
  pose proof (inv_status _ _ _ _ I) as St. rewrite (gen_status _ _ _ _ Gen) in St.
  destruct ((cells_to_open b <=? 0) && (0 <? cells_to_open b1)).
  - (* won by the first click *)
    destruct coords as [|coord unread].
    + eexists. split; [reflexivity|]. split; [assumption|]. right. now split.
    + inversion Hin as [|? ? Hc _]; subst.
      destruct (game_loop_from_won 8 5 b coord unread G St Hc) as [Hh Hs].
      destruct (is_hole (cell_at b coord)) eqn:Eh.
      * rewrite (Hh eq_refl). cbn [bind]. eexists. split; [reflexivity|].
        split.
        { apply (game_click 8 5 b _ coord G Hc).
          rewrite click_on_popleft.
          apply click_on_with_hole; auto.
          exact (ok_shaped b (game_board_ok _ _ _ Gok)). }
        exists [], coord. split; [reflexivity|]. left.
        split; [exact Eh|]. split; reflexivity.
      * rewrite (Hs eq_refl). cbn [bind]. eexists. split; [reflexivity|].
        split; [assumption|]. exists [], coord. split; [reflexivity|]. right.
        rewrite St.
        pose proof (ok_win b (game_board_ok _ _ _ Gok) St) as Hz.
        split; [assumption|]. split; [reflexivity|]. split; [reflexivity|].
        split; [assumption|]. now apply Hwon.
  - (* in play after the first click *)
    destruct (game_loop_from_play 8 5 coords b G St Hin)
      as [(b' & El & _ & _ & G' & _ & St' & Hpos)
         |(pre & c & unread & b' & Ec & El & _ & _ & G' & Hh & Hend)];
      rewrite El; cbn [bind].
    + eexists. split; [reflexivity|]. split; [assumption|]. left. now split.
    + eexists. split; [reflexivity|]. split; [assumption|].
      exists pre, c. split; [assumption|].
      assert (Hc : in_board b c).
      { rewrite Forall_forall in Hin. apply Hin. rewrite Ec. apply in_or_app.
        right. now left. }
      rewrite (Hh c Hc).
      destruct Hend as [(Eh & St' & _)|(Eh & St' & Hz)]; rewrite St'.
      * left. split; [assumption|]. split; reflexivity.
      * right. split; [assumption|]. split; [reflexivity|]. split; [reflexivity|].
        split; [assumption|]. now apply Hwon.
Qed.

Lemma main_on_board_witness :
  exists o, main zero_rng [mkCoord 7 7; mkCoord 0 0; mkCoord 3 3] = Ok o
    /\ match o with
       | Waiting None => False
       | Waiting (Some b) =>
           game 8 5 b
           /\ (status b = IN_GAME /\ 0 < cells_to_open b
               \/ status b = WIN /\ [mkCoord 0 0; mkCoord 3 3] = [])
       | Done b word unread =>
           game 8 5 b
           /\ exists pre coord, [mkCoord 0 0; mkCoord 3 3] = pre ++ coord :: unread
              /\ (is_hole (cell_at b coord) = true /\ status b = LOST
                  /\ word = "LOST"%string
                  \/ is_hole (cell_at b coord) = false /\ status b = WIN
                     /\ word = "WIN"%string /\ cells_to_open b = 0
                     /\ opened_count b = 59%nat)
       end.
Proof.
  apply (main_on_board zero_rng (mkCoord 7 7) [mkCoord 0 0; mkCoord 3 3]).
  repeat (constructor; [simpl; lia|]). constructor.
Defined.

(** The loop while it goes on asking. *)
Lemma game_loop_asking (coords : list Coord) (b b' : Board) :
  game_loop b coords = Ok (Asking b') ->
  clicks b coords = Ok b'
  /\ forall coords', game_loop b (coords ++ coords') = game_loop b' coords'.
Proof.
  revert b. induction coords as [|coord coords IH]; intros b; cbn [game_loop clicks app].
  - intros E. injection E as <-. now split.
  - destruct (click_on b coord) as [b1|err]; cbn [bind]; [|discriminate].
    destruct (status b1); try discriminate. apply IH.
Qed.

(** X18. [main] does not check what [get_coord_to_open] returns.  While
    it is waiting for a coordinate, the first one or one for the loop, a
    coordinate outside [-8 <= x < 8], [-8 <= y < 8] makes it end with an
    [IndexError], whatever was to follow. *)
Theorem main_index_error (r : HolesGenerator.rng) (coords : list Coord) (w : option Board)
    (coord : Coord) (unread : list Coord) :
  Forall (fun coord => 0 <= x coord < 8 /\ 0 <= y coord < 8) coords ->
  main r coords = Ok (Waiting w) ->
  ~ (- 8 <= x coord < 8 /\ - 8 <= y coord < 8) ->
  main r (coords ++ coord :: unread) = Raise IndexError.
Proof.
  intros Hcs Hw Hout. destruct coords as [|first_coord coords].
  - cbn [app]. unfold main. cbv zeta.
    rewrite (Board_init_outside 8 5 r coord) by (lia || assumption). reflexivity.
  - inversion Hcs as [|? ? [Hx Hy] Hcs']; subst.
    destruct (Board_init_returns 8 5 r first_coord)
      as (holes & b1 & b & _ & _ & _ & _ & _ & Eb & _ & _); try lia.
    assert (G : game 8 5 b) by (eapply game_start; eauto).
    cbn [app]. unfold main in *. cbv zeta in *. rewrite Eb in *. cbn [bind] in *.
    destruct (game_loop b coords) as [[b' u|b']|err] eqn:El; cbn [bind] in Hw;
      try discriminate.
    destruct (game_loop_asking coords b b' El) as [Ec Happ]. rewrite Happ.
    destruct (clicks_game 8 5 coords b G Hcs') as (b2 & Ec2 & G2).
    rewrite Ec in Ec2. injection Ec2 as <-.
    pose proof (game_game_ok _ _ _ G2) as Gok.
    cbn [game_loop]. unfold click_on. rewrite at_outside; [reflexivity| |].
    + exact (ok_shaped b' (game_board_ok _ _ _ Gok)).
    + now rewrite (game_width _ _ _ Gok), (game_height _ _ _ Gok).
Qed.

Lemma main_index_error_witness :
  main zero_rng ([mkCoord 0 1] ++ mkCoord 8 0 :: [mkCoord 1 1]) = Raise IndexError.
Proof.
  apply (main_index_error zero_rng [mkCoord 0 1]
           (match main zero_rng [mkCoord 0 1] with
            | Ok (Waiting w) => w
            | _ => None
            end)).
  - repeat (constructor; [simpl; lia|]). constructor.
  - vm_compute. reflexivity.
  - simpl. lia.
Defined.
